(** * RAN-DDPG (cleanrl/RAN_ddpg_continuous_action.py): momentum-reshaped critic update

    A shallow embedding of the training script.  Floating-point tensors are
    modelled as shaped arrays of exact rationals ([Q]); a tensor is a shape
    together with its row-major data, as in torch.  Library calls that can raise
    (broadcasting, reshape, reductions) return [option]. *)

From Stdlib Require Import String List ZArith QArith Qabs Qminmax Qround Lia Lqa Bool Arith.
Import ListNotations.
Import Init.Datatypes.
Local Open Scope Q_scope.

(** ** Rational arithmetic

    Every result is kept in lowest terms, so that equal values are equal terms. *)

Definition radd (a b : Q) : Q := Qred (a + b).
Definition rsub (a b : Q) : Q := Qred (a - b).
Definition rmul (a b : Q) : Q := Qred (a * b).
Definition rdiv (a b : Q) : Q := Qred (a / b).

(** ** Tensors *)

Record tensor (A : Type) : Type := mkTensor { shape : list nat; data : list A }.
Arguments mkTensor {A} _ _.
Arguments shape {A} _.
Arguments data {A} _.

(** [torch.Size.numel]: the number of entries of a shape. *)
Definition numel (s : list nat) : nat := fold_right Nat.mul 1%nat s.

Definition well_formed {A} (t : tensor A) : Prop :=
  length (data t) = numel (shape t).

(** [len(p.shape)] *)
Definition rank {A} (t : tensor A) : nat := length (shape t).

Definition full {A} (s : list nat) (v : A) : tensor A :=
  mkTensor s (repeat v (numel s)).

(** [torch.zeros(shape)] *)
Definition zeros (s : list nat) : tensor Q := full s 0.

Definition map2 {A B C} (f : A -> B -> C) (l1 : list A) (l2 : list B) : list C :=
  map (fun p => f (fst p) (snd p)) (combine l1 l2).

(** [chunks k n l]: the first [n] consecutive blocks of [k] entries of [l]. *)
Fixpoint chunks {A} (k n : nat) (l : list A) : list (list A) :=
  match n with
  | O => []
  | S n' => firstn k l :: chunks k n' (skipn k l)
  end.

Fixpoint shape_eqb (a b : list nat) : bool :=
  match a, b with
  | [], [] => true
  | x :: a', y :: b' => (x =? y)%nat && shape_eqb a' b'
  | _, _ => false
  end.

(** Broadcasting of two shapes, trailing dimensions first (both reversed). *)
Fixpoint broadcast_rev (a b : list nat) : option (list nat) :=
  match a, b with
  | [], _ => Some b
  | _, [] => Some a
  | x :: a', y :: b' =>
      if (x =? y)%nat then option_map (cons x) (broadcast_rev a' b')
      else if (x =? 1)%nat then option_map (cons y) (broadcast_rev a' b')
      else if (y =? 1)%nat then option_map (cons x) (broadcast_rev a' b')
      else None
  end.

(** [torch.broadcast_shapes]; [None] when torch raises. *)
Definition broadcast_shapes (a b : list nat) : option (list nat) :=
  option_map (@rev nat) (broadcast_rev (rev a) (rev b)).

Definition pad_shape (r : nat) (s : list nat) : list nat :=
  repeat 1%nat (r - length s) ++ s.

(** Data of a tensor of shape [s] expanded to shape [t] (same rank, every
    dimension of [s] equal to that of [t] or 1). *)
Fixpoint expand_data {A} (s t : list nat) (d : list A) {struct s} : list A :=
  match s, t with
  | n :: s', m :: t' =>
      let blocks := map (expand_data s' t') (chunks (numel s') n d) in
      if (n =? m)%nat then concat blocks else concat (repeat (hd [] blocks) m)
  | _, _ => d
  end.

(** [Tensor.expand] *)
Definition expand {A} (t : tensor A) (s : list nat) : tensor A :=
  mkTensor s (expand_data (pad_shape (length s) (shape t)) s (data t)).

(** An elementwise binary operation with broadcasting. *)
Definition broadcast2 {A B C} (f : A -> B -> C) (a : tensor A) (b : tensor B)
  : option (tensor C) :=
  match broadcast_shapes (shape a) (shape b) with
  | Some s => Some (mkTensor s (map2 f (data (expand a s)) (data (expand b s))))
  | None => None
  end.

(** [torch.mul], [torch.add] *)
Definition tmul : tensor Q -> tensor Q -> option (tensor Q) := broadcast2 rmul.
Definition tadd : tensor Q -> tensor Q -> option (tensor Q) := broadcast2 radd.

(** [c * t] for a Python scalar [c] *)
Definition tscale (c : Q) (t : tensor Q) : tensor Q :=
  mkTensor (shape t) (map (rmul c) (data t)).

(** [a += b]: the sum must have the shape of [a]. *)
Definition iadd (a b : tensor Q) : option (tensor Q) :=
  match tadd a b with
  | Some r => if shape_eqb (shape r) (shape a) then Some r else None
  | None => None
  end.

(** [t.unsqueeze(0)] *)
Definition unsqueeze0 {A} (t : tensor A) : tensor A :=
  mkTensor (1%nat :: shape t) (data t).

(** [t.reshape(dims)]; [None] in [dims] stands for [-1]. *)
Definition known_numel (dims : list (option nat)) : nat :=
  fold_right (fun d acc => match d with Some n => (n * acc)%nat | None => acc end) 1%nat dims.

Definition count_inferred (dims : list (option nat)) : nat :=
  length (filter (fun d => match d with None => true | Some _ => false end) dims).

Definition reshape {A} (t : tensor A) (dims : list (option nat)) : option (tensor A) :=
  let n := numel (shape t) in
  let k := known_numel dims in
  match count_inferred dims with
  | O => if (k =? n)%nat then Some (mkTensor (map (fun d => match d with Some x => x | None => O end) dims) (data t))
         else None
  | S O => if (k =? 0)%nat then None
           else if (n mod k =? 0)%nat
           then Some (mkTensor (map (fun d => match d with Some x => x | None => (n / k)%nat end) dims) (data t))
           else None
  | _ => None
  end.

(** [t.flatten()] and [t.view(-1)] *)
Definition flatten {A} (t : tensor A) : tensor A :=
  mkTensor [numel (shape t)] (data t).

(** Entrywise sum of [rows], each of [k] entries. *)
Definition vsum (k : nat) (rows : list (list Q)) : list Q :=
  fold_right (map2 radd) (repeat 0 k) rows.

(** [t.sum(0)] *)
Definition sum0 (t : tensor Q) : option (tensor Q) :=
  match shape t with
  | n :: s => Some (mkTensor s (vsum (numel s) (chunks (numel s) n (data t))))
  | [] => None
  end.

(** [t.sum(1)] *)
Definition sum1 (t : tensor Q) : option (tensor Q) :=
  match shape t with
  | n :: k :: s =>
      Some (mkTensor (n :: s)
              (concat (map (fun blk => vsum (numel s) (chunks (numel s) k blk))
                           (chunks (k * numel s) n (data t)))))
  | _ => None
  end.

(** [t.mean(0)] *)
Definition mean0 (t : tensor Q) : option (tensor Q) :=
  match shape t, sum0 t with
  | n :: _, Some r => Some (tscale (rdiv 1 (inject_Z (Z.of_nat n))) r)
  | _, _ => None
  end.

(** [torch.sum(t)] of all entries *)
Definition sum_all (l : list Q) : Q := fold_right radd 0 l.

(** Every entry is exactly zero. *)
Definition all_zero (t : tensor Q) : Prop := Forall (fun q => q = 0) (data t).

(** ** Scalars

    The forward pass is written once and run on rationals (values) and on dual
    numbers (values with a tangent), which is how [torch.func.grad] is modelled. *)

Class Scalar (S : Type) : Type := {
  sconst : Q -> S;
  sadd : S -> S -> S;
  ssub : S -> S -> S;
  smul : S -> S -> S;
  srelu : S -> S
}.

(** [F.relu] *)
Definition Qrelu (x : Q) : Q := if Qle_bool x 0 then 0 else x.

#[export] Instance Scalar_Q : Scalar Q := {|
  sconst := fun q => q;
  sadd := radd;
  ssub := rsub;
  smul := rmul;
  srelu := Qrelu
|}.

Record dual : Type := mkDual { primal : Q; tangent : Q }.

Definition dual_add (a b : dual) : dual :=
  mkDual (radd (primal a) (primal b)) (radd (tangent a) (tangent b)).
Definition dual_sub (a b : dual) : dual :=
  mkDual (rsub (primal a) (primal b)) (rsub (tangent a) (tangent b)).
Definition dual_mul (a b : dual) : dual :=
  mkDual (rmul (primal a) (primal b))
         (radd (rmul (primal a) (tangent b)) (rmul (tangent a) (primal b))).
(** The derivative of relu is 1 on positive inputs and 0 elsewhere. *)
Definition dual_relu (a : dual) : dual :=
  if Qle_bool (primal a) 0 then mkDual 0 0 else a.

#[export] Instance Scalar_dual : Scalar dual := {|
  sconst := fun q => mkDual q 0;
  sadd := dual_add;
  ssub := dual_sub;
  smul := dual_mul;
  srelu := dual_relu
|}.

(** ** Named parameters *)

(** [named_parameters()] / a [state_dict]: names with their tensors, in
    registration order. *)
Definition state_dict (S : Type) : Type := list (string * tensor S).

Fixpoint lookup {S} (name : string) (d : state_dict S) : option (tensor S) :=
  match d with
  | [] => None
  | (n, t) :: d' => if String.eqb n name then Some t else lookup name d'
  end.

Definition param {S} (d : state_dict S) (name : string) : tensor S :=
  match lookup name d with
  | Some t => t
  | None => mkTensor [] []
  end.

(** [parameters()] *)
Definition parameters {S} (d : state_dict S) : list (tensor S) := map snd d.
Definition names {S} (d : state_dict S) : list string := map fst d.
Definition shapes {S} (d : state_dict S) : list (string * list nat) :=
  map (fun nt => (fst nt, shape (snd nt))) d.

(** The tensors of [d] replaced, in order, by [ts]. *)
Definition with_parameters {S} (d : state_dict S) (ts : list (tensor S)) : state_dict S :=
  map2 (fun nt t => (fst nt, t)) d ts.

(** ** Networks *)

Definition tmap {A B} (f : A -> B) (t : tensor A) : tensor B :=
  mkTensor (shape t) (map f (data t)).

Definition lift {S} `{Scalar S} (t : tensor Q) : tensor S := tmap sconst t.

Definition dot {S} `{Scalar S} (u v : list S) : S :=
  fold_right sadd (sconst 0) (map2 smul u v).

(** [F.linear(x, W, b)]: [x @ W.T + b] for [x] of shape [n, in], [W] of shape
    [out, in] and [b] of shape [out]. *)
Definition linear {S} `{Scalar S} (W b x : tensor S) : tensor S :=
  match shape W, shape x with
  | [out; inp], [n; _] =>
      let rows := chunks inp out (data W) in
      mkTensor [n; out]
        (concat (map (fun xr => map2 sadd (map (dot xr) rows) (data b))
                     (chunks inp n (data x))))
  | _, _ => mkTensor [] []
  end.

(** [torch.cat([x, a], 1)] of two matrices *)
Definition cat1 {S} (x a : tensor S) : tensor S :=
  match shape x, shape a with
  | [n; k1], [_; k2] =>
      mkTensor [n; (k1 + k2)%nat]
        (concat (map2 (@app S) (chunks k1 n (data x)) (chunks k2 n (data a))))
  | _, _ => mkTensor [] []
  end.

(** The parameters [nn.Linear(inp, out)] registers under [weight] and [bias]. *)
Definition Linear_shapes (weight bias : string) (inp out : nat) : list (string * list nat) :=
  [(weight, [out; inp]); (bias, [out])].

(** [QNetwork.__init__]: the names and shapes of the critic's parameters. *)
Definition QNetwork_shapes (obs_shape act_shape : list nat) : list (string * list nat) :=
  Linear_shapes "fc1.weight" "fc1.bias" (numel obs_shape + numel act_shape) 256
  ++ Linear_shapes "fc2.weight" "fc2.bias" 256 256
  ++ Linear_shapes "fc3.weight" "fc3.bias" 256 1.

(** [QNetwork.forward] run with the parameters [params]
    ([functional_call(qf1, (params,), (x, a))]). *)
Definition QNetwork_forward {S} `{Scalar S} (params : state_dict S) (x a : tensor S) : tensor S :=
  let x := cat1 x a in
  let x := tmap srelu (linear (param params "fc1.weight") (param params "fc1.bias") x) in
  let x := tmap srelu (linear (param params "fc2.weight") (param params "fc2.bias") x) in
  let x := linear (param params "fc3.weight") (param params "fc3.bias") x in
  x.

(** [Actor.forward]; [tanh] is taken as given. *)
Definition Actor_forward (tanh : Q -> Q) (action_scale action_bias : tensor Q)
  (params : state_dict Q) (x : tensor Q) : option (tensor Q) :=
  let x := tmap Qrelu (linear (param params "fc1.weight") (param params "fc1.bias") x) in
  let x := tmap Qrelu (linear (param params "fc2.weight") (param params "fc2.bias") x) in
  let x := tmap tanh (linear (param params "fc_mu.weight") (param params "fc_mu.bias") x) in
  match tmul x action_scale with
  | Some y => tadd y action_bias
  | None => None
  end.

(** ** Per-sample gradients of the Bellman residual *)

(** A batch of the replay buffer ([ReplayBufferSamples]); every field has the
    batch as its leading dimension. *)
Record Batch : Type := mkBatch {
  observations : tensor Q;
  actions : tensor Q;
  next_observations : tensor Q;
  dones : tensor Q;
  rewards : tensor Q
}.

(** [compute_delta], lines 203-216.  [target_actor] is the frozen target actor
    (called under [torch.no_grad()]); both critic calls run [qf1] with [params]. *)
Definition compute_delta {S} `{Scalar S} (target_actor : tensor Q -> tensor Q) (gamma : Q)
  (params : state_dict S)
  (observations actions rewards next_observations dones : tensor Q) : S :=
  let observations := unsqueeze0 observations in
  let actions := unsqueeze0 actions in
  let rewards := unsqueeze0 rewards in
  let next_observations := unsqueeze0 next_observations in
  let dones := unsqueeze0 dones in
  let next_state_actions := target_actor next_observations in
  let qf1_next_target :=
    QNetwork_forward params (lift next_observations) (lift next_state_actions) in
  let next_q_value :=
    map2 sadd (data (lift (flatten rewards)))
      (map2 smul
         (map (fun d => smul (ssub (sconst 1) d) (sconst gamma)) (data (lift (flatten dones))))
         (data (flatten qf1_next_target))) in
  let qf1_a_values :=
    data (flatten (QNetwork_forward params (lift observations) (lift actions))) in
  let delta_ := map2 ssub next_q_value qf1_a_values in
  let delta := fold_right sadd (sconst 0) delta_ in
  delta.

Definition seed_tensor (t : tensor Q) (k : option nat) : tensor dual :=
  mkTensor (shape t)
    (map2 (fun i q => mkDual q (match k with
                                | Some j => if (i =? j)%nat then 1 else 0
                                | None => 0
                                end))
          (seq 0 (length (data t))) (data t)).

(** The parameters as dual numbers, with tangent 1 at entry [k] of [name]. *)
Definition seed (params : state_dict Q) (name : string) (k : nat) : state_dict dual :=
  map (fun nt => (fst nt, seed_tensor (snd nt) (if String.eqb (fst nt) name then Some k else None)))
      params.

(** The derivative of [f] at [params] along entry [k] of parameter [name]. *)
Definition partial (f : state_dict dual -> dual) (params : state_dict Q)
  (name : string) (k : nat) : Q :=
  tangent (f (seed params name k)).

(** [torch.func.grad(f)(params)]: one tensor per parameter, of its shape. *)
Definition grad (f : state_dict dual -> dual) (params : state_dict Q) : state_dict Q :=
  map (fun nt => (fst nt,
                  mkTensor (shape (snd nt))
                    (map (partial f params (fst nt)) (seq 0 (length (data (snd nt)))))))
      params.

(** [compute_nabla_delta = grad(compute_delta)] *)
Definition compute_nabla_delta (target_actor : tensor Q -> tensor Q) (gamma : Q)
  (params : state_dict Q)
  (observations actions rewards next_observations dones : tensor Q) : state_dict Q :=
  grad (fun p => compute_delta target_actor gamma p
                   observations actions rewards next_observations dones) params.

(** The slices of a tensor along its leading dimension. *)
Definition unbind0 {A} (t : tensor A) : list (tensor A) :=
  match shape t with
  | n :: s => map (mkTensor s) (chunks (numel s) n (data t))
  | [] => []
  end.

Definition stack0 {A} (s : list nat) (ts : list (tensor A)) : tensor A :=
  mkTensor (length ts :: s) (concat (map data ts)).

(** The samples of a batch, one tuple of slices per transition. *)
Definition samples (b : Batch)
  : list (tensor Q * tensor Q * tensor Q * tensor Q * tensor Q) :=
  combine (combine (combine (combine (unbind0 (observations b)) (unbind0 (actions b)))
                            (unbind0 (rewards b)))
                   (unbind0 (next_observations b)))
          (unbind0 (dones b)).

(** [compute_sample_nabla_delta = vmap(compute_nabla_delta, in_dims=(None, 0, 0, 0, 0, 0))]:
    the gradient of every sample, stacked per parameter name. *)
Definition compute_sample_nabla_delta (target_actor : tensor Q -> tensor Q) (gamma : Q)
  (params : state_dict Q) (b : Batch) : state_dict Q :=
  let per_sample :=
    map (fun s => match s with
                  | (o, a, r, no, d) => compute_nabla_delta target_actor gamma params o a r no d
                  end) (samples b) in
  map (fun nt => (fst nt, stack0 (shape (snd nt)) (map (fun g => param g (fst nt)) per_sample)))
      params.

(** The critic loss of the training loop, lines 262-268: [F.mse_loss] of the
    critic's values against [next_q_value], both computed by [qf1]. *)
Definition qf1_loss {S} `{Scalar S} (target_actor : tensor Q -> tensor Q) (gamma : Q)
  (params : state_dict S) (b : Batch) : S :=
  let next_state_actions := target_actor (next_observations b) in
  let qf1_next_target :=
    QNetwork_forward params (lift (next_observations b)) (lift next_state_actions) in
  let next_q_value :=
    map2 sadd (data (lift (flatten (rewards b))))
      (map2 smul
         (map (fun d => smul (ssub (sconst 1) d) (sconst gamma)) (data (lift (flatten (dones b)))))
         (data (flatten qf1_next_target))) in
  let qf1_a_values :=
    data (flatten (QNetwork_forward params (lift (observations b)) (lift (actions b)))) in
  let diff := map2 ssub qf1_a_values next_q_value in
  smul (sconst (rdiv 1 (inject_Z (Z.of_nat (length diff)))))
       (fold_right sadd (sconst 0) (map (fun d => smul d d) diff)).

(** ** Optimizers *)

Definition bind {A B} (x : option A) (k : A -> option B) : option B :=
  match x with
  | Some a => k a
  | None => None
  end.

Notation "'do' x <- e ; k" := (bind e (fun x => k))
  (at level 10, x pattern, e at level 100, k at level 200).

(** A [torch.optim.Optimizer] over a list of parameter tensors: [opt_step] is
    [optimizer.step()], reading each parameter's [.grad] ([None] when unset) and
    updating the parameters in place, so that their shapes are kept. *)
Record Optimizer : Type := mkOptimizer {
  opt_state : Type;
  opt_step : opt_state -> list (tensor Q) -> list (option (tensor Q))
             -> opt_state * list (tensor Q);
  opt_step_shapes : forall st ps gs, map shape (snd (opt_step st ps gs)) = map shape ps
}.

(** A rational square root: exact on the rationals whose numerator and
    denominator are perfect squares. *)
Definition Qsqrt (q : Q) : Q := Z.sqrt (Qnum q) # Pos.sqrt (Qden q).

(** One parameter of [torch.optim.RMSprop] with its defaults ([alpha = 0.99],
    [eps = 1e-8], no momentum, not centered): the running average of the squared
    gradient [sq] and the parameter data [p] after a step with gradient [g]. *)
Definition rmsprop_param (lr : Q) (sq p g : list Q) : list Q * list Q :=
  let alpha := 99 # 100 in
  let eps := 1 # 100000000 in
  let sq' := map2 (fun s gi => radd (rmul alpha s) (rmul (rsub 1 alpha) (rmul gi gi))) sq g in
  let avg := map (fun s => radd (Qsqrt s) eps) sq' in
  (sq', map2 (fun pi ga => rsub pi (rmul lr (rdiv (fst ga) (snd ga)))) p (combine g avg)).

Fixpoint rmsprop_step (lr : Q) (st : list (list Q)) (ps : list (tensor Q))
  (gs : list (option (tensor Q))) {struct ps} : list (list Q) * list (tensor Q) :=
  match ps with
  | [] => (st, [])
  | p :: ps' =>
      let sq := match st with
                | s :: _ => s
                | [] => repeat 0 (length (data p))
                end in
      let r := rmsprop_step lr (tl st) ps' (tl gs) in
      match gs with
      | Some g :: _ =>
          let u := rmsprop_param lr sq (data p) (data g) in
          (fst u :: fst r, mkTensor (shape p) (snd u) :: snd r)
      | _ => (sq :: fst r, p :: snd r)
      end
  end.

(** ** The momentum accumulator (lines 278-327) *)

Definition lambda_val : Q := 999 # 1000.
Definition beta : Q := 1 # 1000.

(** Line 285: [m.data = lambda_val*m.data + beta*p.grad] *)
Definition momentum_ema (m g : tensor Q) : option (tensor Q) :=
  tadd (tscale lambda_val m) (tscale beta g).

(** Lines 284-285, over [zip(m_qf1.parameters(), qf1.parameters())]; [gs] are the
    critic's [.grad] after [qf1_loss.backward()]. *)
Fixpoint ema_loop (ms gs : list (tensor Q)) : option (list (tensor Q)) :=
  match ms, gs with
  | m :: ms', g :: gs' =>
      do m' <- momentum_ema m g;
      do r <- ema_loop ms' gs';
      Some (m' :: r)
  | _, _ => Some ms
  end.

(** One pass of the loop of lines 295-304. *)
Definition projection_step (batch_size : nat) (gs : state_dict Q)
  (m_nabla_delta : tensor Q) (name : string) (m : tensor Q) : option (tensor Q) :=
  do nabla_deltas <- lookup name gs;
  let m_ := unsqueeze0 m in
  do prod <- tmul m_ nabla_deltas;
  do flat <- reshape prod [Some batch_size; None];
  do s <- sum1 flat;
  iadd m_nabla_delta s.

(** Lines 294-304: [m_nabla_delta], the projection of every sample's gradient on
    the momentum, summed over all parameters. *)
Fixpoint projection_loop (batch_size : nat) (gs : state_dict Q)
  (m_nabla_delta : tensor Q) (ms ps : state_dict Q) : option (tensor Q) :=
  match ms, ps with
  | m :: ms', p :: ps' =>
      do acc <- projection_step batch_size gs m_nabla_delta (fst p) (snd m);
      projection_loop batch_size gs acc ms' ps'
  | _, _ => Some m_nabla_delta
  end.

(** Lines 313-316: the branch on [len(p.shape)].  In any other case
    [m_nabla_delta_] keeps the value [stale] of an earlier pass, and the name is
    unbound ([None]) when there was none. *)
Definition scaling (stale : option (tensor Q)) (p m_nabla_delta : tensor Q)
  : option (tensor Q) :=
  if (rank p =? 2)%nat then reshape m_nabla_delta [None; Some 1%nat; Some 1%nat]
  else if (rank p =? 1)%nat then reshape m_nabla_delta [None; Some 1%nat]
  else stale.

(** Line 318: [torch.mul(m_nabla_delta_, nabla_deltas).mean(0)] *)
Definition reshaped_gradient (m_nabla_delta_ nabla_deltas : tensor Q) : option (tensor Q) :=
  do prod <- tmul m_nabla_delta_ nabla_deltas;
  mean0 prod.

(** Lines 306-321: the tensors assigned to [m.grad], in order, and the last
    value of [m_nabla_delta_]. *)
Fixpoint reshaping_loop (gs : state_dict Q) (m_nabla_delta : tensor Q)
  (stale : option (tensor Q)) (ms ps : state_dict Q)
  : option (list (tensor Q) * option (tensor Q)) :=
  match ms, ps with
  | m :: ms', p :: ps' =>
      do nabla_deltas <- lookup (fst p) gs;
      do m_nabla_delta_ <- scaling stale (snd p) m_nabla_delta;
      do m_nabla_delta_nabla_delta <- reshaped_gradient m_nabla_delta_ nabla_deltas;
      do r <- reshaping_loop gs m_nabla_delta (Some m_nabla_delta_) ms' ps';
      Some (m_nabla_delta_nabla_delta :: fst r, snd r)
  | _, _ => Some ([], stale)
  end.

(** [.grad] of every parameter of a list of [n], set for the first ones. *)
Definition grads_of (n : nat) (set : list (tensor Q)) : list (option (tensor Q)) :=
  map Some (firstn n set) ++ repeat None (n - length set).

(** What the block leaves behind. *)
Record RanResult (M_optimizer : Optimizer) : Type := mkRanResult {
  ran_m_qf1 : state_dict Q;
  ran_M_state : opt_state M_optimizer;
  ran_p_grad : list (option (tensor Q));
  ran_m_grad : list (option (tensor Q));
  ran_stale : option (tensor Q)
}.
Arguments mkRanResult {M_optimizer} _ _ _ _ _.
Arguments ran_m_qf1 {M_optimizer} _.
Arguments ran_M_state {M_optimizer} _.
Arguments ran_p_grad {M_optimizer} _.
Arguments ran_m_grad {M_optimizer} _.
Arguments ran_stale {M_optimizer} _.

(** Lines 278-327 without the call of [compute_sample_nabla_delta]: [p_grad] is
    the critic's [.grad] left by [qf1_loss.backward()] and [gs] the per-sample
    gradients.  The result holds [m_qf1] after [M_optimizer.step()] and the
    [.grad] of the critic's parameters as [q_optimizer.step()] will read them. *)
Definition ran_additions (M_optimizer : Optimizer) (batch_size : nat)
  (m_qf1 qf1 : state_dict Q) (M_state : opt_state M_optimizer)
  (p_grad : list (tensor Q)) (gs : state_dict Q) (stale : option (tensor Q))
  : option (RanResult M_optimizer) :=
  do ms <- ema_loop (parameters m_qf1) p_grad;
  let m_qf1 := with_parameters m_qf1 ms in
  do m_nabla_delta <- projection_loop batch_size gs (zeros [batch_size]) m_qf1 qf1;
  do r <- reshaping_loop gs m_nabla_delta stale m_qf1 qf1;
  let m_grad := grads_of (length m_qf1) (fst r) in
  let stepped := opt_step M_optimizer M_state (parameters m_qf1) m_grad in
  let m_qf1 := with_parameters m_qf1 (snd stepped) in
  let p_grad := grads_of (length qf1) (parameters m_qf1) in
  Some (mkRanResult m_qf1 (fst stepped) p_grad m_grad (snd r)).

(** Lines 294-321: the tensors assigned to [m.grad] from the momentum [m_qf1]
    and the per-sample gradients [gs]. *)
Definition reshape_gradients (batch_size : nat) (gs : state_dict Q)
  (stale : option (tensor Q)) (m_qf1 qf1 : state_dict Q)
  : option (list (tensor Q) * option (tensor Q)) :=
  do m_nabla_delta <- projection_loop batch_size gs (zeros [batch_size]) m_qf1 qf1;
  reshaping_loop gs m_nabla_delta stale m_qf1 qf1.

(** ** Target networks *)

(** [dst.copy_(src)] *)
Definition copy_ (dst src : tensor Q) : option (tensor Q) :=
  do s <- broadcast_shapes (shape src) (shape dst);
  if shape_eqb s (shape dst) then Some (expand src (shape dst)) else None.

(** Lines 344 and 346:
    [target_param.data.copy_(args.tau * param.data + (1 - args.tau) * target_param.data)] *)
Definition soft_update (tau : Q) (param target_param : tensor Q) : option (tensor Q) :=
  do mixed <- tadd (tscale tau param) (tscale (rsub 1 tau) target_param);
  copy_ target_param mixed.

(** Lines 343-346, over [zip(net.parameters(), target.parameters())] *)
Fixpoint soft_update_loop (tau : Q) (ps ts : list (tensor Q)) : option (list (tensor Q)) :=
  match ps, ts with
  | p :: ps', t :: ts' =>
      do t' <- soft_update tau p t;
      do r <- soft_update_loop tau ps' ts';
      Some (t' :: r)
  | _, _ => Some ts
  end.

(** ** float32

    The tensors of the script hold IEEE 754 binary32 numbers and Python's
    floats are binary64.  [round_binary prec q] is the number with [prec]
    significant bits nearest to [q], ties to the even significand (the default
    rounding); overflow and subnormal numbers are left out. *)

Definition round_half_even (q : Q) : Z :=
  let f := Qfloor q in
  match Qcompare (q - inject_Z f) (1 # 2) with
  | Lt => f
  | Gt => (f + 1)%Z
  | Eq => if Z.even f then f else (f + 1)%Z
  end.

(** The exponent [e] with [2^e <= a < 2^(e+1)], for [a > 0]. *)
Definition binade (a : Q) : Z :=
  let e := (Z.log2 (Qnum a) - Z.log2 (Zpos (Qden a)))%Z in
  if Qle_bool (2 ^ e) a then e else (e - 1)%Z.

Definition round_binary (prec : Z) (q : Q) : Q :=
  if Qeq_bool q 0 then 0
  else let ulp := 2 ^ (binade (Qabs q) - prec + 1) in
       Qred (inject_Z (round_half_even (q / ulp)) * ulp).

Definition fl32 : Q -> Q := round_binary 24.
Definition fl64 : Q -> Q := round_binary 53.

(** [c * t] for a Python float [c] and a float32 tensor [t]: the scalar is cast
    to float32 and every product is rounded. *)
Definition tscale_f32 (c : Q) (t : tensor Q) : tensor Q :=
  mkTensor (shape t) (map (fun x => fl32 (fl32 c * x)) (data t)).

(** [a + b] of float32 tensors *)
Definition tadd_f32 : tensor Q -> tensor Q -> option (tensor Q) :=
  broadcast2 (fun x y => fl32 (x + y)).

(** Lines 344 and 346 in float32; [tau] is the decimal value of [--tau], read
    by Python as a binary64 float, and [1 - args.tau] is a binary64
    subtraction. *)
Definition soft_update_f32 (tau : Q) (param target_param : tensor Q) : option (tensor Q) :=
  let tau64 := fl64 tau in
  do mixed <- tadd_f32 (tscale_f32 tau64 param) (tscale_f32 (fl64 (1 - tau64)) target_param);
  copy_ target_param mixed.

(** ** The training loop *)

Record Args : Type := mkArgs {
  gamma : Q;
  tau : Q;
  batch_size : nat;
  exploration_noise : Q;
  learning_starts : Z;
  policy_frequency : Z;
  learning_rate : Q;
  total_timesteps : Z
}.

(** What [envs.step(actions)] returns; an info holds the terminal observation
    when it has that key. *)
Record StepResult : Type := mkStepResult {
  next_obs : tensor Q;
  step_rewards : tensor Q;
  step_dones : list bool;
  infos : list (option (tensor Q))
}.

(** The arguments of [rb.add]. *)
Record RbEntry : Type := mkRbEntry {
  rb_obs : tensor Q;
  rb_next_obs : tensor Q;
  rb_actions : tensor Q;
  rb_rewards : tensor Q;
  rb_dones : list bool;
  rb_infos : list (option (tensor Q))
}.

(** Lines 250-252: the rows of [real_next_obs], the terminal observation put
    in wherever the environment is done. *)
Fixpoint patch_rows (rows : list (list Q)) (ds : list bool)
  (infs : list (option (tensor Q))) : option (list (list Q)) :=
  match ds with
  | [] => Some rows
  | d :: ds' =>
      do rest <- patch_rows (tl rows) ds' (tl infs);
      if d then
        match rows, infs with
        | _ :: _, Some t :: _ => Some (data t :: rest)
        | _, _ => None
        end
      else Some (firstn 1 rows ++ rest)
  end.

(** Lines 249-252 *)
Definition real_next_obs (r : StepResult) : option (tensor Q) :=
  match shape (next_obs r) with
  | n :: s =>
      do rows <- patch_rows (chunks (numel s) n (data (next_obs r))) (step_dones r) (infos r);
      Some (mkTensor (n :: s) (concat rows))
  | [] =>
      match step_dones r with
      | [] => Some (next_obs r)
      | _ :: _ => None
      end
  end.

(** [a.clip(low, high)] of numpy *)
Definition clip (a low high : tensor Q) : option (tensor Q) :=
  do x <- broadcast2 Qmax a low;
  broadcast2 Qmin x high.

(** [QNetwork(envs)]: a critic with the entries [values name] in the parameter
    [name]. *)
Definition QNetwork_init (values : string -> list Q) (obs_shape act_shape : list nat)
  : state_dict Q :=
  map (fun ns => (fst ns, mkTensor (snd ns) (values (fst ns))))
      (QNetwork_shapes obs_shape act_shape).

(** A call that raises inside a traced function is read as the empty tensor. *)
Definition frozen (f : tensor Q -> option (tensor Q)) (x : tensor Q) : tensor Q :=
  match f x with
  | Some y => y
  | None => mkTensor [] []
  end.

(** * Properties *)

(** ** Arithmetic in lowest terms *)

Lemma radd_correct a b : radd a b == a + b.
Proof. apply Qred_correct. Qed.

Lemma rsub_correct a b : rsub a b == a - b.
Proof. apply Qred_correct. Qed.

Lemma rmul_correct a b : rmul a b == a * b.
Proof. apply Qred_correct. Qed.

Lemma rdiv_correct a b : rdiv a b == a / b.
Proof. apply Qred_correct. Qed.

#[export] Instance radd_proper : Proper (Qeq ==> Qeq ==> Qeq) radd.
Proof. intros a a' Ha b b' Hb. rewrite !radd_correct, Ha, Hb. reflexivity. Qed.

#[export] Instance rsub_proper : Proper (Qeq ==> Qeq ==> Qeq) rsub.
Proof. intros a a' Ha b b' Hb. rewrite !rsub_correct, Ha, Hb. reflexivity. Qed.

#[export] Instance rmul_proper : Proper (Qeq ==> Qeq ==> Qeq) rmul.
Proof. intros a a' Ha b b' Hb. rewrite !rmul_correct, Ha, Hb. reflexivity. Qed.

Lemma Qred_zero q : q == 0 -> Qred q = 0.
Proof. intros H. apply (Qred_complete q 0) in H. exact H. Qed.

Lemma rmul_0_l a : rmul 0 a = 0.
Proof. apply Qred_zero. ring. Qed.

Lemma rmul_0_r a : rmul a 0 = 0.
Proof. apply Qred_zero. ring. Qed.

Lemma radd_0_0 : radd 0 0 = 0.
Proof. reflexivity. Qed.

Ltac rnorm := rewrite ?radd_correct, ?rsub_correct, ?rmul_correct, ?rdiv_correct.

(** ** Lists and blocks *)

Lemma map2_length {A B C} (f : A -> B -> C) l1 l2 :
  length l1 = length l2 -> length (map2 f l1 l2) = length l1.
Proof.
  intros H. unfold map2. rewrite length_map, length_combine, H. apply Nat.min_id.
Qed.

Lemma map2_cons {A B C} (f : A -> B -> C) x l1 y l2 :
  map2 f (x :: l1) (y :: l2) = f x y :: map2 f l1 l2.
Proof. reflexivity. Qed.

Lemma nth_map2_Qeq (f g : Q -> Q -> Q) :
  (forall x y, f x y == g x y) -> g 0 0 == 0 ->
  forall l1 l2, length l1 = length l2 ->
  forall i, nth i (map2 f l1 l2) 0 == g (nth i l1 0) (nth i l2 0).
Proof.
  intros Hfg Hg l1. induction l1 as [|x l1 IH]; intros [|y l2] Hlen i; try discriminate.
  - destruct i; simpl; symmetry; exact Hg.
  - rewrite map2_cons. destruct i as [|i]; simpl.
    + apply Hfg.
    + apply IH. simpl in Hlen. lia.
Qed.

Lemma chunks_length {A} k n (l : list A) : length (chunks k n l) = n.
Proof. revert l. induction n as [|n IH]; intros l; simpl; [reflexivity|]. now rewrite IH. Qed.

Lemma chunks_each {A} k n (l : list A) :
  length l = (n * k)%nat -> Forall (fun c => length c = k) (chunks k n l).
Proof.
  revert l. induction n as [|n IH]; intros l H; simpl; constructor.
  - rewrite length_firstn. simpl in H. lia.
  - apply IH. rewrite length_skipn. simpl in H. lia.
Qed.

Lemma concat_chunks {A} k n (l : list A) :
  length l = (n * k)%nat -> concat (chunks k n l) = l.
Proof.
  revert l. induction n as [|n IH]; intros l H; simpl.
  - simpl in H. destruct l; [reflexivity | discriminate].
  - rewrite IH.
    + apply firstn_skipn.
    + rewrite length_skipn. simpl in H. lia.
Qed.

(** ** Broadcasting of equal shapes *)

Lemma broadcast_rev_refl a : broadcast_rev a a = Some a.
Proof.
  induction a as [|x a IH]; simpl; [reflexivity|].
  rewrite Nat.eqb_refl, IH. reflexivity.
Qed.

Lemma broadcast_shapes_refl s : broadcast_shapes s s = Some s.
Proof.
  unfold broadcast_shapes. rewrite broadcast_rev_refl. simpl. now rewrite rev_involutive.
Qed.

Lemma pad_shape_same s : pad_shape (length s) s = s.
Proof. unfold pad_shape. now rewrite Nat.sub_diag. Qed.

Lemma expand_data_id {A} s : forall d : list A,
  length d = numel s -> expand_data s s d = d.
Proof.
  induction s as [|n s IH]; intros d H; simpl; [reflexivity|].
  rewrite Nat.eqb_refl.
  assert (Hd : length d = (n * numel s)%nat) by exact H.
  rewrite (map_ext_in _ (fun c => c)).
  - rewrite map_id. now apply concat_chunks.
  - intros c Hc. apply IH.
    pose proof (chunks_each (numel s) n d Hd) as HF.
    rewrite Forall_forall in HF. now apply HF.
Qed.

Lemma expand_same {A} (t : tensor A) :
  well_formed t -> data (expand t (shape t)) = data t.
Proof.
  intros H. unfold expand. simpl. rewrite pad_shape_same. now apply expand_data_id.
Qed.

Lemma shape_eqb_refl s : shape_eqb s s = true.
Proof. induction s as [|x s IH]; simpl; [reflexivity|]. now rewrite Nat.eqb_refl. Qed.

Lemma broadcast2_same {A B C} (f : A -> B -> C) (a : tensor A) (b : tensor B) :
  shape a = shape b -> well_formed a -> well_formed b ->
  broadcast2 f a b = Some (mkTensor (shape a) (map2 f (data a) (data b))).
Proof.
  intros Hs Ha Hb. unfold broadcast2. rewrite <- Hs, broadcast_shapes_refl.
  rewrite expand_same by assumption.
  rewrite Hs, expand_same by assumption. reflexivity.
Qed.

Lemma tscale_well_formed c t : well_formed t -> well_formed (tscale c t).
Proof. unfold well_formed, tscale. simpl. now rewrite length_map. Qed.

(** ** Target-network smoothing *)

Lemma soft_update_same tau p t :
  well_formed p -> well_formed t -> shape p = shape t ->
  soft_update tau p t =
  Some (mkTensor (shape t)
          (map2 radd (map (rmul tau) (data p)) (map (rmul (rsub 1 tau)) (data t)))).
Proof.
  intros Hp Ht Hs. unfold soft_update, tadd.
  rewrite broadcast2_same; auto using tscale_well_formed.
  simpl. unfold copy_. simpl. rewrite Hs, broadcast_shapes_refl. simpl.
  rewrite shape_eqb_refl. f_equal.
  unfold expand. simpl. rewrite pad_shape_same, expand_data_id; [reflexivity|].
  rewrite map2_length; rewrite !length_map; unfold well_formed in *; congruence.
Qed.

Lemma nth_map2 {A B C} (f : A -> B -> C) (da : A) (db : B) (dc : C) :
  forall l1 l2 i, (i < length l1)%nat -> (i < length l2)%nat ->
  nth i (map2 f l1 l2) dc = f (nth i l1 da) (nth i l2 db).
Proof.
  induction l1 as [|x l1 IH]; intros [|y l2] i H1 H2; cbn [length] in *; try lia.
  rewrite map2_cons. destruct i as [|i]; [reflexivity|]. cbn [nth]. apply IH; lia.
Qed.

(** In exact arithmetic one smoothing step replaces every entry of the target by
    [tau * live + (1 - tau) * target]; with live value 5.0, target value 0.0 and
    [tau = 0.005] that is 0.025. *)
Lemma soft_update_exact :
  (forall tau p t, well_formed p -> well_formed t -> shape p = shape t ->
     exists t', soft_update tau p t = Some t' /\ shape t' = shape t /\
                length (data t') = length (data t) /\
                forall i, nth i (data t') 0
                          == tau * nth i (data p) 0 + (1 - tau) * nth i (data t) 0)
  /\ exists x, soft_update 0.005 (mkTensor [1%nat] [5.0]) (mkTensor [1%nat] [0.0])
               = Some (mkTensor [1%nat] [x]) /\ x == 0.025.
Proof.
  split.
  - intros tau p t Hp Ht Hs. rewrite soft_update_same by assumption.
    eexists. split; [reflexivity|]. simpl. split; [reflexivity|]. split.
    + rewrite map2_length; rewrite !length_map; unfold well_formed in *; congruence.
    + intros i.
      rewrite (nth_map2_Qeq radd Qplus radd_correct) by
        (try reflexivity; rewrite !length_map; unfold well_formed in *; congruence).
      assert (Hn : forall c l, nth i (map (rmul c) l) 0 == c * nth i l 0).
      { intros c l. revert i. induction l as [|y l IH]; intros [|i]; simpl;
          try (ring_simplify; reflexivity); [apply rmul_correct | apply IH]. }
      rewrite !Hn, rsub_correct. reflexivity.
  - exists (1 # 40). split; reflexivity.
Qed.

Lemma soft_update_f32_same tau p t :
  well_formed p -> well_formed t -> shape p = shape t ->
  soft_update_f32 tau p t =
  Some (mkTensor (shape t)
          (map2 (fun x y => fl32 (x + y))
             (map (fun x => fl32 (fl32 (fl64 tau) * x)) (data p))
             (map (fun x => fl32 (fl32 (fl64 (1 - fl64 tau)) * x)) (data t)))).
Proof.
  intros Hp Ht Hs. unfold soft_update_f32, tadd_f32. cbv zeta.
  rewrite broadcast2_same;
    [| exact Hs | unfold well_formed, tscale_f32; cbn [data shape]; now rewrite length_map
     | unfold well_formed, tscale_f32; cbn [data shape]; now rewrite length_map].
  cbn [bind tscale_f32 shape data]. unfold copy_. cbn [shape]. rewrite Hs, broadcast_shapes_refl.
  cbn [bind]. rewrite shape_eqb_refl. f_equal.
  unfold expand. cbn [shape data]. rewrite pad_shape_same, expand_data_id; [reflexivity|].
  rewrite map2_length; rewrite !length_map; unfold well_formed in *; congruence.
Qed.

(** C9, as stated, fails: with live value 5.0, target value 0.0 and
    [tau = 0.005] the float32 product [fl32(0.005) * 5.0] is a tie that rounds
    to [13421772 * 2^-29 = 3355443 * 2^-27], which is not 0.025. *)
Lemma soft_update_is_rounded :
  option_map (fun t => (data t, Qeq_bool (nth 0 (data t) 0) 0.025))
    (soft_update_f32 0.005 (mkTensor [1%nat] [5.0]) (mkTensor [1%nat] [0.0]))
  = Some ([3355443 # 134217728], false).
Proof. vm_compute. reflexivity. Qed.

(** C9 (amended).  One smoothing step replaces every entry of the target by
    the float32 value of [tau * live + (1 - tau) * target], every product and
    the sum being rounded.  With live value 5.0, target value 0.0 and
    [tau = 0.005] the new target is [13421772 * 2^-29], one unit in the last
    place below [13421773 * 2^-29], the float32 number nearest to 0.025; it is
    0.025 in exact arithmetic only. *)
Theorem soft_update_smoothing :
  (forall tau p t, well_formed p -> well_formed t -> shape p = shape t ->
     exists t', soft_update_f32 tau p t = Some t' /\ shape t' = shape t /\
                length (data t') = length (data t) /\
                forall i, (i < length (data t))%nat ->
                  nth i (data t') 0
                  = fl32 (fl32 (fl32 (fl64 tau) * nth i (data p) 0)
                          + fl32 (fl32 (fl64 (1 - fl64 tau)) * nth i (data t) 0)))
  /\ (exists x, soft_update_f32 0.005 (mkTensor [1%nat] [5.0]) (mkTensor [1%nat] [0.0])
                = Some (mkTensor [1%nat] [x]) /\
                x == 13421772 # 536870912 /\
                fl32 0.025 == 13421773 # 536870912 /\
                0.025 - x == 1 # 671088640)
  /\ (exists x, soft_update 0.005 (mkTensor [1%nat] [5.0]) (mkTensor [1%nat] [0.0])
                = Some (mkTensor [1%nat] [x]) /\ x == 0.025).
Proof.
  split; [|split].
  - intros tau p t Hp Ht Hs. rewrite soft_update_f32_same by assumption.
    assert (Hl : length (data p) = length (data t))
      by (unfold well_formed in *; congruence).
    eexists. split; [reflexivity|]. cbn [shape data]. split; [reflexivity|]. split.
    + rewrite map2_length; rewrite !length_map; congruence.
    + intros i Hi.
      rewrite (nth_map2 (fun x y => fl32 (x + y)) 0 0 0)
        by (rewrite length_map; congruence).
      rewrite (nth_indep _ 0 (fl32 (fl32 (fl64 tau) * 0))) by (rewrite length_map; congruence).
      rewrite (map_nth (fun x => fl32 (fl32 (fl64 tau) * x)) (data p) 0 i).
      rewrite (nth_indep (map _ (data t)) 0 (fl32 (fl32 (fl64 (1 - fl64 tau)) * 0)))
        by (now rewrite length_map).
      rewrite (map_nth (fun x => fl32 (fl32 (fl64 (1 - fl64 tau)) * x)) (data t) 0 i).
      reflexivity.
  - exists (3355443 # 134217728). split; [vm_compute; reflexivity|].
    split; [reflexivity|]. split; vm_compute; reflexivity.
  - exact (proj2 soft_update_exact).
Qed.

(** ** The exponential moving average of line 285 *)

Lemma momentum_ema_same m g :
  well_formed m -> well_formed g -> shape m = shape g ->
  momentum_ema m g =
  Some (mkTensor (shape m)
          (map2 radd (map (rmul lambda_val) (data m)) (map (rmul beta) (data g)))).
Proof.
  intros Hm Hg Hs. unfold momentum_ema, tadd.
  rewrite broadcast2_same; auto using tscale_well_formed.
Qed.

(** The entry of the momentum after [n] steps fed the same gradient entry [x]. *)
Fixpoint ema_entry (n : nat) (x : Q) : Q :=
  match n with
  | O => 0
  | S k => radd (rmul lambda_val (ema_entry k x)) (rmul beta x)
  end.

(** [n] momentum updates of line 285 fed the same gradient [g]. *)
Fixpoint ema_run (n : nat) (m g : tensor Q) : option (tensor Q) :=
  match n with
  | O => Some m
  | S k => do m' <- ema_run k m g; momentum_ema m' g
  end.

(** The fixed point [g * beta / (1 - lambda)] of the average. *)
Definition ema_limit (x : Q) : Q := x * beta / (1 - lambda_val).

Fixpoint lambda_pow (n : nat) : Q :=
  match n with
  | O => 1
  | S k => lambda_val * lambda_pow k
  end.

Lemma ema_limit_eq x : ema_limit x == x.
Proof. unfold ema_limit, beta, lambda_val. field. Qed.

Lemma ema_entry_closed n x : ema_entry n x == x * (1 - lambda_pow n).
Proof.
  induction n as [|n IH]; simpl.
  - ring.
  - rewrite radd_correct, !rmul_correct, IH. unfold lambda_val, beta. ring.
Qed.

Lemma lambda_pow_pos n : 0 < lambda_pow n.
Proof.
  induction n as [|n IH]; simpl; [reflexivity|].
  unfold lambda_val. apply Qmult_lt_0_compat; [reflexivity | exact IH].
Qed.

Lemma lambda_pow_le_1 n : lambda_pow n <= 1.
Proof.
  induction n as [|n IH]; simpl; [apply Qle_refl|].
  pose proof (lambda_pow_pos n). unfold lambda_val. lra.
Qed.

Lemma lambda_pow_step n : lambda_pow (S n) <= lambda_pow n.
Proof. simpl. pose proof (lambda_pow_pos n). unfold lambda_val. lra. Qed.

Lemma lambda_pow_bound n : lambda_pow n * (999 + inject_Z (Z.of_nat n)) <= 999.
Proof.
  induction n as [|n IH].
  - change (1 * (999 + 0) <= 999). lra.
  - pose proof (lambda_pow_pos n) as Hp. pose proof (lambda_pow_le_1 n) as H1.
    rewrite Nat2Z.inj_succ, <- Z.add_1_r, inject_Z_plus.
    change (lambda_pow (S n)) with (lambda_val * lambda_pow n). unfold lambda_val.
    set (a := lambda_pow n) in *. set (k := inject_Z (Z.of_nat n)) in *.
    assert (Hk : 0 <= k).
    { unfold k. change 0 with (inject_Z 0). rewrite <- Zle_Qle. lia. }
    change (inject_Z 1) with 1.
    assert (Hak : 0 <= a * k) by (apply Qmult_le_0_compat; lra).
    lra.
Qed.

Lemma lambda_pow_vanishes eps :
  0 < eps -> exists N, forall n, (N <= n)%nat -> lambda_pow n < eps.
Proof.
  intros He.
  exists (Z.to_nat (Qceiling (999 / eps))).
  intros n Hn.
  pose proof (lambda_pow_bound n) as Hb. pose proof (lambda_pow_pos n) as Hp.
  pose proof (Qle_ceiling (999 / eps)) as Hc.
  assert (Hq : 0 < 999 / eps).
  { apply Qlt_shift_div_l; [exact He | lra]. }
  assert (Hk : 999 / eps <= inject_Z (Z.of_nat n)).
  { eapply Qle_trans; [exact Hc|]. rewrite <- Zle_Qle. lia. }
  set (k := inject_Z (Z.of_nat n)) in *. set (a := lambda_pow n) in *.
  assert (Hke : 999 <= k * eps).
  { setoid_replace 999 with ((999 / eps) * eps) at 1 by (field; lra).
    apply Qmult_le_compat_r; lra. }
  destruct (Qlt_le_dec a eps) as [Hlt|Hge]; [exact Hlt|]. exfalso. nra.
Qed.

Lemma ema_run_closed g : well_formed g -> forall n,
  ema_run n (zeros (shape g)) g = Some (mkTensor (shape g) (map (ema_entry n) (data g))).
Proof.
  intros Hg. induction n as [|n IH]; simpl.
  - unfold zeros, full. do 2 f_equal. rewrite <- Hg.
    clear. induction (data g) as [|x l IHl]; simpl; [reflexivity | now rewrite IHl].
  - rewrite IH. simpl. rewrite momentum_ema_same; simpl; auto.
    + do 2 f_equal. clear. induction (data g) as [|x l IHl]; simpl; [reflexivity|].
      rewrite map2_cons. now rewrite IHl.
    + unfold well_formed. simpl. now rewrite length_map.
Qed.

Lemma nth_map_ema n l i : nth i (map (ema_entry n) l) 0 == ema_entry n (nth i l 0).
Proof.
  revert i. induction l as [|x l IH]; intros [|i]; simpl; try reflexivity; try apply IH;
    rewrite ema_entry_closed; ring.
Qed.

(** C7 (amended).  In exact arithmetic the update of line 285 taken alone,
    without the [M_optimizer.step()] of line 324, and fed the same gradient [g]
    at every step from [M = 0], moves every entry monotonically towards
    [g * beta / (1 - lambda) = g] and comes arbitrarily close to it. *)
Theorem ema_converges_monotonically g :
  well_formed g ->
  exists M : nat -> tensor Q,
    (forall n, ema_run n (zeros (shape g)) g = Some (M n)) /\
    forall i,
      let x := nth i (data g) 0 in
      let m := fun n => nth i (data (M n)) 0 in
      (forall n, 0 <= x -> m n <= m (S n) /\ m (S n) <= ema_limit x) /\
      (forall n, x <= 0 -> ema_limit x <= m (S n) /\ m (S n) <= m n) /\
      (forall eps, 0 < eps ->
         exists N, forall n, (N <= n)%nat -> Qabs (m n - ema_limit x) < eps).
Proof.
  intros Hg.
  exists (fun n => mkTensor (shape g) (map (ema_entry n) (data g))).
  split; [intros n; now apply ema_run_closed|].
  intros i x m. subst m. cbn [data].
  assert (Hm : forall n, nth i (map (ema_entry n) (data g)) 0 == x * (1 - lambda_pow n)).
  { intros n. rewrite nth_map_ema. apply ema_entry_closed. }
  split; [|split].
  - intros n Hx. rewrite !Hm, ema_limit_eq.
    pose proof (lambda_pow_step n) as Hs. pose proof (lambda_pow_pos (S n)) as Hp.
    assert (H1 : 0 <= x * (lambda_pow n - lambda_pow (S n))) by (apply Qmult_le_0_compat; lra).
    assert (H2 : 0 <= x * lambda_pow (S n)) by (apply Qmult_le_0_compat; lra).
    split; lra.
  - intros n Hx. rewrite !Hm, ema_limit_eq.
    pose proof (lambda_pow_step n) as Hs. pose proof (lambda_pow_pos (S n)) as Hp.
    assert (H1 : 0 <= (- x) * (lambda_pow n - lambda_pow (S n))) by (apply Qmult_le_0_compat; lra).
    assert (H2 : 0 <= (- x) * lambda_pow (S n)) by (apply Qmult_le_0_compat; lra).
    split; lra.
  - intros eps He.
    destruct (Qeq_dec x 0) as [Hx0|Hx0].
    + exists 0%nat. intros n _. rewrite Hm, ema_limit_eq, Hx0.
      setoid_replace (0 * (1 - lambda_pow n) - 0) with 0 by ring. exact He.
    + assert (Ha : 0 < Qabs x).
      { destruct (Qlt_le_dec 0 (Qabs x)) as [H|H]; [exact H|].
        exfalso. apply Hx0. apply Qabs_Qle_condition in H. lra. }
      destruct (lambda_pow_vanishes (eps / Qabs x)) as [N HN].
      { apply Qlt_shift_div_l; [exact Ha | lra]. }
      exists N. intros n Hn. specialize (HN n Hn).
      rewrite Hm, ema_limit_eq.
      setoid_replace (x * (1 - lambda_pow n) - x) with (- (x * lambda_pow n)) by ring.
      rewrite Qabs_opp, Qabs_Qmult.
      pose proof (lambda_pow_pos n) as Hp.
      rewrite (Qabs_pos (lambda_pow n)) by lra.
      assert (Hlt : lambda_pow n * Qabs x < eps).
      { setoid_replace eps with ((eps / Qabs x) * Qabs x) at 1 by (field; lra).
        apply Qmult_lt_compat_r; assumption. }
      lra.
Qed.

(** ** The rank of the critic's parameters *)

Lemma reshape_data {A} (t r : tensor A) dims : reshape t dims = Some r -> data r = data t.
Proof.
  unfold reshape. destruct (count_inferred dims) as [|[|c]]; try discriminate.
  - destruct (_ =? _)%nat; [|discriminate]. intros [= <-]. reflexivity.
  - destruct (_ =? _)%nat; [discriminate|].
    destruct (_ =? _)%nat; [|discriminate]. intros [= <-]. reflexivity.
Qed.

Lemma reshape_column {A} (t : tensor A) :
  reshape t [None; Some 1%nat] = Some (mkTensor [numel (shape t); 1%nat] (data t)).
Proof.
  unfold reshape. cbn [count_inferred filter length known_numel fold_right Nat.mul Nat.add].
  cbn [Nat.eqb]. rewrite Nat.mod_1_r, Nat.div_1_r. reflexivity.
Qed.

Lemma reshape_column2 {A} (t : tensor A) :
  reshape t [None; Some 1%nat; Some 1%nat]
  = Some (mkTensor [numel (shape t); 1%nat; 1%nat] (data t)).
Proof.
  unfold reshape. cbn [count_inferred filter length known_numel fold_right Nat.mul Nat.add].
  cbn [Nat.eqb]. rewrite Nat.mod_1_r, Nat.div_1_r. reflexivity.
Qed.

(** The scaling tensor of a parameter of rank 1 or 2, whatever [m_nabla_delta_]
    held before. *)
Lemma scaling_ranked stale p m_nabla_delta :
  rank p = 1%nat \/ rank p = 2%nat ->
  exists s, scaling stale p m_nabla_delta = Some (mkTensor s (data m_nabla_delta)) /\
            scaling None p m_nabla_delta = Some (mkTensor s (data m_nabla_delta)).
Proof.
  unfold scaling. intros [H|H]; rewrite H; cbn [Nat.eqb].
  - rewrite reshape_column. eauto.
  - rewrite reshape_column2. eauto.
Qed.

(** C10.  Every parameter of the critic has rank 1 or 2, so the branch of lines
    313-316 always binds [m_nabla_delta_]: the scaling tensor is defined and
    does not depend on a value left by an earlier pass. *)
Theorem critic_ranks_total : forall obs_shape act_shape,
  Forall (fun ns =>
            forall (d : list Q) (stale : option (tensor Q)) (m_nabla_delta : tensor Q),
              let p := mkTensor (snd ns) d in
              (rank p = 1%nat \/ rank p = 2%nat) /\
              exists t, scaling stale p m_nabla_delta = Some t /\
                        scaling None p m_nabla_delta = Some t /\
                        data t = data m_nabla_delta)
         (QNetwork_shapes obs_shape act_shape).
Proof.
  intros obs_shape act_shape. unfold QNetwork_shapes, Linear_shapes.
  cbn [app]. repeat apply Forall_cons; try apply Forall_nil;
    intros d stale m;
    match goal with |- context [rank ?t] => set (p := t) end;
    (assert (Hr : rank p = 1%nat \/ rank p = 2%nat) by (unfold rank; cbn; auto));
    (split; [exact Hr|]);
    destruct (scaling_ranked stale p m Hr) as (s & H1 & H2);
    eexists; repeat split; eauto.
Qed.

(** ** Zero momentum gives a zero reshaped gradient *)

Lemma firstn_Forall {A} (P : A -> Prop) k : forall l : list A,
  Forall P l -> Forall P (firstn k l).
Proof.
  induction k as [|k IH]; intros l H; simpl; [constructor|].
  destruct H; constructor; auto.
Qed.

Lemma skipn_Forall {A} (P : A -> Prop) k : forall l : list A,
  Forall P l -> Forall P (skipn k l).
Proof.
  induction k as [|k IH]; intros l H; simpl; [exact H|].
  destruct H; [constructor | auto].
Qed.

Lemma chunks_Forall {A} (P : A -> Prop) k n (l : list A) :
  Forall P l -> Forall (Forall P) (chunks k n l).
Proof.
  revert l. induction n as [|n IH]; intros l H; simpl; constructor.
  - now apply firstn_Forall.
  - apply IH. now apply skipn_Forall.
Qed.

Lemma repeat_Forall {A} (P : A -> Prop) x n : P x -> Forall P (repeat x n).
Proof. intros H. induction n; simpl; constructor; auto. Qed.

Lemma expand_data_Forall {A} (P : A -> Prop) s : forall t (d : list A),
  Forall P d -> Forall P (expand_data s t d).
Proof.
  induction s as [|n s IH]; intros [|m t] d H; simpl; auto.
  assert (Hb : Forall (Forall P) (map (expand_data s t) (chunks (numel s) n d))).
  { apply Forall_map. eapply Forall_impl; [|apply chunks_Forall; exact H].
    intros c Hc. now apply IH. }
  destruct (n =? m)%nat.
  - now apply Forall_concat.
  - apply Forall_concat. apply repeat_Forall.
    destruct Hb; simpl; auto.
Qed.

Lemma map2_zero_l l1 l2 : Forall (fun q => q = 0) l1 -> Forall (fun q => q = 0) (map2 rmul l1 l2).
Proof.
  intros H. revert l2. induction H as [|x l1 Hx H IH]; intros [|y l2]; try constructor.
  - subst x. apply rmul_0_l.
  - apply IH.
Qed.

Lemma map2_radd_zero l1 l2 :
  Forall (fun q => q = 0) l1 -> Forall (fun q => q = 0) l2 ->
  Forall (fun q => q = 0) (map2 radd l1 l2).
Proof.
  intros H. revert l2. induction H as [|x l1 Hx H IH]; intros [|y l2] H2; try constructor.
  - inversion H2; subst. reflexivity.
  - apply IH. now inversion H2.
Qed.

Lemma tmul_zero_l a b r : all_zero a -> tmul a b = Some r -> all_zero r.
Proof.
  unfold tmul, broadcast2, all_zero. intros Ha.
  destruct (broadcast_shapes _ _); [|discriminate]. intros [= <-]. simpl.
  apply map2_zero_l. now apply expand_data_Forall.
Qed.

Lemma tadd_zero a b r : all_zero a -> all_zero b -> tadd a b = Some r -> all_zero r.
Proof.
  unfold tadd, broadcast2, all_zero. intros Ha Hb.
  destruct (broadcast_shapes _ _); [|discriminate]. intros [= <-]. simpl.
  apply map2_radd_zero; now apply expand_data_Forall.
Qed.

Lemma iadd_zero a b r : all_zero a -> all_zero b -> iadd a b = Some r -> all_zero r.
Proof.
  unfold iadd. intros Ha Hb. destruct (tadd a b) as [t|] eqn:E; [|discriminate].
  destruct (shape_eqb _ _); [|discriminate]. intros [= <-]. exact (tadd_zero a b t Ha Hb E).
Qed.

Lemma vsum_zero k rows :
  Forall (Forall (fun q => q = 0)) rows -> Forall (fun q => q = 0) (vsum k rows).
Proof.
  unfold vsum. induction 1 as [|r rows Hr H IH]; simpl.
  - now apply repeat_Forall.
  - now apply map2_radd_zero.
Qed.

Lemma sum1_zero t r : all_zero t -> sum1 t = Some r -> all_zero r.
Proof.
  unfold sum1, all_zero. intros Ht. destruct (shape t) as [|n [|k s]]; try discriminate.
  intros [= <-]. simpl. apply Forall_concat, Forall_map.
  eapply Forall_impl; [|apply chunks_Forall; exact Ht].
  intros blk Hb. apply vsum_zero. now apply chunks_Forall.
Qed.

Lemma bind_some {A B} (x : option A) (k : A -> option B) b :
  bind x k = Some b -> exists a, x = Some a /\ k a = Some b.
Proof. destruct x as [a|]; simpl; [eauto | discriminate]. Qed.

Ltac unbind H :=
  let a := fresh "v" in let E := fresh "E" in
  apply bind_some in H; destruct H as (a & E & H).

Lemma projection_step_zero batch_size gs acc name m r :
  all_zero acc -> all_zero m ->
  projection_step batch_size gs acc name m = Some r -> all_zero r.
Proof.
  intros Ha Hm H. unfold projection_step in H.
  unbind H. unbind H. unbind H. unbind H.
  eapply iadd_zero; [exact Ha | | exact H].
  eapply sum1_zero; [|eassumption].
  unfold all_zero. erewrite reshape_data by eassumption.
  eapply tmul_zero_l; [|eassumption]. exact Hm.
Qed.

Lemma QNetwork_ranks obs_shape act_shape (qf1 : state_dict Q) :
  shapes qf1 = QNetwork_shapes obs_shape act_shape ->
  Forall (fun p => rank (snd p) = 1%nat \/ rank (snd p) = 2%nat) qf1.
Proof.
  intros H.
  assert (F : Forall (fun ns : string * list nat => length (snd ns) = 1%nat \/ length (snd ns) = 2%nat)
                (shapes qf1)).
  { rewrite H. unfold QNetwork_shapes, Linear_shapes. cbn [app].
    repeat apply Forall_cons; try apply Forall_nil; cbn; auto. }
  unfold shapes in F. rewrite Forall_map in F. exact F.
Qed.

(** ** The reshaping is defined on the critic's shapes *)

Lemma broadcast_rev_cons x a y b :
  broadcast_rev (x :: a) (y :: b) =
  if (x =? y)%nat then option_map (cons x) (broadcast_rev a b)
  else if (x =? 1)%nat then option_map (cons y) (broadcast_rev a b)
  else if (y =? 1)%nat then option_map (cons x) (broadcast_rev a b)
  else None.
Proof. reflexivity. Qed.

Lemma broadcast_rev_tail a : forall x y,
  broadcast_rev (a ++ [x]) (a ++ [y]) = option_map (app a) (broadcast_rev [x] [y]).
Proof.
  induction a as [|z a IH]; intros x y.
  - cbn [app]. destruct (broadcast_rev [x] [y]); reflexivity.
  - rewrite <- !app_comm_cons, broadcast_rev_cons, Nat.eqb_refl, IH.
    destruct (broadcast_rev [x] [y]); reflexivity.
Qed.

Lemma broadcast_shapes_unsqueezed n s :
  broadcast_shapes (1%nat :: s) (n :: s) = Some (n :: s).
Proof.
  unfold broadcast_shapes. cbn [rev]. rewrite broadcast_rev_tail.
  cbn [broadcast_rev].
  destruct (1 =? n)%nat eqn:E.
  - apply Nat.eqb_eq in E. subst n. cbn. now rewrite rev_app_distr, rev_involutive.
  - cbn. now rewrite rev_app_distr, rev_involutive.
Qed.

Lemma broadcast_rev_ones b : forall n,
  broadcast_rev (repeat 1%nat (length b) ++ [n]) (b ++ [n]) = Some (b ++ [n]).
Proof.
  induction b as [|y b IH]; intros n.
  - cbn. now rewrite Nat.eqb_refl.
  - cbn [length repeat]. rewrite <- !app_comm_cons, broadcast_rev_cons, IH.
    destruct (1 =? y)%nat eqn:E.
    + apply Nat.eqb_eq in E. now subst y.
    + reflexivity.
Qed.

Lemma rev_repeat {A} (x : A) n : rev (repeat x n) = repeat x n.
Proof.
  induction n as [|n IH]; [reflexivity|].
  cbn [repeat rev]. rewrite IH. clear.
  induction n as [|n IH]; [reflexivity|]. cbn. now rewrite IH.
Qed.

Lemma broadcast_shapes_column n s :
  broadcast_shapes (n :: repeat 1%nat (length s)) (n :: s) = Some (n :: s).
Proof.
  unfold broadcast_shapes. cbn [rev]. rewrite rev_repeat.
  rewrite <- (length_rev s), broadcast_rev_ones.
  cbn. now rewrite rev_app_distr, rev_involutive.
Qed.

Lemma tmul_defined a b s :
  broadcast_shapes (shape a) (shape b) = Some s -> exists r, tmul a b = Some r /\ shape r = s.
Proof.
  unfold tmul, broadcast2. intros ->. eexists. split; reflexivity.
Qed.

Lemma reshape_rows {A} (t : tensor A) n s :
  shape t = n :: s -> n <> 0%nat ->
  reshape t [Some n; None] = Some (mkTensor [n; numel s] (data t)).
Proof.
  intros Hs Hn. unfold reshape. rewrite Hs.
  cbn [count_inferred filter length known_numel fold_right map].
  rewrite Nat.mul_1_r. cbn [numel fold_right].
  destruct (n =? 0)%nat eqn:E; [apply Nat.eqb_eq in E; contradiction|].
  rewrite (Nat.mul_comm n), Nat.Div0.mod_mul, Nat.div_mul by exact Hn.
  reflexivity.
Qed.

Lemma projection_step_defined batch_size gs acc name m g :
  batch_size <> 0%nat ->
  shape acc = [batch_size] ->
  lookup name gs = Some g -> shape g = batch_size :: shape m ->
  exists r, projection_step batch_size gs acc name m = Some r /\ shape r = [batch_size].
Proof.
  intros Hn Ha Hl Hg. unfold projection_step. rewrite Hl. cbn [bind].
  destruct (tmul_defined (unsqueeze0 m) g (batch_size :: shape m)) as (pr & Hp & Hps).
  { cbn [unsqueeze0 shape]. rewrite Hg. apply broadcast_shapes_unsqueezed. }
  rewrite Hp. cbn [bind].
  rewrite (reshape_rows pr batch_size (shape m) Hps Hn). cbn [bind].
  unfold sum1. cbn [shape bind].
  unfold iadd, tadd, broadcast2. cbn [shape]. rewrite Ha, broadcast_shapes_refl.
  cbn [shape]. rewrite shape_eqb_refl. eexists. split; reflexivity.
Qed.

(** The per-sample gradients hold, under the name of every parameter of [ps]
    paired with a momentum tensor in [ms], a tensor of [n] gradients of that
    momentum tensor's shape. *)
Inductive gradients_for (n : nat) (gs : state_dict Q) : state_dict Q -> state_dict Q -> Prop :=
| gradients_nil_l ps : gradients_for n gs [] ps
| gradients_nil_r ms : gradients_for n gs ms []
| gradients_cons m ms p ps g :
    lookup (fst p) gs = Some g -> shape g = n :: shape (snd m) ->
    shape (snd m) = shape (snd p) ->
    gradients_for n gs ms ps -> gradients_for n gs (m :: ms) (p :: ps).

Lemma projection_loop_defined batch_size gs : batch_size <> 0%nat ->
  forall ms ps acc, shape acc = [batch_size] -> gradients_for batch_size gs ms ps ->
  exists r, projection_loop batch_size gs acc ms ps = Some r /\ shape r = [batch_size].
Proof.
  intros Hn ms ps acc Ha H. revert acc Ha.
  induction H as [ps|ms|m ms p ps g Hl Hg Hmp H IH]; intros acc Ha.
  - exists acc. split; [reflexivity | exact Ha].
  - exists acc. split; [destruct ms; reflexivity | exact Ha].
  - cbn [projection_loop].
    destruct (projection_step_defined batch_size gs acc (fst p) (snd m) g Hn Ha Hl Hg)
      as (r & Hr & Hrs).
    rewrite Hr. cbn [bind]. now apply IH.
Qed.

Lemma reshaped_gradient_defined c g n s :
  shape c = n :: repeat 1%nat (length s) -> shape g = n :: s ->
  exists r, reshaped_gradient c g = Some r /\ shape r = s.
Proof.
  intros Hc Hg. unfold reshaped_gradient.
  destruct (tmul_defined c g (n :: s)) as (pr & Hp & Hps).
  { rewrite Hc, Hg. apply broadcast_shapes_column. }
  rewrite Hp. cbn [bind]. unfold mean0, sum0. rewrite Hps.
  eexists. split; reflexivity.
Qed.

Lemma reshaping_loop_defined batch_size gs m_nabla_delta :
  shape m_nabla_delta = [batch_size] ->
  forall ms ps, gradients_for batch_size gs ms ps ->
  Forall (fun p => rank (snd p) = 1%nat \/ rank (snd p) = 2%nat) ps ->
  forall stale, exists r,
    reshaping_loop gs m_nabla_delta stale ms ps = Some r /\
    map shape (fst r) = map (fun p => shape (snd p)) (firstn (length ms) ps).
Proof.
  intros Hm ms ps H.
  induction H as [ps|ms|m ms p ps g Hl Hg Hmp H IH]; intros Hr stale.
  - eexists. split; reflexivity.
  - eexists. split; [destruct ms; reflexivity|]. now rewrite firstn_nil.
  - inversion Hr as [|? ? Hp Hr']; subst.
    cbn [reshaping_loop]. rewrite Hl. cbn [bind].
    assert (Hc : exists c, scaling stale (snd p) m_nabla_delta = Some c /\
                           shape c = batch_size :: repeat 1%nat (length (shape (snd p)))).
    { unfold scaling. fold (rank (snd p)).
      destruct Hp as [Hp|Hp]; unfold rank in Hp |- *; rewrite Hp; cbn [Nat.eqb].
      - rewrite reshape_column. eexists. split; [reflexivity|].
        cbn [shape]. rewrite Hm. cbn. now rewrite Nat.mul_1_r.
      - rewrite reshape_column2. eexists. split; [reflexivity|].
        cbn [shape]. rewrite Hm. cbn. now rewrite Nat.mul_1_r. }
    destruct Hc as (c & Hc & Hcs). rewrite Hc. cbn [bind].
    destruct (reshaped_gradient_defined c g batch_size (shape (snd p))) as (r & Hrg & Hrs);
      [exact Hcs | now rewrite Hg, Hmp |].
    rewrite Hrg. cbn [bind].
    destruct (IH Hr' (Some c)) as (rest & Hrest & Hshape).
    rewrite Hrest. cbn [bind]. eexists. split; [reflexivity|].
    cbn [fst map length firstn]. now rewrite Hrs, Hshape.
Qed.

(** On a non-empty batch whose per-sample gradients have the shapes of the
    critic's parameters, lines 294-321 raise nothing and give every momentum
    tensor a gradient of its own shape. *)
Lemma reshape_gradients_defined obs_shape act_shape batch_size gs stale
  (m_qf1 qf1 : state_dict Q) :
  batch_size <> 0%nat ->
  shapes qf1 = QNetwork_shapes obs_shape act_shape ->
  gradients_for batch_size gs m_qf1 qf1 ->
  exists Rs stale',
    reshape_gradients batch_size gs stale m_qf1 qf1 = Some (Rs, stale') /\
    map shape Rs = map (fun p => shape (snd p)) (firstn (length m_qf1) qf1).
Proof.
  intros Hn Hq Hg. unfold reshape_gradients.
  destruct (projection_loop_defined batch_size gs Hn m_qf1 qf1 (zeros [batch_size]))
    as (c & Hc & Hcs); [reflexivity | exact Hg |].
  rewrite Hc. cbn [bind].
  destruct (reshaping_loop_defined batch_size gs c Hcs m_qf1 qf1 Hg
              (QNetwork_ranks _ _ _ Hq) stale) as ([Rs stale'] & Hr & Hs).
  exists Rs, stale'. split; assumption.
Qed.

(** ** What the accumulator hands to the two optimizers *)

Lemma ema_loop_length : forall ms gs r, ema_loop ms gs = Some r -> length r = length ms.
Proof.
  induction ms as [|m ms IH]; intros [|g gs] r H; simpl in H;
    try (injection H as <-; reflexivity).
  unbind H. unbind H. injection H as <-. simpl. f_equal. eapply IH; eassumption.
Qed.

Lemma with_parameters_length {S} (d : state_dict S) ts :
  length ts = length d -> length (with_parameters d ts) = length d.
Proof. intros H. unfold with_parameters. apply map2_length. now symmetry. Qed.

Lemma parameters_with_parameters {S} : forall (d : state_dict S) ts,
  length ts = length d -> parameters (with_parameters d ts) = ts.
Proof.
  induction d as [|nt d IH]; intros [|t ts] H; try discriminate; [reflexivity|].
  unfold parameters, with_parameters in *. rewrite map2_cons. simpl. f_equal.
  apply IH. simpl in H. lia.
Qed.

Lemma names_with_parameters {S} : forall (d : state_dict S) ts,
  length ts = length d -> names (with_parameters d ts) = names d.
Proof.
  induction d as [|nt d IH]; intros [|t ts] H; try discriminate; [reflexivity|].
  unfold names, with_parameters in *. rewrite map2_cons. simpl. f_equal.
  apply IH. simpl in H. lia.
Qed.

Lemma parameters_length {S} (d : state_dict S) : length (parameters d) = length d.
Proof. apply length_map. Qed.

Lemma opt_step_length (o : Optimizer) st ps gs :
  length (snd (opt_step o st ps gs)) = length ps.
Proof.
  rewrite <- (length_map shape), opt_step_shapes. apply length_map.
Qed.

Lemma grads_of_full n l : length l = n -> grads_of n l = map Some l.
Proof.
  intros <-. unfold grads_of. rewrite firstn_all, Nat.sub_diag. apply app_nil_r.
Qed.

Lemma reshaping_loop_length gs m_nabla_delta : forall ms ps stale r,
  reshaping_loop gs m_nabla_delta stale ms ps = Some r ->
  length (fst r) = Nat.min (length ms) (length ps).
Proof.
  induction ms as [|m ms IH]; intros [|p ps] stale r H; simpl in H;
    try (injection H as <-; reflexivity).
  unbind H. unbind H. unbind H. unbind H. injection H as <-. simpl. f_equal.
  eapply IH; eassumption.
Qed.

(** The block of lines 278-327 read off its parts: the moving average of line
    285 gives [ms]; the reshaping gives the gradients [Rs], which are assigned
    to [m.grad]; [M_optimizer.step()] then moves the momentum along [Rs], and
    the momentum it leaves is assigned to the critic's [.grad]. *)
Lemma ran_additions_inv (M_optimizer : Optimizer) batch_size m_qf1 qf1 M_state p_grad gs stale r :
  length m_qf1 = length qf1 ->
  ran_additions M_optimizer batch_size m_qf1 qf1 M_state p_grad gs stale = Some r ->
  exists ms Rs,
    ema_loop (parameters m_qf1) p_grad = Some ms /\
    reshape_gradients batch_size gs stale (with_parameters m_qf1 ms) qf1 = Some (Rs, ran_stale r) /\
    ran_m_grad r = map Some Rs /\
    parameters (ran_m_qf1 r) = snd (opt_step M_optimizer M_state ms (map Some Rs)) /\
    ran_M_state r = fst (opt_step M_optimizer M_state ms (map Some Rs)) /\
    names (ran_m_qf1 r) = names m_qf1 /\
    ran_p_grad r = map Some (parameters (ran_m_qf1 r)).
Proof.
  intros Hlen H. unfold ran_additions in H.
  unbind H. rename v into ms. rename E into Hema.
  pose proof (ema_loop_length _ _ _ Hema) as Hms. rewrite parameters_length in Hms.
  unbind H. rename v into c. unbind H. destruct v as [Rs stale']. injection H as <-.
  pose proof (reshaping_loop_length _ _ _ _ _ _ E0) as HRs.
  rewrite with_parameters_length in HRs by exact Hms.
  rewrite <- Hlen, Nat.min_id in HRs. cbn [fst snd] in *.
  exists ms, Rs. cbn [ran_m_grad ran_m_qf1 ran_M_state ran_p_grad ran_stale].
  rewrite (with_parameters_length m_qf1 ms Hms).
  rewrite (grads_of_full _ Rs HRs).
  rewrite (parameters_with_parameters m_qf1 ms Hms).
  set (stepped := opt_step M_optimizer M_state ms (map Some Rs)).
  assert (Hst : length (snd stepped) = length (with_parameters m_qf1 ms)).
  { unfold stepped. rewrite opt_step_length, with_parameters_length; auto. }
  repeat split.
  - exact Hema.
  - unfold reshape_gradients. rewrite E. exact E0.
  - now rewrite parameters_with_parameters.
  - rewrite names_with_parameters by exact Hst. now apply names_with_parameters.
  - rewrite parameters_with_parameters by exact Hst.
    apply grads_of_full. rewrite <- Hlen, Hst. now apply with_parameters_length.
Qed.

Lemma rmsprop_step_shapes lr : forall ps st gs,
  map shape (snd (rmsprop_step lr st ps gs)) = map shape ps.
Proof.
  induction ps as [|p ps IH]; intros st gs; simpl; [reflexivity|].
  destruct gs as [|[g|] gs']; simpl; rewrite IH; reflexivity.
Qed.

(** [optim.RMSprop(params, lr=lr)] *)
Definition RMSprop (lr : Q) : Optimizer :=
  mkOptimizer (list (list Q)) (rmsprop_step lr)
    (fun st ps gs => rmsprop_step_shapes lr ps st gs).

(** A critic over one observation and one action dimension with every
    parameter zero, a gradient [g] and a one-sample batch of gradients [G] that
    are zero except at [fc3.bias]. *)
Definition example_shapes : list (string * list nat) := QNetwork_shapes [1%nat] [1%nat].

Definition set_param (d : state_dict Q) (name : string) (t : tensor Q) : state_dict Q :=
  map (fun nt => if String.eqb (fst nt) name then (name, t) else nt) d.

Definition example_zero : state_dict Q :=
  map (fun ns => (fst ns, zeros (snd ns))) example_shapes.

Definition example_g (x : Q) : list (tensor Q) :=
  parameters (set_param example_zero "fc3.bias" (mkTensor [1%nat] [x])).

Definition example_G (x : Q) : state_dict Q :=
  set_param (map (fun ns => (fst ns, zeros (1%nat :: snd ns))) example_shapes)
    "fc3.bias" (mkTensor [1%nat; 1%nat] [x]).

(** The first learning step of the script on that critic: [M_optimizer] is
    [RMSprop] with [lr = 0.5 * 3e-4], the momentum is zero. *)
Definition example_step (g G : Q) : option (RanResult (RMSprop (15 # 100000))) :=
  ran_additions (RMSprop (15 # 100000)) 1 example_zero example_zero []
    (example_g g) (example_G G) None.

(** The momentum, the gradient of the momentum and the gradient of the critic
    at [fc3.bias] after the block. *)
Definition at_fc3_bias (r : RanResult (RMSprop (15 # 100000)))
  : tensor Q * option (tensor Q) * option (tensor Q) :=
  (param (ran_m_qf1 r) "fc3.bias", nth 5 (ran_m_grad r) None, nth 5 (ran_p_grad r) None).

(** C2, as stated, fails: with [g = 1] and per-sample gradient 1 at [fc3.bias],
    the reshaped gradient [R] there is 1/1000 and goes to [m.grad], while the
    critic's [.grad] is the momentum after [M_optimizer.step()], -4999/10001000. *)
Lemma critic_gradient_is_not_reshaped :
  option_map at_fc3_bias (example_step 1 1)
  = Some (mkTensor [1%nat] [-4999 # 10001000],
          Some (mkTensor [1%nat] [1 # 1000]),
          Some (mkTensor [1%nat] [-4999 # 10001000])).
Proof. vm_compute. reflexivity. Qed.

(** C7, as stated, fails for the momentum of the script: a learning step also
    applies [M_optimizer.step()].  Fed [g = 1] at [fc3.bias] (per-sample
    gradient 1) from [M = 0], the first step leaves [M = -4999/10001000]
    there: the entry moves away from [g * beta / (1 - lambda) = 1]. *)
Lemma momentum_moves_away_from_gradient :
  option_map (fun r => (data (param (ran_m_qf1 r) "fc3.bias"),
                        Qle_bool 0 (nth 0 (data (param (ran_m_qf1 r) "fc3.bias")) 0)))
    (example_step 1 1)
  = Some ([-4999 # 10001000], false).
Proof. vm_compute. reflexivity. Qed.

(** C2 (amended).  The gradient of every critic parameter at
    [q_optimizer.step()] is the momentum tensor of the same position as
    [M_optimizer.step()] leaves it: the moving average [ms] of line 285 moved
    along the reshaped gradients [Rs], which are the gradients of the momentum
    and not of the critic. *)
Theorem critic_gradient_is_momentum :
  forall (M_optimizer : Optimizer) batch_size m_qf1 qf1 M_state p_grad gs stale r,
    length m_qf1 = length qf1 ->
    ran_additions M_optimizer batch_size m_qf1 qf1 M_state p_grad gs stale = Some r ->
    ran_p_grad r = map Some (parameters (ran_m_qf1 r)) /\
    exists ms Rs,
      ema_loop (parameters m_qf1) p_grad = Some ms /\
      option_map fst (reshape_gradients batch_size gs stale (with_parameters m_qf1 ms) qf1)
        = Some Rs /\
      ran_m_grad r = map Some Rs /\
      parameters (ran_m_qf1 r) = snd (opt_step M_optimizer M_state ms (map Some Rs)).
Proof.
  intros M_optimizer batch_size m_qf1 qf1 M_state p_grad gs stale r Hlen H.
  destruct (ran_additions_inv _ _ _ _ _ _ _ _ _ Hlen H)
    as (ms & Rs & Hema & HR & Hmg & Hm & _ & _ & Hp).
  split; [exact Hp|]. exists ms, Rs. rewrite HR. auto.
Qed.

Lemma nth_map_rmul c l i : nth i (map (rmul c) l) 0 == c * nth i l 0.
Proof.
  revert i. induction l as [|y l IH]; intros [|i]; simpl;
    try (ring_simplify; reflexivity); [apply rmul_correct | apply IH].
Qed.

(** Line 285 on tensors of one shape: every entry becomes
    [0.999 * m + 0.001 * g]. *)
Lemma momentum_ema_entries m g :
  shape m = shape g -> well_formed m -> well_formed g ->
  exists m', momentum_ema m g = Some m' /\ shape m' = shape m /\
             forall i, nth i (data m') 0 == 0.999 * nth i (data m) 0 + 0.001 * nth i (data g) 0.
Proof.
  intros Hs Hm Hg. rewrite momentum_ema_same by assumption.
  eexists. split; [reflexivity|]. split; [reflexivity|]. intros i. cbn [data].
  rewrite (nth_map2_Qeq radd Qplus radd_correct) by
    (try reflexivity; rewrite !length_map; unfold well_formed in *; congruence).
  rewrite !nth_map_rmul. reflexivity.
Qed.

Lemma ema_loop_entries : forall ms gs,
  Forall2 (fun m g => shape m = shape g /\ well_formed m /\ well_formed g) ms gs ->
  exists r, ema_loop ms gs = Some r /\
    Forall2 (fun m' mg =>
               shape m' = shape (fst mg) /\
               forall i, nth i (data m') 0
                         == 0.999 * nth i (data (fst mg)) 0 + 0.001 * nth i (data (snd mg)) 0)
            r (combine ms gs).
Proof.
  induction 1 as [|m g ms gs (Hs & Hm & Hg) H IH].
  - exists []. split; [reflexivity | constructor].
  - destruct IH as (r & Hr & HF).
    destruct (momentum_ema_entries m g Hs Hm Hg) as (m' & Hm' & Hs' & He).
    exists (m' :: r). split.
    + cbn [ema_loop]. rewrite Hm'. cbn [bind]. rewrite Hr. reflexivity.
    + constructor; [split; assumption | exact HF].
Qed.

(** C3, as stated, fails: from the same zero momentum and the same gradient
    [g = 1], the one-sample batches with per-sample gradient 1 and 2 at
    [fc3.bias] leave different momentum there. *)
Lemma momentum_depends_on_samples :
  option_map (fun r => param (ran_m_qf1 r) "fc3.bias") (example_step 1 1)
    = Some (mkTensor [1%nat] [-4999 # 10001000]) /\
  option_map (fun r => param (ran_m_qf1 r) "fc3.bias") (example_step 1 2)
    = Some (mkTensor [1%nat] [-19999 # 40001000]) /\
  -19999 # 40001000 < -4999 # 10001000.
Proof. repeat split; vm_compute; reflexivity. Qed.

(** C3 (amended).  A critic-learning step first replaces every momentum tensor
    by [0.999 * M + 0.001 * g], which depends on the momentum and on the batch
    gradient [g] alone; [M_optimizer.step()] then moves that average along the
    reshaped gradients [Rs], which are computed from the per-sample gradients. *)
Theorem momentum_update :
  forall (M_optimizer : Optimizer) batch_size m_qf1 qf1 M_state p_grad gs stale r,
    length m_qf1 = length qf1 ->
    Forall2 (fun m g => shape m = shape g /\ well_formed m /\ well_formed g)
            (parameters m_qf1) p_grad ->
    ran_additions M_optimizer batch_size m_qf1 qf1 M_state p_grad gs stale = Some r ->
    exists ms Rs,
      ema_loop (parameters m_qf1) p_grad = Some ms /\
      Forall2 (fun m' mg =>
                 shape m' = shape (fst mg) /\
                 forall i, nth i (data m') 0
                           == 0.999 * nth i (data (fst mg)) 0 + 0.001 * nth i (data (snd mg)) 0)
              ms (combine (parameters m_qf1) p_grad) /\
      option_map fst (reshape_gradients batch_size gs stale (with_parameters m_qf1 ms) qf1)
        = Some Rs /\
      parameters (ran_m_qf1 r) = snd (opt_step M_optimizer M_state ms (map Some Rs)).
Proof.
  intros M_optimizer batch_size m_qf1 qf1 M_state p_grad gs stale r Hlen Hwf H.
  destruct (ran_additions_inv _ _ _ _ _ _ _ _ _ Hlen H)
    as (ms & Rs & Hema & HR & _ & Hm & _ & _ & _).
  destruct (ema_loop_entries _ _ Hwf) as (ms' & Hema' & HF).
  rewrite Hema in Hema'. injection Hema' as <-.
  exists ms, Rs. rewrite HR. auto.
Qed.

Lemma example_step_defined : exists r, example_step 1 1 = Some r.
Proof.
  destruct (example_step 1 1) as [r|] eqn:E.
  - exists r. reflexivity.
  - exfalso.
    assert (H : match example_step 1 1 with Some _ => true | None => false end = true)
      by (vm_compute; reflexivity).
    rewrite E in H. discriminate.
Defined.

Lemma zeros_well_formed s : well_formed (zeros s).
Proof. unfold well_formed, zeros, full. cbn [data shape]. apply repeat_length. Qed.

Lemma example_well_formed x :
  Forall2 (fun m g => shape m = shape g /\ well_formed m /\ well_formed g)
          (parameters example_zero) (example_g x).
Proof.
  unfold example_g, example_zero, example_shapes, QNetwork_shapes, Linear_shapes,
    set_param, parameters.
  cbn -[zeros numel Nat.mul Nat.add].
  repeat (constructor; [repeat split; try apply zeros_well_formed; reflexivity|]).
  constructor.
Qed.

Lemma critic_gradient_is_momentum_witness :
  length example_zero = length example_zero /\
  exists r, example_step 1 1 = Some r /\
            ran_p_grad r = map Some (parameters (ran_m_qf1 r)).
Proof.
  split; [reflexivity|].
  destruct example_step_defined as [r E]. exists r. split; [exact E|].
  exact (proj1 (critic_gradient_is_momentum (RMSprop (15 # 100000)) 1%nat
                  example_zero example_zero [] (example_g 1) (example_G 1) None r
                  eq_refl E)).
Defined.

Lemma momentum_update_witness :
  length example_zero = length example_zero /\
  Forall2 (fun m g => shape m = shape g /\ well_formed m /\ well_formed g)
          (parameters example_zero) (example_g 1) /\
  exists r ms, example_step 1 1 = Some r /\
               ema_loop (parameters example_zero) (example_g 1) = Some ms.
Proof.
  split; [reflexivity|]. split; [apply example_well_formed|].
  destruct example_step_defined as [r E]. exists r.
  destruct (momentum_update (RMSprop (15 # 100000)) 1%nat
              example_zero example_zero [] (example_g 1) (example_G 1) None r
              eq_refl (example_well_formed 1) E) as (ms & Rs & Hema & _).
  exists ms. split; [exact E | exact Hema].
Defined.

(** A one-sample batch of per-sample gradients with every entry 3. *)
Definition example_G_full : state_dict Q :=
  map (fun ns => (fst ns, full (1%nat :: snd ns) 3)) example_shapes.

Lemma ema_converges_monotonically_witness :
  well_formed (mkTensor [2%nat] [1; -3]) /\
  exists M : nat -> tensor Q,
    forall n, ema_run n (zeros [2%nat]) (mkTensor [2%nat] [1; -3]) = Some (M n).
Proof.
  split; [reflexivity|].
  destruct (ema_converges_monotonically (mkTensor [2%nat] [1; -3]) eq_refl) as (M & HM & _).
  exists M. exact HM.
Defined.

(** * The per-sample gradient engine *)

(** The residual as the specification words it: the bootstrap term is the value
    of the frozen target critic [qf1_target], a constant for the gradient; only
    [Critic(s, a)] runs with the differentiated [params]. *)
Definition spec_delta {S} `{Scalar S} (target_actor : tensor Q -> tensor Q) (gamma : Q)
  (qf1_target : state_dict Q) (params : state_dict S)
  (observations actions rewards next_observations dones : tensor Q) : S :=
  let observations := unsqueeze0 observations in
  let actions := unsqueeze0 actions in
  let rewards := unsqueeze0 rewards in
  let next_observations := unsqueeze0 next_observations in
  let dones := unsqueeze0 dones in
  let next_state_actions := target_actor next_observations in
  let qf1_next_target : tensor S :=
    lift (QNetwork_forward qf1_target next_observations next_state_actions) in
  let next_q_value :=
    map2 sadd (data (lift (flatten rewards)))
      (map2 smul
         (map (fun d => smul (ssub (sconst 1) d) (sconst gamma)) (data (lift (flatten dones))))
         (data (flatten qf1_next_target))) in
  let qf1_a_values :=
    data (flatten (QNetwork_forward params (lift observations) (lift actions))) in
  let delta_ := map2 ssub next_q_value qf1_a_values in
  fold_right sadd (sconst 0) delta_.

(** The engine of the specification: per sample, the gradient of [spec_delta]. *)
Definition spec_sample_nabla_delta (target_actor : tensor Q -> tensor Q) (gamma : Q)
  (qf1_target params : state_dict Q) (b : Batch) : state_dict Q :=
  let per_sample :=
    map (fun s => match s with
                  | (o, a, r, no, d) =>
                      grad (fun p => spec_delta target_actor gamma qf1_target p o a r no d) params
                  end) (samples b) in
  map (fun nt => (fst nt, stack0 (shape (snd nt)) (map (fun g => param g (fst nt)) per_sample)))
      params.

(** The gradients of one sample at the parameter [name], of tensor [p]. *)
Definition sample_gradient (target_actor : tensor Q -> tensor Q) (gamma : Q)
  (params : state_dict Q) (name : string) (p : tensor Q)
  (s : tensor Q * tensor Q * tensor Q * tensor Q * tensor Q) : tensor Q :=
  match s with
  | (o, a, r, no, d) =>
      mkTensor (shape p)
        (map (partial (fun q => compute_delta target_actor gamma q o a r no d) params name)
             (seq 0 (length (data p))))
  end.

(** ** Lookup in mapped dictionaries *)

Lemma lookup_map {S T} (F : string -> tensor S -> tensor T) name : forall d : state_dict S,
  lookup name (map (fun nt => (fst nt, F (fst nt) (snd nt))) d)
  = option_map (F name) (lookup name d).
Proof.
  induction d as [|[n t] d IH]; [reflexivity|].
  cbn [map lookup fst snd]. destruct (String.eqb n name) eqn:E.
  - apply String.eqb_eq in E. subst n. reflexivity.
  - exact IH.
Qed.

Lemma param_grad f params name p :
  lookup name params = Some p ->
  param (grad f params) name
  = mkTensor (shape p) (map (partial f params name) (seq 0 (length (data p)))).
Proof.
  intros H. unfold param, grad.
  rewrite (lookup_map (fun n t => mkTensor (shape t)
                                    (map (partial f params n) (seq 0 (length (data t)))))).
  rewrite H. reflexivity.
Qed.

Lemma lookup_engine target_actor gamma params b name p :
  lookup name params = Some p ->
  lookup name (compute_sample_nabla_delta target_actor gamma params b)
  = Some (stack0 (shape p) (map (sample_gradient target_actor gamma params name p) (samples b))).
Proof.
  intros H. unfold compute_sample_nabla_delta.
  rewrite (lookup_map (fun n t => stack0 (shape t) (map (fun g => param g n) _))).
  rewrite H. cbn [option_map]. do 2 f_equal. rewrite map_map. apply map_ext.
  intros [[[[o a] r] no] d]. unfold compute_nabla_delta, sample_gradient.
  now apply param_grad.
Qed.

Lemma lookup_spec_engine target_actor gamma qf1_target params b name p :
  lookup name params = Some p ->
  lookup name (spec_sample_nabla_delta target_actor gamma qf1_target params b)
  = Some (stack0 (shape p)
            (map (fun s => match s with
                           | (o, a, r, no, d) =>
                               mkTensor (shape p)
                                 (map (partial (fun q => spec_delta target_actor gamma qf1_target
                                                           q o a r no d) params name)
                                      (seq 0 (length (data p))))
                           end) (samples b))).
Proof.
  intros H. unfold spec_sample_nabla_delta.
  rewrite (lookup_map (fun n t => stack0 (shape t) (map (fun g => param g n) _))).
  rewrite H. cbn [option_map]. do 2 f_equal. rewrite map_map. apply map_ext.
  intros [[[[o a] r] no] d]. now apply param_grad.
Qed.

(** A one-sample batch of zeros for the example critic, and a target actor that
    answers the action 0 (an actor with zero weights on a symmetric action space). *)
Definition example_target_actor (x : tensor Q) : tensor Q := mkTensor [1%nat; 1%nat] [0].

Definition example_transitions : Batch :=
  mkBatch (mkTensor [1%nat; 1%nat] [0]) (mkTensor [1%nat; 1%nat] [0])
    (mkTensor [1%nat; 1%nat] [0]) (mkTensor [1%nat; 1%nat] [0]) (mkTensor [1%nat; 1%nat] [0]).

(** C1, as stated, fails: on the zero critic (live and target alike) and a
    transition that is not terminal, with [gamma = 0.99], the engine's gradient at
    [fc3.bias] is [0.99 - 1 = -1/100], while the gradient of the residual with
    a frozen target critic is [-1]. *)
Lemma bootstrap_is_differentiated :
  lookup "fc3.bias"
    (compute_sample_nabla_delta example_target_actor 0.99 example_zero example_transitions)
    = Some (mkTensor [1%nat; 1%nat] [-1 # 100]) /\
  lookup "fc3.bias"
    (spec_sample_nabla_delta example_target_actor 0.99 example_zero example_zero
       example_transitions)
    = Some (mkTensor [1%nat; 1%nat] [-1 # 1]).
Proof.
  assert (H : lookup "fc3.bias" example_zero = Some (zeros [1%nat])) by reflexivity.
  split.
  - rewrite (lookup_engine _ _ _ _ _ _ H). vm_compute. reflexivity.
  - rewrite (lookup_spec_engine _ _ _ _ _ _ _ H). vm_compute. reflexivity.
Qed.

(** ** The derivative along [fc3.bias] *)

Lemma tangent_sadd (a b : dual) : tangent (sadd a b) = radd (tangent a) (tangent b).
Proof. reflexivity. Qed.

Lemma linear_shape {S} `{Scalar S} (W b x : tensor S) out inp n k :
  shape W = [out; inp] -> shape x = [n; k] -> shape (linear W b x) = [n; out].
Proof. intros HW Hx. unfold linear. rewrite HW, Hx. reflexivity. Qed.

(** ** Names and shapes of a dictionary *)

Lemma shapes_combine {S} (d : state_dict S) :
  shapes d = combine (names d) (map shape (parameters d)).
Proof.
  induction d as [|[n t] d IH]; [reflexivity|].
  unfold shapes, names, parameters in *. simpl. now rewrite IH.
Qed.

Lemma shapes_parameters {S} (d d' : state_dict S) :
  shapes d = shapes d' -> map shape (parameters d) = map shape (parameters d').
Proof.
  intros H. apply (f_equal (map snd)) in H. unfold shapes in H.
  rewrite !map_map in H. unfold parameters. rewrite !map_map. exact H.
Qed.

Lemma shapes_length {S} (d d' : state_dict S) : shapes d = shapes d' -> length d = length d'.
Proof.
  intros H. apply (f_equal (@length _)) in H. unfold shapes in H.
  now rewrite !length_map in H.
Qed.

Lemma momentum_ema_shape m g m' :
  shape m = shape g -> momentum_ema m g = Some m' -> shape m' = shape m.
Proof.
  unfold momentum_ema, tadd, broadcast2. cbn [tscale shape]. intros <-.
  rewrite broadcast_shapes_refl. intros [= <-]. reflexivity.
Qed.

Lemma ema_loop_shapes : forall ms gs r,
  map shape ms = map shape gs -> ema_loop ms gs = Some r -> map shape r = map shape ms.
Proof.
  induction ms as [|m ms IH]; intros [|g gs] r Hs H; try discriminate.
  - injection H as <-. reflexivity.
  - cbn [ema_loop] in H. unbind H. unbind H. injection H as <-.
    injection Hs as Hs1 Hs2. cbn [map]. f_equal.
    + eapply momentum_ema_shape; eassumption.
    + eapply IH; eassumption.
Qed.

Lemma grad_shapes f (d : state_dict Q) :
  map shape (parameters (grad f d)) = map shape (parameters d).
Proof. unfold grad, parameters. rewrite !map_map. reflexivity. Qed.

Lemma with_parameters_shapes {S} (d : state_dict S) ts :
  length ts = length d ->
  shapes (with_parameters d ts) = combine (names d) (map shape ts).
Proof.
  intros H. rewrite shapes_combine, names_with_parameters, parameters_with_parameters by exact H.
  reflexivity.
Qed.

(** ** The accumulator is defined on the engine's gradients *)

Lemma ema_loop_defined : forall ms gs,
  map shape ms = map shape gs -> exists r, ema_loop ms gs = Some r.
Proof.
  induction ms as [|m ms IH]; intros [|g gs] H; try discriminate.
  - exists []. reflexivity.
  - injection H as H1 H2. destruct (IH gs H2) as (r & Hr).
    cbn [ema_loop]. unfold momentum_ema, tadd, broadcast2. cbn [tscale shape].
    rewrite <- H1, broadcast_shapes_refl. cbn [bind]. rewrite Hr. cbn [bind]. eauto.
Qed.

Lemma unbind0_length {A} (t : tensor A) n s : shape t = n :: s -> length (unbind0 t) = n.
Proof. intros H. unfold unbind0. rewrite H, length_map. apply chunks_length. Qed.

(** Every field of the batch has [n] as its leading dimension. *)
Definition batch_of (n : nat) (b : Batch) : Prop :=
  exists s1 s2 s3 s4 s5,
    shape (observations b) = n :: s1 /\ shape (actions b) = n :: s2 /\
    shape (rewards b) = n :: s3 /\ shape (next_observations b) = n :: s4 /\
    shape (dones b) = n :: s5.

Lemma samples_length n b : batch_of n b -> length (samples b) = n.
Proof.
  intros (s1 & s2 & s3 & s4 & s5 & H1 & H2 & H3 & H4 & H5). unfold samples.
  rewrite !length_combine.
  rewrite (unbind0_length _ _ _ H1), (unbind0_length _ _ _ H2), (unbind0_length _ _ _ H3),
    (unbind0_length _ _ _ H4), (unbind0_length _ _ _ H5).
  now rewrite !Nat.min_id.
Qed.

Lemma gradients_for_pairs n gs : forall ms ps : state_dict Q,
  Forall2 (fun m p => exists g, lookup (fst p) gs = Some g /\
                                shape g = n :: shape (snd m) /\
                                shape (snd m) = shape (snd p)) ms ps ->
  gradients_for n gs ms ps.
Proof.
  induction 1 as [|m p ms ps (g & Hl & Hg & Hs) H IH].
  - apply gradients_nil_l.
  - eapply gradients_cons; eassumption.
Qed.

(** The engine's result holds, for a critic of [QNetwork]'s shapes and a
    momentum of the critic's shapes, the per-sample gradients the accumulator
    looks up. *)
Lemma engine_gradients_for obs_shape act_shape target_actor gamma n b (ms qf1 : state_dict Q) :
  batch_of n b ->
  shapes qf1 = QNetwork_shapes obs_shape act_shape ->
  map shape (parameters ms) = map shape (parameters qf1) ->
  gradients_for n (compute_sample_nabla_delta target_actor gamma qf1 b) ms qf1.
Proof.
  intros Hb Hs Hm. apply gradients_for_pairs.
  assert (Hq : Forall (fun p => exists p', lookup (fst p) qf1 = Some p' /\
                                          shape p' = shape (snd p)) qf1).
  { destruct qf1 as [|[n1 t1] [|[n2 t2] [|[n3 t3] [|[n4 t4] [|[n5 t5] [|[n6 t6] [|]]]]]]];
      try discriminate Hs.
    unfold shapes, QNetwork_shapes, Linear_shapes in Hs. cbn [map app fst snd] in Hs.
    injection Hs as -> _ -> _ -> _ -> _ -> _ -> _.
    repeat (constructor; [eexists; split; [reflexivity | reflexivity]|]). constructor. }
  unfold parameters in Hm. rewrite !map_map in Hm.
  assert (Hgen : forall ps : state_dict Q,
             Forall (fun p => exists p', lookup (fst p) qf1 = Some p' /\
                                         shape p' = shape (snd p)) ps ->
             forall ms : state_dict Q,
               map (fun x => shape (snd x)) ms = map (fun x => shape (snd x)) ps ->
               Forall2 (fun m p =>
                          exists g,
                            lookup (fst p) (compute_sample_nabla_delta target_actor gamma qf1 b)
                            = Some g /\
                            shape g = n :: shape (snd m) /\ shape (snd m) = shape (snd p))
                       ms ps).
  { induction 1 as [|p ps (p' & Hl & Hp') Hps IH]; intros [|m ms'] Hm'; try discriminate;
      constructor.
    - exists (stack0 (shape p') (map (sample_gradient target_actor gamma qf1 (fst p) p')
                                   (samples b))).
      injection Hm' as Hm1 Hm2. split; [|split].
      + now apply lookup_engine.
      + cbn [stack0 shape]. rewrite length_map, (samples_length n b Hb). congruence.
      + exact Hm1.
    - injection Hm' as Hm1 Hm2. now apply IH. }
  now apply Hgen.
Qed.

(** On a non-empty batch, a critic of [QNetwork]'s shapes, a momentum of the
    critic's shapes and gradients of those shapes, lines 278-327 raise nothing. *)
Lemma ran_additions_defined (M_optimizer : Optimizer) obs_shape act_shape batch_size
  (m_qf1 qf1 : state_dict Q) M_state p_grad gs stale :
  batch_size <> 0%nat ->
  shapes qf1 = QNetwork_shapes obs_shape act_shape ->
  shapes m_qf1 = shapes qf1 ->
  map shape p_grad = map shape (parameters qf1) ->
  (forall ms : state_dict Q,
     map shape (parameters ms) = map shape (parameters qf1) ->
     gradients_for batch_size gs ms qf1) ->
  exists r, ran_additions M_optimizer batch_size m_qf1 qf1 M_state p_grad gs stale = Some r.
Proof.
  intros Hn Hq Hm Hg Hgs. unfold ran_additions.
  assert (Hmp : map shape (parameters m_qf1) = map shape (parameters qf1)).
  { apply (f_equal (map snd)) in Hm. unfold shapes in Hm. rewrite !map_map in Hm.
    unfold parameters. rewrite !map_map. exact Hm. }
  destruct (ema_loop_defined (parameters m_qf1) p_grad) as (ms & Hema); [congruence|].
  rewrite Hema. cbn [bind].
  pose proof (ema_loop_shapes _ _ _ (eq_trans Hmp (eq_sym Hg)) Hema) as Hms.
  assert (Hlen : length ms = length m_qf1).
  { rewrite <- (parameters_length m_qf1). eapply ema_loop_length; eassumption. }
  destruct (reshape_gradients_defined obs_shape act_shape batch_size gs stale
              (with_parameters m_qf1 ms) qf1 Hn Hq) as (Rs & stale' & HR & _).
  { apply Hgs. rewrite parameters_with_parameters by exact Hlen. congruence. }
  unfold reshape_gradients in HR. apply bind_some in HR. destruct HR as (c & Hc & HR).
  rewrite Hc. cbn [bind]. rewrite HR. cbn [bind]. eauto.
Qed.

(** * Further properties of the building blocks *)

(** ** Entries of elementwise operations *)

(** Broadcasting a tensor against one with the same shape behind leading
    dimensions of size 1, as [actions] of shape [1, k] against bounds of
    shape [k]. *)
Lemma broadcast_rev_prefix r : forall l, broadcast_rev (r ++ l) r = Some (r ++ l).
Proof.
  induction r as [|x r IH]; intros l.
  - destruct l; reflexivity.
  - rewrite <- app_comm_cons, broadcast_rev_cons, Nat.eqb_refl, IH. reflexivity.
Qed.

Lemma broadcast_shapes_ones j s :
  broadcast_shapes (repeat 1%nat j ++ s) s = Some (repeat 1%nat j ++ s).
Proof.
  unfold broadcast_shapes. rewrite rev_app_distr, broadcast_rev_prefix. cbn [option_map].
  now rewrite <- rev_app_distr, rev_involutive.
Qed.

Lemma numel_ones j s : numel (repeat 1%nat j ++ s) = numel s.
Proof. induction j as [|j IH]; simpl; [reflexivity|]. rewrite IH. lia. Qed.

Lemma broadcast2_ones {A B C} (f : A -> B -> C) (a : tensor A) (b : tensor B) j :
  shape a = repeat 1%nat j ++ shape b -> well_formed a -> well_formed b ->
  broadcast2 f a b = Some (mkTensor (shape a) (map2 f (data a) (data b))).
Proof.
  intros Hs Ha Hb. unfold broadcast2. rewrite Hs, broadcast_shapes_ones, <- Hs.
  rewrite expand_same by assumption. do 3 f_equal.
  unfold expand. cbn [data]. unfold pad_shape.
  rewrite Hs at 1. rewrite length_app, repeat_length.
  replace (j + length (shape b) - length (shape b))%nat with j by lia.
  rewrite <- Hs. apply expand_data_id. unfold well_formed in *.
  now rewrite Hb, Hs, numel_ones.
Qed.

(** ** Clipping *)

(** X6.  The clipped action never exceeds [high], is at least [low] wherever
    [low <= high], and is the action itself wherever that lies within the
    bounds.  The bounds may have the action's shape behind leading dimensions
    of size 1. *)
Theorem clip_within_bounds a low high j :
  shape a = repeat 1%nat j ++ shape low -> shape low = shape high ->
  well_formed a -> well_formed low -> well_formed high ->
  exists r, clip a low high = Some r /\ shape r = shape a /\
    forall i, (i < length (data a))%nat ->
      let x := nth i (data a) 0 in
      let l := nth i (data low) 0 in
      let h := nth i (data high) 0 in
      let y := nth i (data r) 0 in
      y <= h /\ (l <= h -> l <= y) /\ (l <= x -> x <= h -> y == x).
Proof.
  intros Hs Hlh Ha Hl Hh. unfold clip.
  rewrite (broadcast2_ones Qmax a low j Hs Ha Hl). cbn [bind].
  assert (La : length (data a) = length (data low)).
  { unfold well_formed in *. now rewrite Ha, Hl, Hs, numel_ones. }
  assert (Lh : length (data low) = length (data high)).
  { unfold well_formed in *. congruence. }
  rewrite (broadcast2_ones Qmin _ high j); cbn [shape data].
  - eexists. split; [reflexivity|]. split; [reflexivity|]. cbn [data].
    intros i Hi. cbv zeta.
    rewrite (nth_map2 Qmin 0 0 0) by (rewrite ?map2_length; lia).
    rewrite (nth_map2 Qmax 0 0 0) by lia.
    set (x := nth i (data a) 0). set (l := nth i (data low) 0).
    set (h := nth i (data high) 0).
    split; [apply Q.le_min_r|]. split.
    + intros Hlh'. apply Q.min_glb; [apply Q.le_max_r | exact Hlh'].
    + intros H1 H2. rewrite (Q.max_l x l) by exact H1. now rewrite (Q.min_l x h).
  - congruence.
  - unfold well_formed. cbn [data shape]. rewrite map2_length by exact La. exact Ha.
  - exact Hh.
Qed.

(** ** The weight summary [l1_params] *)

(** Lines 22-31: the mean absolute value of all entries.  [None] where Python
    raises [ZeroDivisionError] (a model without parameters) or numpy answers
    [nan] (parameters without entries). *)
Definition l1_params (model : state_dict Q) : option Q :=
  let s := fold_left (fun s p => radd s (sum_all (map Qabs (data p)))) (parameters model) 0 in
  let total_dims := fold_left (fun t p => (t + numel (shape p))%nat) (parameters model) 0%nat in
  if (total_dims =? 0)%nat then None
  else Some (rdiv s (inject_Z (Z.of_nat total_dims))).

Definition entries_zero (ps : list (tensor Q)) : Prop :=
  Forall (fun p => Forall (fun x => x == 0) (data p)) ps.

Lemma abs_sum_nonneg l : 0 <= sum_all (map Qabs l).
Proof.
  induction l as [|x l IH]; simpl; [apply Qle_refl|].
  rewrite radd_correct. pose proof (Qabs_nonneg x). lra.
Qed.

Lemma abs_sum_zero l : sum_all (map Qabs l) == 0 <-> Forall (fun x => x == 0) l.
Proof.
  induction l as [|x l IH]; simpl.
  - split; [constructor | reflexivity].
  - rewrite radd_correct. pose proof (Qabs_nonneg x) as Hx. pose proof (abs_sum_nonneg l) as Hl.
    split.
    + intros H. constructor.
      * assert (Ha : Qabs x <= 0) by lra. apply Qabs_Qle_condition in Ha. lra.
      * apply IH. lra.
    + intros H. inversion H as [|? ? H0 H1]; subst. apply IH in H1.
      rewrite H0 in *. rewrite H1. reflexivity.
Qed.

Lemma abs_fold_nonneg ps : forall acc, 0 <= acc ->
  acc <= fold_left (fun s p => radd s (sum_all (map Qabs (data p)))) ps acc.
Proof.
  induction ps as [|p ps IH]; intros acc Ha; simpl; [apply Qle_refl|].
  pose proof (abs_sum_nonneg (data p)) as Hp.
  eapply Qle_trans; [|apply IH]; rewrite radd_correct; lra.
Qed.

Lemma abs_fold_zero ps : forall acc, 0 <= acc ->
  (fold_left (fun s p => radd s (sum_all (map Qabs (data p)))) ps acc == 0
   <-> acc == 0 /\ entries_zero ps).
Proof.
  induction ps as [|p ps IH]; intros acc Ha; simpl.
  - split; [intros H; split; [exact H | constructor] | intros [H _]; exact H].
  - pose proof (abs_sum_nonneg (data p)) as Hp.
    rewrite IH by (rewrite radd_correct; lra). rewrite radd_correct. split.
    + intros [H1 H2]. split; [lra|]. constructor; [|exact H2]. apply abs_sum_zero. lra.
    + intros [H1 H2]. inversion H2 as [|? ? H3 H4]; subst. apply abs_sum_zero in H3.
      split; [lra | exact H4].
Qed.

(** X1.  The summary is never negative, and it is zero exactly when every
    entry of every parameter is zero, as for the momentum at startup. *)
Theorem l1_params_zero_iff model v :
  l1_params model = Some v ->
  0 <= v /\ (v == 0 <-> entries_zero (parameters model)).
Proof.
  unfold l1_params.
  set (s := fold_left _ (parameters model) 0).
  set (n := fold_left _ (parameters model) 0%nat).
  destruct (Nat.eqb_spec n 0) as [|Hn]; [discriminate|]. intros [= <-].
  assert (Hpos : 0 < inject_Z (Z.of_nat n)).
  { change 0 with (inject_Z 0). rewrite <- Zlt_Qlt. lia. }
  assert (Hs : 0 <= s) by (apply (abs_fold_nonneg (parameters model) 0); apply Qle_refl).
  rewrite rdiv_correct. split.
  - apply Qle_shift_div_l; [exact Hpos | lra].
  - pose proof (abs_fold_zero (parameters model) 0 (Qle_refl 0)) as Hz. fold s in Hz.
    split.
    + intros H. apply Hz.
      setoid_replace s with (s / inject_Z (Z.of_nat n) * inject_Z (Z.of_nat n))
        by (field; lra).
      rewrite H. ring.
    + intros H. assert (Hs0 : s == 0) by (apply Hz; split; [reflexivity | exact H]).
      rewrite Hs0. field. lra.
Qed.

(** ** The observation stored at the end of an episode *)

Lemma patch_rows_no_done : forall ds rows infs,
  Forall (fun d => d = false) ds -> patch_rows rows ds infs = Some rows.
Proof.
  induction ds as [|d ds IH]; intros rows infs H; [reflexivity|].
  inversion H as [|? ? Hd Hds]; subst. cbn [patch_rows].
  rewrite IH by exact Hds. cbn [bind]. destruct rows; reflexivity.
Qed.

(** X7.  While no environment reports the end of an episode, the next
    observation stored in the replay buffer is the one the environment
    returned. *)
Theorem real_next_obs_running r :
  well_formed (next_obs r) -> shape (next_obs r) <> [] ->
  Forall (fun d => d = false) (step_dones r) ->
  real_next_obs r = Some (next_obs r).
Proof.
  intros Hw Hs Hd. unfold real_next_obs.
  destruct (next_obs r) as [sh dat] eqn:E. cbn [shape data] in *.
  destruct sh as [|n s]; [contradiction|].
  rewrite patch_rows_no_done by exact Hd. cbn [bind].
  rewrite concat_chunks; [reflexivity|]. exact Hw.
Qed.

(** X8.  A single environment at the end of an episode.  The stored next
    observation is the terminal observation of the info, not the observation
    returned after the reset; without a terminal observation in the info the
    step raises. *)
Theorem real_next_obs_done k (reset : list Q) (terminal : tensor Q) rewards0 :
  shape terminal = [k] ->
  real_next_obs (mkStepResult (mkTensor [1%nat; k] reset) rewards0 [true] [Some terminal])
  = Some (unsqueeze0 terminal) /\
  real_next_obs (mkStepResult (mkTensor [1%nat; k] reset) rewards0 [true] [None]) = None.
Proof.
  intros Hs. unfold real_next_obs, unsqueeze0.
  cbn [next_obs step_dones infos shape data chunks patch_rows tl bind concat].
  rewrite Hs, app_nil_r. split; reflexivity.
Qed.

(** ** The actor's output stays within the action bounds *)

(** [Actor.__init__], lines 115-117: the names and shapes of the actor's
    parameters. *)
Definition Actor_shapes (obs_shape act_shape : list nat) : list (string * list nat) :=
  Linear_shapes "fc1.weight" "fc1.bias" (numel obs_shape) 256
  ++ Linear_shapes "fc2.weight" "fc2.bias" 256 256
  ++ Linear_shapes "fc_mu.weight" "fc_mu.bias" 256 (numel act_shape).

(** ** Broadcasting against a tensor of one entry *)

Lemma broadcast_rev_nil_r l : broadcast_rev l [] = Some l.
Proof. destruct l; reflexivity. Qed.

Lemma broadcast_shapes_one s :
  broadcast_shapes s [1%nat] = Some (match s with [] => [1%nat] | _ => s end).
Proof.
  destruct s as [|x0 s0]; [reflexivity|].
  destruct (exists_last (l := x0 :: s0)) as (s1 & x & E); [discriminate|].
  rewrite E. unfold broadcast_shapes. rewrite rev_app_distr. cbn [rev app].
  rewrite broadcast_rev_cons, broadcast_rev_nil_r.
  assert (R : forall l : list nat, rev (x :: rev s1) = s1 ++ [x]).
  { intros _. cbn [rev]. now rewrite rev_involutive. }
  destruct (x =? 1)%nat eqn:E1; [apply Nat.eqb_eq in E1; subst x|];
    cbn [option_map Nat.eqb]; rewrite (R []); destruct s1; reflexivity.
Qed.

Lemma broadcast2_one_defined {A B C} (f : A -> B -> C) (a : tensor A) (b : tensor B) :
  shape b = [1%nat] ->
  exists r, broadcast2 f a b = Some r /\
            shape r = match shape a with [] => [1%nat] | _ => shape a end.
Proof.
  intros Hb. unfold broadcast2. rewrite Hb, broadcast_shapes_one.
  eexists. split; reflexivity.
Qed.

(** ** The direction handed to the momentum's optimizer *)

(** The inner product of two flat vectors, and of two lists of tensors taken
    pairwise. *)
Definition vdot (u v : list Q) : Q := sum_all (map2 rmul u v).


Lemma map2_nil_r {A B C} (f : A -> B -> C) l : map2 f l [] = [].
Proof. unfold map2. now rewrite combine_nil. Qed.

Lemma map2_app {A B C} (f : A -> B -> C) (u : list A) U : forall v,
  map2 f (u ++ U) v = map2 f u (firstn (length u) v) ++ map2 f U (skipn (length u) v).
Proof.
  induction u as [|x u IH]; intros v; [reflexivity|].
  destruct v as [|y v]; cbn [app length firstn skipn].
  - now rewrite !map2_nil_r.
  - rewrite !map2_cons, IH. reflexivity.
Qed.

Lemma map2_repeat_l {A B C} (f : A -> B -> C) x : forall (row : list B),
  map2 f (repeat x (length row)) row = map (f x) row.
Proof.
  induction row as [|y row IH]; [reflexivity|].
  cbn [length repeat map]. now rewrite map2_cons, IH.
Qed.

Lemma firstn_app_exact {A} (u U : list A) k : length u = k -> firstn k (u ++ U) = u.
Proof. intros <-. rewrite firstn_app, Nat.sub_diag, firstn_all. cbn. apply app_nil_r. Qed.

Lemma skipn_app_exact {A} (u U : list A) k : length u = k -> skipn k (u ++ U) = U.
Proof. intros <-. rewrite skipn_app, Nat.sub_diag, skipn_all. reflexivity. Qed.

(** Rows of a product with a vector repeated for every row. *)
Lemma chunks_map2_repeat {A B C} (f : A -> B -> C) (u : list A) : forall n (v : list B),
  length v = (n * length u)%nat ->
  chunks (length u) n (map2 f (concat (repeat u n)) v)
  = map (map2 f u) (chunks (length u) n v).
Proof.
  induction n as [|n IH]; intros v Hv; [reflexivity|].
  cbn [repeat concat chunks map]. rewrite map2_app.
  assert (Hl : length (map2 f u (firstn (length u) v)) = length u).
  { apply map2_length. rewrite length_firstn. simpl in Hv. lia. }
  rewrite (firstn_app_exact _ _ _ Hl), (skipn_app_exact _ _ _ Hl).
  rewrite IH; [reflexivity|]. rewrite length_skipn. simpl in Hv. lia.
Qed.

(** Rows of a product with a column: row [i] is scaled by the entry [i]. *)
Lemma chunks_map2_column {A B C} (f : A -> B -> C) k : forall (c : list A) (v : list B),
  length v = (length c * k)%nat ->
  chunks k (length c) (map2 f (concat (map (fun x => repeat x k) c)) v)
  = map2 (fun x row => map (f x) row) c (chunks k (length c) v).
Proof.
  induction c as [|x c IH]; intros v Hv; [reflexivity|].
  cbn [length map concat chunks]. rewrite map2_app, repeat_length, map2_cons.
  assert (Hf : length (firstn k v) = k) by (rewrite length_firstn; simpl in Hv; lia).
  assert (Hl : length (map2 f (repeat x k) (firstn k v)) = k).
  { rewrite map2_length; rewrite repeat_length; congruence. }
  rewrite (firstn_app_exact _ _ _ Hl), (skipn_app_exact _ _ _ Hl).
  rewrite IH by (rewrite length_skipn; simpl in Hv; lia).
  f_equal. rewrite <- Hf at 1. apply map2_repeat_l.
Qed.

Lemma chunks_singletons {A} : forall (d : list A),
  chunks 1 (length d) d = map (fun x => [x]) d.
Proof. induction d as [|x d IH]; [reflexivity|]. cbn. now rewrite IH. Qed.

Lemma concat_singletons {A B} (f : A -> B) l : concat (map (fun b => [f b]) l) = map f l.
Proof. induction l as [|x l IH]; [reflexivity|]. cbn. now rewrite IH. Qed.

Lemma vsum_singletons : forall blk, vsum 1 (chunks 1 (length blk) blk) = [sum_all blk].
Proof.
  induction blk as [|x blk IH]; [reflexivity|].
  cbn [length chunks firstn skipn]. unfold vsum in *. cbn [fold_right].
  rewrite IH. reflexivity.
Qed.

(** [m.unsqueeze(0)] expanded over [n] rows. *)
Lemma expand_unsqueezed {A} (m : tensor A) n :
  well_formed m ->
  data (expand (unsqueeze0 m) (n :: shape m)) = concat (repeat (data m) n).
Proof.
  intros Hm. unfold expand, unsqueeze0, pad_shape. cbn [shape data length].
  rewrite Nat.sub_diag. cbn [repeat app expand_data chunks map hd].
  unfold well_formed in Hm. rewrite <- Hm, firstn_all, expand_data_id by exact Hm.
  destruct (1 =? n)%nat eqn:E; [|reflexivity].
  apply Nat.eqb_eq in E. subst n. reflexivity.
Qed.

Lemma expand_data_ones {A} (x : A) : forall s,
  expand_data (repeat 1%nat (length s)) s [x] = repeat x (numel s).
Proof.
  induction s as [|m s IH]; [reflexivity|].
  cbn [length repeat expand_data numel fold_right].
  change (fold_right Nat.mul 1%nat (repeat 1%nat (length s))) with (numel (repeat 1%nat (length s))).
  rewrite <- (app_nil_r (repeat 1%nat (length s))), numel_ones.
  change (numel []) with 1%nat. cbn [chunks firstn skipn map hd].
  rewrite app_nil_r, IH. change (fold_right Nat.mul 1%nat s) with (numel s).
  destruct (1 =? m)%nat eqn:E.
  - apply Nat.eqb_eq in E. subst m. cbn [concat]. now rewrite app_nil_r, Nat.mul_1_l.
  - clear. induction m as [|m IH]; [reflexivity|].
    cbn [repeat concat]. rewrite IH, <- repeat_app. reflexivity.
Qed.

(** A column of [n] entries expanded over rows of shape [s]. *)
Lemma expand_column {A} (c : tensor A) s :
  shape c = length (data c) :: repeat 1%nat (length s) ->
  data (expand c (length (data c) :: s))
  = concat (map (fun x => repeat x (numel s)) (data c)).
Proof.
  intros Hc. unfold expand, pad_shape. cbn [data length]. rewrite Hc.
  cbn [length]. rewrite repeat_length, Nat.sub_diag. cbn [repeat app expand_data].
  rewrite Nat.eqb_refl.
  rewrite <- (app_nil_r (repeat 1%nat (length s))), numel_ones.
  change (numel []) with 1%nat. rewrite chunks_singletons, map_map, app_nil_r.
  f_equal. apply map_ext. intros x. apply expand_data_ones.
Qed.

(** One pass of lines 295-304 adds to entry [i] of [m_nabla_delta] the inner
    product of the momentum tensor with sample [i]'s gradient. *)
Lemma projection_step_data n gs acc name m g :
  n <> 0%nat -> shape acc = [n] -> length (data acc) = n ->
  lookup name gs = Some g -> shape g = n :: shape m ->
  well_formed m -> well_formed g ->
  projection_step n gs acc name m
  = Some (mkTensor [n]
            (map2 radd (data acc)
               (map (vdot (data m)) (chunks (numel (shape m)) n (data g))))).
Proof.
  intros Hn Ha Hal Hl Hg Hm Hgw. unfold projection_step. rewrite Hl. cbn [bind].
  unfold tmul, broadcast2. cbn [unsqueeze0 shape]. rewrite Hg, broadcast_shapes_unsqueezed.
  cbn [bind].
  change (mkTensor (1%nat :: shape m) (data m)) with (unsqueeze0 m).
  rewrite expand_unsqueezed by exact Hm.
  rewrite <- Hg, expand_same by exact Hgw. rewrite Hg.
  rewrite reshape_rows with (n := n) (s := shape m) by (reflexivity || exact Hn).
  cbn [bind data]. unfold sum1. cbn [shape data bind].
  change (numel []) with 1%nat. rewrite Nat.mul_1_r.
  assert (Hgl : length (data g) = (n * length (data m))%nat).
  { unfold well_formed in Hgw, Hm. rewrite Hgw, Hg, Hm. reflexivity. }
  unfold well_formed in Hm. rewrite <- Hm.
  rewrite chunks_map2_repeat by exact Hgl.
  rewrite map_map.
  assert (Hrows : Forall (fun row => length row = length (data m))
                    (chunks (length (data m)) n (data g)))
    by (apply chunks_each; exact Hgl).
  rewrite (map_ext_in _ (fun row => [vdot (data m) row])).
  - rewrite concat_singletons.
    unfold iadd, tadd. rewrite broadcast2_same.
    + cbn [shape data]. rewrite Ha, shape_eqb_refl. reflexivity.
    + exact Ha.
    + unfold well_formed. rewrite Ha, Hal. cbn. lia.
    + unfold well_formed. cbn [data shape]. rewrite length_map, chunks_length. cbn. lia.
  - intros row Hin. rewrite Forall_forall in Hrows. specialize (Hrows row Hin).
    unfold vdot.
    rewrite <- (map2_length rmul (data m) row) at 1 by (symmetry; exact Hrows).
    apply vsum_singletons.
Qed.

(** Line 318 for a column [c] of [n] entries: entry [e] of the result is the
    mean over the samples [i] of [c[i]] times entry [e] of sample [i]'s
    gradient. *)
Lemma reshaped_gradient_data c g s :
  shape c = length (data c) :: repeat 1%nat (length s) ->
  shape g = length (data c) :: s -> well_formed g ->
  reshaped_gradient c g
  = Some (tscale (rdiv 1 (inject_Z (Z.of_nat (length (data c)))))
            (mkTensor s
               (vsum (numel s)
                  (map2 (fun x row => map (rmul x) row) (data c)
                     (chunks (numel s) (length (data c)) (data g)))))).
Proof.
  intros Hc Hg Hgw. unfold reshaped_gradient, tmul, broadcast2.
  rewrite Hc at 1. rewrite Hg at 1. rewrite broadcast_shapes_column. cbn [bind].
  rewrite expand_column by exact Hc.
  rewrite <- Hg, expand_same by exact Hgw. rewrite Hg.
  unfold mean0, sum0. cbn [shape data].
  rewrite chunks_map2_column; [reflexivity|].
  unfold well_formed in Hgw. rewrite Hgw, Hg. reflexivity.
Qed.

(** *** Algebra of the inner product *)














(** ** A zero momentum *)

(** The momentum tensor [m] pairs with the parameter [p]: same shape, and the
    per-sample gradients hold under [p]'s name a well-formed tensor of [n]
    gradients of that shape. *)
Definition paired (n : nat) (gs : state_dict Q) (m p : string * tensor Q) : Prop :=
  shape (snd m) = shape (snd p) /\ well_formed (snd m) /\
  (rank (snd p) = 1%nat \/ rank (snd p) = 2%nat) /\
  exists g, lookup (fst p) gs = Some g /\ shape g = n :: shape (snd p) /\ well_formed g.

Lemma zero_is_repeat (l : list Q) k :
  Forall (fun q => q = 0) l -> length l = k -> l = repeat 0 k.
Proof.
  intros HF <-. induction HF as [|x l Hx HF IH]; [reflexivity|].
  cbn [length repeat]. now rewrite Hx, <- IH.
Qed.

Lemma projection_loop_zero_column n gs : n <> 0%nat ->
  forall ms ps acc,
  Forall2 (paired n gs) ms ps ->
  Forall (fun m => all_zero (snd m)) ms ->
  shape acc = [n] -> length (data acc) = n -> all_zero acc ->
  exists c, projection_loop n gs acc ms ps = Some c /\
            shape c = [n] /\ length (data c) = n /\ all_zero c.
Proof.
  intros Hn ms ps acc H. revert acc.
  induction H as [|m p ms ps (Hmp & Hmw & _ & g & Hl & Hg & Hgw) H IH];
    intros acc Hz Ha Hal Haz.
  - exists acc. repeat split; assumption.
  - cbn [projection_loop].
    rewrite <- Hmp in Hg.
    rewrite (projection_step_data n gs acc (fst p) (snd m) g Hn Ha Hal Hl Hg Hmw Hgw).
    cbn [bind]. apply IH.
    + exact (Forall_inv_tail Hz).
    + reflexivity.
    + cbn [data]. rewrite map2_length; rewrite ?length_map, ?chunks_length; congruence.
    + eapply projection_step_zero; [exact Haz | exact (Forall_inv Hz) |].
      apply (projection_step_data n gs acc (fst p) (snd m) g Hn Ha Hal Hl Hg Hmw Hgw).
Qed.

Lemma zero_scaled_rows k : forall (rows : list (list Q)) (c : list Q),
  Forall (fun q => q = 0) c -> Forall (fun row => length row = k) rows ->
  length c = length rows ->
  map2 (fun x row => map (rmul x) row) c rows = repeat (repeat 0 k) (length rows).
Proof.
  induction rows as [|row rows IH]; intros [|x c] Hc Hr Hl; try discriminate; [reflexivity|].
  rewrite map2_cons. cbn [length repeat].
  rewrite (Forall_inv Hc).
  rewrite IH by (try exact (Forall_inv_tail Hc); try exact (Forall_inv_tail Hr);
                 simpl in Hl; lia).
  f_equal. apply zero_is_repeat.
  - apply Forall_map, Forall_forall. intros y _. apply rmul_0_l.
  - rewrite length_map. exact (Forall_inv Hr).
Qed.

Lemma vsum_zero_rows k n : vsum k (repeat (repeat 0 k) n) = repeat 0 k.
Proof.
  unfold vsum. induction n as [|n IH]; [reflexivity|].
  cbn [repeat fold_right]. rewrite IH. clear.
  induction k as [|k IH]; [reflexivity|].
  cbn [repeat]. rewrite map2_cons, IH, radd_0_0. reflexivity.
Qed.

(** Line 318 with a zero column: the zero tensor of the gradients' shape. *)
Lemma reshaped_gradient_zero c g s :
  shape c = length (data c) :: repeat 1%nat (length s) ->
  shape g = length (data c) :: s -> well_formed g -> all_zero c ->
  reshaped_gradient c g = Some (zeros s).
Proof.
  intros Hc Hg Hgw Hz. rewrite (reshaped_gradient_data c g s Hc Hg Hgw).
  unfold tscale, zeros, full. cbn [shape data]. do 2 f_equal.
  assert (Hrows : Forall (fun row => length row = numel s)
                    (chunks (numel s) (length (data c)) (data g))).
  { apply chunks_each. unfold well_formed in Hgw. rewrite Hgw, Hg. reflexivity. }
  rewrite (zero_scaled_rows (numel s)); [| exact Hz | exact Hrows | now rewrite chunks_length].
  rewrite vsum_zero_rows.
  apply zero_is_repeat; [|now rewrite length_map, repeat_length].
  apply Forall_map, Forall_forall. intros y Hy. apply repeat_spec in Hy. subst y.
  apply rmul_0_r.
Qed.

Lemma reshaping_loop_zeros n gs c :
  shape c = [n] -> length (data c) = n -> all_zero c ->
  forall ms ps, Forall2 (paired n gs) ms ps ->
  forall stale, exists stale',
    reshaping_loop gs c stale ms ps
    = Some (map (fun p => zeros (shape (snd p))) ps, stale').
Proof.
  intros Hc Hcl Hz ms ps H.
  induction H as [|m p ms ps (Hmp & Hmw & Hp & g & Hl & Hg & Hgw) H IH]; intros stale.
  - exists stale. reflexivity.
  - cbn [reshaping_loop]. rewrite Hl. cbn [bind].
    assert (Hsc : scaling stale (snd p) c
                  = Some (mkTensor (n :: repeat 1%nat (length (shape (snd p)))) (data c))).
    { unfold scaling. unfold rank in Hp |- *.
      destruct Hp as [Hp|Hp]; rewrite Hp; cbn [Nat.eqb].
      - rewrite reshape_column, Hc. cbn [numel fold_right repeat]. now rewrite Nat.mul_1_r.
      - rewrite reshape_column2, Hc. cbn [numel fold_right repeat]. now rewrite Nat.mul_1_r. }
    rewrite Hsc. cbn [bind].
    rewrite (reshaped_gradient_zero _ g (shape (snd p)))
      by (cbn [shape data]; rewrite ?Hcl; assumption || reflexivity).
    cbn [bind].
    destruct (IH (Some (mkTensor (n :: repeat 1%nat (length (shape (snd p)))) (data c))))
      as (stale' & E).
    rewrite E. cbn [bind fst snd map]. exists stale'. reflexivity.
Qed.

Lemma paired_parameters n gs : forall (ms ps : state_dict Q),
  shapes ms = shapes ps ->
  Forall (fun m => snd m = zeros (shape (snd m))) ms ->
  Forall (fun p => (rank (snd p) = 1%nat \/ rank (snd p) = 2%nat) /\
                   exists g, lookup (fst p) gs = Some g /\
                             shape g = n :: shape (snd p) /\ well_formed g) ps ->
  Forall2 (paired n gs) ms ps.
Proof.
  induction ms as [|m ms IH]; intros [|p ps] Hs Hm Hp; try discriminate Hs; constructor.
  - unfold shapes in Hs. cbn [map] in Hs. injection Hs as _ Hsh _.
    destruct (Forall_inv Hp) as (Hr & Hg). cbn beta in Hg.
    repeat split; try assumption.
    rewrite (Forall_inv Hm). apply zeros_well_formed.
  - apply IH; [| exact (Forall_inv_tail Hm) | exact (Forall_inv_tail Hp)].
    unfold shapes in *. cbn [map] in Hs. now injection Hs.
Qed.

(** C4.  When every tensor of the momentum is the zero tensor of its
    parameter's shape at the time of the reshaping, lines 294-321 are defined
    on every non-empty batch and assign to [m.grad], for every parameter of the
    critic, the zero tensor of that parameter's shape, whatever the per-sample
    gradients [gs] of the batch are. *)
Theorem zero_momentum_zero_gradient obs_shape act_shape batch_size gs stale
  (m_qf1 qf1 : state_dict Q) :
  batch_size <> 0%nat ->
  shapes qf1 = QNetwork_shapes obs_shape act_shape ->
  shapes m_qf1 = shapes qf1 ->
  Forall (fun p => exists g, lookup (fst p) gs = Some g /\
                             shape g = batch_size :: shape (snd p) /\ well_formed g) qf1 ->
  Forall (fun m => snd m = zeros (shape (snd m))) m_qf1 ->
  exists stale',
    reshape_gradients batch_size gs stale m_qf1 qf1
    = Some (map (fun p => zeros (shape (snd p))) qf1, stale').
Proof.
  intros Hn Hq Hs Hg Hm.
  assert (HP : Forall2 (paired batch_size gs) m_qf1 qf1).
  { apply paired_parameters; [exact Hs | exact Hm |].
    pose proof (QNetwork_ranks _ _ _ Hq) as Hr.
    rewrite Forall_forall in *. intros p Hp. split; [now apply Hr | now apply Hg]. }
  assert (Hz : Forall (fun m => all_zero (snd m)) m_qf1).
  { eapply Forall_impl; [|exact Hm]. intros m E. cbn beta in E. rewrite E.
    unfold all_zero, zeros, full. cbn [data]. now apply repeat_Forall. }
  destruct (projection_loop_zero_column batch_size gs Hn m_qf1 qf1 (zeros [batch_size]) HP Hz)
    as (c & Hc & Hcs & Hcl & Hcz).
  - reflexivity.
  - cbn [zeros full data]. rewrite repeat_length. cbn. lia.
  - unfold all_zero, zeros, full. cbn [data]. now apply repeat_Forall.
  - unfold reshape_gradients. rewrite Hc. cbn [bind].
    apply (reshaping_loop_zeros batch_size gs c Hcs Hcl Hcz m_qf1 qf1 HP).
Qed.

(** ** The batch gradient and the per-sample gradients *)

(** One row through a layer [F.linear(x, W, b)] with [W] of shape [out, inp],
    and through the three layers of the critic. *)
Definition affine {S} `{Scalar S} (inp out : nat) (W b : tensor S) (xr : list S) : list S :=
  map2 sadd (map (dot xr) (chunks inp out (data W))) (data b).

Definition critic_row {S} `{Scalar S} (params : state_dict S) (inp : nat) (row : list S)
  : list S :=
  affine 256 1 (param params "fc3.weight") (param params "fc3.bias")
    (map srelu
       (affine 256 256 (param params "fc2.weight") (param params "fc2.bias")
          (map srelu
             (affine inp 256 (param params "fc1.weight") (param params "fc1.bias") row)))).

Lemma linear_data {S} `{Scalar S} (W b x : tensor S) out inp n k :
  shape W = [out; inp] -> shape x = [n; k] ->
  data (linear W b x) = concat (map (affine inp out W b) (chunks inp n (data x))).
Proof. intros HW Hx. unfold linear. rewrite HW, Hx. reflexivity. Qed.

Lemma affine_length {S} `{Scalar S} inp out (W b : tensor S) xr :
  length (data b) = out -> length (affine inp out W b xr) = out.
Proof.
  intros Hb. unfold affine.
  rewrite map2_length; rewrite length_map, chunks_length; [reflexivity | now symmetry].
Qed.

Lemma chunks_concat {A} k n : forall rows : list (list A),
  length rows = n ->
  Forall (fun r => length r = k) rows -> chunks k n (concat rows) = rows.
Proof.
  intros rows <-. induction rows as [|r rows IH]; intros HF; [reflexivity|].
  pose proof (Forall_inv HF) as Hr. pose proof (Forall_inv_tail HF) as HF'. cbn beta in Hr.
  cbn [length concat chunks].
  rewrite (firstn_app_exact _ _ _ Hr), (skipn_app_exact _ _ _ Hr), IH by exact HF'.
  reflexivity.
Qed.

Lemma chunks_map {A B} (f : A -> B) k : forall n (l : list A),
  chunks k n (map f l) = map (map f) (chunks k n l).
Proof.
  induction n as [|n IH]; intros l; [reflexivity|].
  cbn [chunks map]. now rewrite firstn_map, skipn_map, IH.
Qed.

Lemma map2_app_rows {A} k1 k2 : forall (xs as_ : list (list A)),
  Forall (fun r => length r = k1) xs -> Forall (fun r => length r = k2) as_ ->
  Forall (fun r => length r = (k1 + k2)%nat) (map2 (@app A) xs as_).
Proof.
  induction xs as [|x xs IH]; intros [|a as_] Hx Ha; try constructor.
  - rewrite length_app. f_equal; [exact (Forall_inv Hx) | exact (Forall_inv Ha)].
  - apply IH; [exact (Forall_inv_tail Hx) | exact (Forall_inv_tail Ha)].
Qed.

(** The critic works row by row. *)
Lemma QNetwork_forward_data {S} `{Scalar S} obs_shape act_shape
  (params : state_dict S) (x a : tensor S) n k1 n' k2 :
  shapes params = QNetwork_shapes obs_shape act_shape ->
  length (data (param params "fc1.bias")) = 256%nat ->
  length (data (param params "fc2.bias")) = 256%nat ->
  shape x = [n; k1] -> shape a = [n'; k2] ->
  length (data x) = (n * k1)%nat -> length (data a) = (n * k2)%nat ->
  (k1 + k2 = numel obs_shape + numel act_shape)%nat ->
  data (QNetwork_forward params x a)
  = concat (map (critic_row params (k1 + k2))
              (map2 (@app S) (chunks k1 n (data x)) (chunks k2 n (data a)))).
Proof.
  intros Hs Hb1 Hb2 Hx Ha Hxl Hal Hk.
  destruct params as [|[n1 t1] [|[n2 t2] [|[n3 t3] [|[n4 t4] [|[n5 t5] [|[n6 t6] [|]]]]]]];
    try discriminate Hs.
  unfold shapes, QNetwork_shapes, Linear_shapes in Hs. cbn [map app fst snd] in Hs.
  injection Hs as -> H1 -> H2 -> H3 -> H4 -> H5 -> H6.
  unfold critic_row, QNetwork_forward, param in *.
  cbn [lookup String.eqb Ascii.eqb Bool.eqb] in *.
  set (rows0 := map2 (@app S) (chunks k1 n (data x)) (chunks k2 n (data a))).
  assert (Hn0 : length rows0 = n).
  { unfold rows0. rewrite map2_length; rewrite !chunks_length; reflexivity. }
  assert (HF0 : Forall (fun r => length r = (k1 + k2)%nat) rows0).
  { apply map2_app_rows; apply chunks_each; assumption. }
  assert (E0 : cat1 x a = mkTensor [n; (k1 + k2)%nat] (concat rows0)).
  { unfold cat1. rewrite Hx, Ha. reflexivity. }
  rewrite E0. clear E0.
  rewrite <- Hk in H1.
  set (h0 := mkTensor [n; (k1 + k2)%nat] (concat rows0)).
  set (f1 := fun r => map srelu (affine (k1 + k2) 256 t1 t2 r)).
  set (f2 := fun r => map srelu (affine 256 256 t3 t4 (f1 r))).
  set (h1 := tmap srelu (linear t1 t2 h0)).
  assert (S1 : shape h1 = [n; 256%nat]).
  { unfold h1. cbn [tmap shape]. eapply linear_shape; [exact H1 | reflexivity]. }
  assert (E1 : data h1 = concat (map f1 rows0)).
  { unfold h1. cbn [tmap data].
    rewrite (linear_data _ _ h0 256%nat (k1 + k2)%nat n (k1 + k2)%nat H1 eq_refl).
    unfold h0. cbn [data]. rewrite (chunks_concat _ n rows0 Hn0 HF0).
    rewrite concat_map, map_map. reflexivity. }
  set (h2 := tmap srelu (linear t3 t4 h1)).
  assert (S2 : shape h2 = [n; 256%nat]).
  { unfold h2. cbn [tmap shape]. eapply linear_shape; [exact H3 | exact S1]. }
  assert (E2 : data h2 = concat (map f2 rows0)).
  { unfold h2. cbn [tmap data].
    rewrite (linear_data _ _ h1 256%nat 256%nat n 256%nat H3 S1), E1.
    rewrite (chunks_concat _ n (map f1 rows0)).
    - rewrite concat_map, !map_map. reflexivity.
    - now rewrite length_map.
    - apply Forall_map, Forall_forall. intros r _. unfold f1.
      now rewrite length_map, affine_length. }
  rewrite (linear_data _ _ h2 1%nat 256%nat n 256%nat H5 S2), E2.
  rewrite (chunks_concat _ n (map f2 rows0)).
  - rewrite map_map. reflexivity.
  - now rewrite length_map.
  - apply Forall_map, Forall_forall. intros r _. unfold f2.
    now rewrite length_map, affine_length.
Qed.

(** The critic's value of one row. *)
Definition critic_value {S} `{Scalar S} (params : state_dict S) (inp : nat) (xr ar : list S) : S :=
  hd (sconst 0) (critic_row params inp (xr ++ ar)).

Lemma critic_row_single {S} `{Scalar S} (params : state_dict S) inp row :
  length (data (param params "fc3.bias")) = 1%nat ->
  critic_row params inp row = [hd (sconst 0) (critic_row params inp row)].
Proof.
  intros Hb.
  assert (Hl : length (critic_row params inp row) = 1%nat)
    by (unfold critic_row; now apply affine_length).
  destruct (critic_row params inp row) as [|v [|w l]]; try discriminate. reflexivity.
Qed.

Lemma QNetwork_forward_values {S} `{Scalar S} obs_shape act_shape
  (params : state_dict S) (x a : tensor S) n k1 n' k2 :
  shapes params = QNetwork_shapes obs_shape act_shape ->
  length (data (param params "fc1.bias")) = 256%nat ->
  length (data (param params "fc2.bias")) = 256%nat ->
  length (data (param params "fc3.bias")) = 1%nat ->
  shape x = [n; k1] -> shape a = [n'; k2] ->
  length (data x) = (n * k1)%nat -> length (data a) = (n * k2)%nat ->
  (k1 + k2 = numel obs_shape + numel act_shape)%nat ->
  data (QNetwork_forward params x a)
  = map2 (critic_value params (k1 + k2)) (chunks k1 n (data x)) (chunks k2 n (data a)).
Proof.
  intros Hs Hb1 Hb2 Hb3 Hx Ha Hxl Hal Hk.
  rewrite (QNetwork_forward_data obs_shape act_shape params x a n k1 n' k2) by assumption.
  rewrite (map_ext _ (fun r => [hd (sconst 0) (critic_row params (k1 + k2) r)]))
    by (intros r; now apply critic_row_single).
  rewrite concat_singletons. unfold map2. rewrite map_map. reflexivity.
Qed.

Lemma chunks_one {A} k (l : list A) : length l = k -> chunks k 1 l = [l].
Proof. intros <-. cbn [chunks]. now rewrite firstn_all. Qed.

Lemma nth_chunks_map {A B} (f : A -> B) k n l i :
  nth i (chunks k n (map f l)) [] = map f (nth i (chunks k n l) []).
Proof. rewrite chunks_map. apply (map_nth (map f) (chunks k n l) [] i). Qed.

Lemma nth_chunks_length {A} k n (l : list A) i :
  length l = (n * k)%nat -> (i < n)%nat -> length (nth i (chunks k n l) []) = k.
Proof.
  intros Hl Hi. pose proof (chunks_each k n l Hl) as HF. rewrite Forall_forall in HF.
  apply HF, nth_In. now rewrite chunks_length.
Qed.

Lemma nth_chunks_1 {A} (d0 : A) n (l : list A) i :
  length l = n -> (i < n)%nat -> nth i (chunks 1 n l) [] = [nth i l d0].
Proof.
  intros <- Hi. rewrite chunks_singletons.
  rewrite (nth_indep _ [] [d0]) by (now rewrite length_map).
  apply (map_nth (fun x => [x]) l d0 i).
Qed.

Lemma nth_map_seq {A} (F : nat -> A) n i d : (i < n)%nat -> nth i (map F (seq 0 n)) d = F i.
Proof.
  intros Hi. rewrite (nth_indep _ d (F 0%nat)) by (now rewrite length_map, length_seq).
  rewrite (map_nth F (seq 0 n) 0%nat i), seq_nth by exact Hi. reflexivity.
Qed.

Lemma list_as_seq {A} (l : list A) n d :
  length l = n -> map (fun i => nth i l d) (seq 0 n) = l.
Proof.
  intros Hl. apply (nth_ext _ _ d d).
  - now rewrite length_map, length_seq.
  - intros i Hi. rewrite length_map, length_seq in Hi.
    exact (nth_map_seq (fun j => nth j l d) n i d Hi).
Qed.

Lemma combine_map_same {A B C} (f : A -> B) (g : A -> C) l :
  combine (map f l) (map g l) = map (fun x => (f x, g x)) l.
Proof. induction l as [|x l IH]; [reflexivity|]. cbn. now rewrite IH. Qed.

Section BatchGradient.

Context {S : Type} `{Scalar S}.
Variables obs_shape act_shape : list nat.
Variable target_actor : tensor Q -> tensor Q.
Variable gamma0 : Q.
Variable params : state_dict S.
Variable b : Batch.
Variables n k1 k2 : nat.

Hypothesis Hs : shapes params = QNetwork_shapes obs_shape act_shape.
Hypothesis Hb1 : length (data (param params "fc1.bias")) = 256%nat.
Hypothesis Hb2 : length (data (param params "fc2.bias")) = 256%nat.
Hypothesis Hb3 : length (data (param params "fc3.bias")) = 1%nat.
Hypothesis Hk : (k1 + k2 = numel obs_shape + numel act_shape)%nat.
Hypothesis HO : shape (observations b) = [n; k1].
Hypothesis HOw : well_formed (observations b).
Hypothesis HA : shape (actions b) = [n; k2].
Hypothesis HAw : well_formed (actions b).
Hypothesis HN : shape (next_observations b) = [n; k1].
Hypothesis HNw : well_formed (next_observations b).
Hypothesis HR : shape (rewards b) = [n; 1%nat].
Hypothesis HRw : well_formed (rewards b).
Hypothesis HD : shape (dones b) = [n; 1%nat].
Hypothesis HDw : well_formed (dones b).
Hypothesis HT : shape (target_actor (next_observations b)) = [n; k2].
Hypothesis HTw : well_formed (target_actor (next_observations b)).
Hypothesis Hrow : forall i, (i < n)%nat ->
  target_actor (mkTensor [1%nat; k1] (nth i (chunks k1 n (data (next_observations b))) []))
  = mkTensor [1%nat; k2]
      (nth i (chunks k2 n (data (target_actor (next_observations b)))) []).

(** The critic's value and the bootstrapped target of transition [i]. *)
Definition row_value (i : nat) : S :=
  critic_value params (k1 + k2)
    (map sconst (nth i (chunks k1 n (data (observations b))) []))
    (map sconst (nth i (chunks k2 n (data (actions b))) [])).

Definition row_target (i : nat) : S :=
  sadd (sconst (nth i (data (rewards b)) 0))
    (smul (smul (ssub (sconst 1) (sconst (nth i (data (dones b)) 0))) (sconst gamma0))
       (critic_value params (k1 + k2)
          (map sconst (nth i (chunks k1 n (data (next_observations b))) []))
          (map sconst (nth i (chunks k2 n (data (target_actor (next_observations b)))) [])))).

Lemma length_rows_1 (t : tensor Q) : shape t = [n; 1%nat] -> well_formed t -> length (data t) = n.
Proof. intros Ht Hw. unfold well_formed in Hw. rewrite Hw, Ht. cbn. lia. Qed.

Lemma length_rows (t : tensor Q) k :
  shape t = [n; k] -> well_formed t -> length (data t) = (n * k)%nat.
Proof. intros Ht Hw. unfold well_formed in Hw. rewrite Hw, Ht. cbn. lia. Qed.

(** Lines 262-268 transition by transition. *)
Lemma qf1_loss_rows :
  qf1_loss target_actor gamma0 params b
  = smul (sconst (rdiv 1 (inject_Z (Z.of_nat n))))
      (fold_right sadd (sconst 0)
         (map (fun i => smul (ssub (row_value i) (row_target i))
                             (ssub (row_value i) (row_target i)))
              (seq 0 n))).
Proof.
  unfold qf1_loss. cbv zeta.
  assert (E : map2 ssub
                (data (flatten (QNetwork_forward params (lift (observations b))
                                  (lift (actions b)))))
                (map2 sadd (data (lift (flatten (rewards b))))
                   (map2 smul
                      (map (fun d => smul (ssub (sconst 1) d) (sconst gamma0))
                         (data (lift (flatten (dones b)))))
                      (data (flatten
                               (QNetwork_forward params (lift (next_observations b))
                                  (lift (target_actor (next_observations b))))))))
              = map (fun i => ssub (row_value i) (row_target i)) (seq 0 n)).
  { cbn [flatten lift tmap data].
    rewrite (QNetwork_forward_values obs_shape act_shape params _ _ n k1 n k2);
      try assumption; cbn [lift tmap shape data]; rewrite ?length_map;
      auto using length_rows.
    rewrite (QNetwork_forward_values obs_shape act_shape params _ _ n k1 n k2);
      try assumption; cbn [lift tmap shape data]; rewrite ?length_map;
      auto using length_rows.
    pose proof (length_rows_1 _ HR HRw) as HRl. pose proof (length_rows_1 _ HD HDw) as HDl.
    assert (Hv : forall (x a : list S), length (map2 (critic_value params (k1 + k2))
                   (chunks k1 n x) (chunks k2 n a)) = n).
    { intros x a. rewrite map2_length; now rewrite !chunks_length. }
    assert (Hm : length (map2 smul
                   (map (fun d => smul (ssub (sconst 1) d) (sconst gamma0))
                      (map sconst (data (dones b))))
                   (map2 (critic_value params (k1 + k2))
                      (chunks k1 n (map sconst (data (next_observations b))))
                      (chunks k2 n (map sconst (data (target_actor (next_observations b)))))))
                 = n).
    { rewrite map2_length; rewrite !length_map, ?Hv; congruence. }
    apply (nth_ext _ _ (sconst 0) (sconst 0)).
    - rewrite length_map, length_seq, map2_length; rewrite Hv; [reflexivity|].
      rewrite map2_length; rewrite length_map; congruence.
    - intros i Hi.
      rewrite map2_length in Hi
        by (rewrite Hv, map2_length; rewrite length_map; congruence).
      rewrite Hv in Hi.
      rewrite nth_map_seq by exact Hi.
      rewrite (nth_map2 _ (sconst 0) (sconst 0))
        by (rewrite ?Hv, ?map2_length; rewrite ?length_map; congruence || lia).
      rewrite (nth_map2 _ [] []) by (now rewrite chunks_length).
      rewrite (nth_map2 _ (sconst 0) (sconst 0))
        by (rewrite ?Hm, ?length_map; congruence || lia).
      rewrite (nth_map2 _ (smul (ssub (sconst 1) (sconst 0)) (sconst gamma0)) (sconst 0))
        by (rewrite ?Hv, ?length_map; congruence || lia).
      rewrite (nth_map2 _ [] []) by (now rewrite chunks_length).
      rewrite !nth_chunks_map.
      rewrite (map_nth (fun d => smul (ssub (sconst 1) d) (sconst gamma0))
                 (map sconst (data (dones b))) (sconst 0) i).
      rewrite !(map_nth sconst _ 0 i).
      reflexivity. }
  rewrite E, length_map, length_seq, map_map. reflexivity.
Qed.

(** The transitions of the batch, as [vmap] hands them to [compute_delta]. *)
Definition transition (i : nat) : tensor Q * tensor Q * tensor Q * tensor Q * tensor Q :=
  (mkTensor [k1] (nth i (chunks k1 n (data (observations b))) []),
   mkTensor [k2] (nth i (chunks k2 n (data (actions b))) []),
   mkTensor [1%nat] (nth i (chunks 1 n (data (rewards b))) []),
   mkTensor [k1] (nth i (chunks k1 n (data (next_observations b))) []),
   mkTensor [1%nat] (nth i (chunks 1 n (data (dones b))) [])).

Lemma samples_transitions : samples b = map transition (seq 0 n).
Proof.
  assert (Hu : forall (t : tensor Q) k, shape t = [n; k] ->
             unbind0 t = map (fun i => mkTensor [k] (nth i (chunks k n (data t)) [])) (seq 0 n)).
  { intros t k Ht. unfold unbind0. rewrite Ht. cbn [numel fold_right]. rewrite Nat.mul_1_r.
    rewrite <- (list_as_seq (chunks k n (data t)) n []) at 1 by apply chunks_length.
    now rewrite map_map. }
  unfold samples.
  rewrite (Hu _ _ HO), (Hu _ _ HA), (Hu _ _ HR), (Hu _ _ HN), (Hu _ _ HD).
  rewrite !combine_map_same. reflexivity.
Qed.

(** Lines 203-216 on transition [i]. *)
Lemma compute_delta_row i : (i < n)%nat ->
  (let '(o, a, r, no, d) := transition i in
   compute_delta target_actor gamma0 params o a r no d)
  = sadd (ssub (row_target i) (row_value i)) (sconst 0).
Proof.
  intros Hi. unfold transition, compute_delta. cbv zeta.
  unfold unsqueeze0, flatten, lift, tmap. cbn [data shape].
  rewrite (Hrow i Hi). cbn [data shape].
  pose proof (nth_chunks_length k1 n _ i (length_rows _ _ HO HOw) Hi) as LO.
  pose proof (nth_chunks_length k2 n _ i (length_rows _ _ HA HAw) Hi) as LA.
  pose proof (nth_chunks_length k1 n _ i (length_rows _ _ HN HNw) Hi) as LN.
  pose proof (nth_chunks_length k2 n _ i (length_rows _ _ HT HTw) Hi) as LT.
  rewrite (QNetwork_forward_values obs_shape act_shape params _ _ 1 k1 1 k2);
    try assumption; cbn [shape data]; rewrite ?length_map, ?Nat.mul_1_l;
    try reflexivity; try assumption.
  rewrite (QNetwork_forward_values obs_shape act_shape params _ _ 1 k1 1 k2);
    try assumption; cbn [shape data]; rewrite ?length_map, ?Nat.mul_1_l;
    try reflexivity; try assumption.
  rewrite !chunks_one by (now rewrite length_map).
  rewrite (nth_chunks_1 0 n (data (rewards b)) i (length_rows_1 _ HR HRw) Hi).
  rewrite (nth_chunks_1 0 n (data (dones b)) i (length_rows_1 _ HD HDw) Hi).
  reflexivity.
Qed.

End BatchGradient.

(** *** The derivative of the loss *)

Lemma sum_all_ext (f g : nat -> Q) : forall l,
  (forall i, In i l -> f i == g i) -> sum_all (map f l) == sum_all (map g l).
Proof.
  unfold sum_all. induction l as [|i l IH]; intros Hfg; [reflexivity|].
  cbn [map fold_right]. rnorm.
  rewrite (Hfg i) by (now left). rewrite IH; [reflexivity|].
  intros j Hj. apply Hfg. now right.
Qed.

Lemma sum_all_scale c (f : nat -> Q) : forall l,
  sum_all (map (fun i => c * f i) l) == c * sum_all (map f l).
Proof.
  unfold sum_all. induction l as [|i l IH]; cbn [map fold_right]; [ring|].
  rnorm. rewrite IH. ring.
Qed.

Lemma tangent_sum_squares (d : nat -> dual) : forall l,
  tangent (fold_right sadd (sconst 0) (map (fun i => smul (d i) (d i)) l))
  == sum_all (map (fun i => 2 * (primal (d i) * tangent (d i))) l).
Proof.
  unfold sum_all. induction l as [|i l IH]; [reflexivity|].
  cbn [map fold_right]. rewrite tangent_sadd. rnorm. rewrite IH.
  cbn [smul Scalar_dual dual_mul tangent]. rnorm. ring.
Qed.

(** The derivative of the loss of lines 262-268 along any direction of the
    critic's parameters is twice the mean, over the transitions, of the
    residual times the derivative of the residual. *)
Lemma qf1_loss_tangent obs_shape act_shape target_actor gamma0 (dp : state_dict dual)
  (b : Batch) n k1 k2 :
  shapes dp = QNetwork_shapes obs_shape act_shape ->
  length (data (param dp "fc1.bias")) = 256%nat ->
  length (data (param dp "fc2.bias")) = 256%nat ->
  length (data (param dp "fc3.bias")) = 1%nat ->
  (k1 + k2 = numel obs_shape + numel act_shape)%nat ->
  shape (observations b) = [n; k1] -> well_formed (observations b) ->
  shape (actions b) = [n; k2] -> well_formed (actions b) ->
  shape (next_observations b) = [n; k1] -> well_formed (next_observations b) ->
  shape (rewards b) = [n; 1%nat] -> well_formed (rewards b) ->
  shape (dones b) = [n; 1%nat] -> well_formed (dones b) ->
  shape (target_actor (next_observations b)) = [n; k2] ->
  well_formed (target_actor (next_observations b)) ->
  (forall i, (i < n)%nat ->
     target_actor (mkTensor [1%nat; k1] (nth i (chunks k1 n (data (next_observations b))) []))
     = mkTensor [1%nat; k2]
         (nth i (chunks k2 n (data (target_actor (next_observations b)))) [])) ->
  tangent (qf1_loss target_actor gamma0 dp b)
  == 2 / inject_Z (Z.of_nat n)
     * sum_all (map (fun s => let '(o, a, r, no, d) := s in
                      primal (compute_delta target_actor gamma0 dp o a r no d)
                      * tangent (compute_delta target_actor gamma0 dp o a r no d))
                  (samples b)).
Proof.
  intros Hs Hb1 Hb2 Hb3 Hk HO HOw HA HAw HN HNw HR HRw HD HDw HT HTw Hrow.
  rewrite (qf1_loss_rows obs_shape act_shape target_actor gamma0 dp b n k1 k2)
    by assumption.
  rewrite (samples_transitions b n k1 k2) by assumption.
  rewrite map_map.
  set (q := row_value dp b n k1 k2) in *.
  set (y := row_target target_actor gamma0 dp b n k1 k2) in *.
  rewrite (sum_all_ext _ (fun i => (-1) * (primal (ssub (q i) (y i)) * tangent (ssub (q i) (y i)))
                                   * (-1))).
  - cbn [smul Scalar_dual dual_mul tangent primal sconst].
    rewrite rmul_0_l. rnorm.
    rewrite (tangent_sum_squares (fun i => ssub (q i) (y i))).
    rewrite sum_all_scale.
    rewrite (sum_all_ext (fun i => -1 * (primal (ssub (q i) (y i)) * tangent (ssub (q i) (y i))) * -1)
                         (fun i => 1 * (primal (ssub (q i) (y i)) * tangent (ssub (q i) (y i)))))
      by (intros; ring).
    rewrite sum_all_scale. unfold Qdiv. ring.
  - intros i Hi. apply in_seq in Hi.
    pose proof (compute_delta_row obs_shape act_shape target_actor gamma0 dp b n k1 k2
                  Hs Hb1 Hb2 Hb3 Hk HO HOw HA HAw HN HNw HR HRw HD HDw HT HTw Hrow i
                  ltac:(lia)) as E.
    fold q y in E.
    destruct (transition b n k1 k2 i) as [[[[o a] r] no] d]. rewrite E.
    cbn [sadd ssub sconst Scalar_dual dual_add dual_sub primal tangent].
    rnorm. ring.
Qed.

(** *** Values of a computation on dual numbers *)

(** The parameters a computation on dual numbers was run at. *)
Definition primal_params (dp : state_dict dual) : state_dict Q :=
  map (fun nt => (fst nt, tmap primal (snd nt))) dp.

Lemma map_map2 {A B C D} (g : C -> D) (f : A -> B -> C) l1 l2 :
  map g (map2 f l1 l2) = map2 (fun x y => g (f x y)) l1 l2.
Proof. unfold map2. now rewrite map_map. Qed.

Lemma map2_map {A A' B B' C} (f : A' -> B' -> C) (g : A -> A') (h : B -> B') : forall l1 l2,
  map2 f (map g l1) (map h l2) = map2 (fun x y => f (g x) (h y)) l1 l2.
Proof.
  induction l1 as [|x l1 IH]; intros [|y l2]; try reflexivity.
  cbn [map]. rewrite !map2_cons, IH. reflexivity.
Qed.

Lemma primal_sum (l : list dual) :
  primal (fold_right sadd (sconst 0) l) = fold_right sadd (sconst 0) (map primal l).
Proof. induction l as [|x l IH]; [reflexivity|]. cbn [fold_right map]. now rewrite <- IH. Qed.

Lemma primal_dot (u v : list dual) : primal (dot u v) = dot (map primal u) (map primal v).
Proof. unfold dot. now rewrite primal_sum, map_map2, map2_map. Qed.

Lemma primal_relu (a : dual) : primal (srelu a) = srelu (primal a).
Proof.
  cbn [srelu Scalar_dual Scalar_Q]. unfold dual_relu, Qrelu.
  destruct (Qle_bool (primal a) 0); reflexivity.
Qed.

Lemma primal_affine_rows (xr : list dual) : forall (rows : list (list dual)) (db : list dual),
  map primal (map2 sadd (map (dot xr) rows) db)
  = map2 sadd (map (dot (map primal xr)) (map (map primal) rows)) (map primal db).
Proof.
  induction rows as [|r rows IH]; intros [|y db]; try reflexivity.
  cbn [map]. rewrite !map2_cons. cbn [map]. rewrite IH, <- primal_dot. reflexivity.
Qed.

Lemma primal_linear (W b x : tensor dual) :
  tmap primal (linear W b x) = linear (tmap primal W) (tmap primal b) (tmap primal x).
Proof.
  unfold linear, tmap. cbn [shape data].
  destruct (shape W) as [|out [|inp [|? ?]]]; try reflexivity.
  destruct (shape x) as [|n [|k [|? ?]]]; try reflexivity.
  cbn [shape data]. f_equal.
  rewrite concat_map, !chunks_map, !map_map. f_equal. apply map_ext. intros xr.
  apply primal_affine_rows.
Qed.

Lemma primal_cat1 (x a : tensor dual) :
  tmap primal (cat1 x a) = cat1 (tmap primal x) (tmap primal a).
Proof.
  unfold cat1, tmap. cbn [shape data].
  destruct (shape x) as [|n [|k1 [|? ?]]]; try reflexivity.
  destruct (shape a) as [|n' [|k2 [|? ?]]]; try reflexivity.
  cbn [shape data]. f_equal.
  rewrite concat_map, !chunks_map, map_map2, map2_map. f_equal.
  unfold map2. apply map_ext. intros [u v]. apply map_app.
Qed.

Lemma primal_tmap_relu (t : tensor dual) :
  tmap primal (tmap srelu t) = tmap srelu (tmap primal t).
Proof.
  unfold tmap. cbn [shape data]. f_equal. rewrite !map_map. apply map_ext, primal_relu.
Qed.

Lemma param_primal (dp : state_dict dual) name :
  param (primal_params dp) name = tmap primal (param dp name).
Proof.
  unfold param, primal_params. rewrite (lookup_map (fun _ t => tmap primal t)).
  destruct (lookup name dp); reflexivity.
Qed.

Lemma primal_QNetwork_forward (dp : state_dict dual) (x a : tensor dual) :
  tmap primal (QNetwork_forward dp x a)
  = QNetwork_forward (primal_params dp) (tmap primal x) (tmap primal a).
Proof.
  unfold QNetwork_forward.
  rewrite primal_linear, primal_tmap_relu, primal_linear, primal_tmap_relu, primal_linear,
    primal_cat1, !param_primal.
  reflexivity.
Qed.

Lemma primal_lift (t : tensor Q) : tmap primal (lift (S := dual) t) = lift (S := Q) t.
Proof. unfold lift, tmap. cbn [shape data]. now rewrite map_map. Qed.

Lemma primal_map2 (fd : dual -> dual -> dual) (fq : Q -> Q -> Q) l1 l2 :
  (forall x y, primal (fd x y) = fq (primal x) (primal y)) ->
  map primal (map2 fd l1 l2) = map2 fq (map primal l1) (map primal l2).
Proof.
  intros Hf. rewrite map_map2, map2_map. unfold map2. apply map_ext. intros [x y]. apply Hf.
Qed.

Lemma primal_data_lift (t : tensor Q) :
  map primal (data (lift (S := dual) t)) = data (lift (S := Q) t).
Proof. now rewrite <- primal_lift. Qed.

Lemma primal_data_forward (dp : state_dict dual) (x a : tensor Q) :
  map primal (data (QNetwork_forward dp (lift x) (lift a)))
  = data (QNetwork_forward (primal_params dp) (lift x) (lift a)).
Proof.
  rewrite <- !primal_lift, <- primal_QNetwork_forward. reflexivity.
Qed.

Lemma primal_compute_delta target_actor gamma0 (dp : state_dict dual) o a r no d :
  primal (compute_delta target_actor gamma0 dp o a r no d)
  = compute_delta target_actor gamma0 (primal_params dp) o a r no d.
Proof.
  unfold compute_delta. cbv zeta. rewrite primal_sum. f_equal.
  unfold flatten. cbn [data].
  rewrite (primal_map2 ssub ssub) by reflexivity.
  rewrite (primal_map2 sadd sadd) by reflexivity.
  rewrite (primal_map2 smul smul) by reflexivity.
  rewrite !primal_data_forward, map_map.
  rewrite <- (primal_data_lift (mkTensor [numel (shape (unsqueeze0 r))] (data (unsqueeze0 r)))).
  rewrite <- (primal_data_lift (mkTensor [numel (shape (unsqueeze0 d))] (data (unsqueeze0 d)))).
  rewrite map_map. reflexivity.
Qed.

Lemma primal_seed_data (g : nat -> Q) : forall (l : list Q) s,
  map primal (map2 (fun i q => mkDual q (g i)) (seq s (length l)) l) = l.
Proof.
  induction l as [|x l IH]; intros s; [reflexivity|].
  cbn [length seq]. rewrite map2_cons. cbn [map primal]. now rewrite IH.
Qed.

Lemma primal_seed_tensor (t : tensor Q) k : tmap primal (seed_tensor t k) = t.
Proof.
  unfold tmap, seed_tensor. cbn [shape data].
  rewrite (primal_seed_data (fun i => match k with
                                      | Some j => if (i =? j)%nat then 1 else 0
                                      | None => 0
                                      end)).
  now destruct t.
Qed.

Lemma primal_params_seed (params : state_dict Q) name k :
  primal_params (seed params name k) = params.
Proof.
  unfold primal_params, seed. rewrite map_map. rewrite <- (map_id params) at 2.
  apply map_ext. intros [n0 t]. cbn [fst snd]. now rewrite primal_seed_tensor.
Qed.

Lemma shapes_seed (params : state_dict Q) name k : shapes (seed params name k) = shapes params.
Proof. unfold shapes, seed. rewrite map_map. reflexivity. Qed.

Lemma length_param_seed (params : state_dict Q) name k nm :
  length (data (param (seed params name k) nm)) = length (data (param params nm)).
Proof.
  unfold param, seed.
  rewrite (lookup_map (fun n0 t => seed_tensor t (if String.eqb n0 name then Some k else None))).
  destruct (lookup nm params) as [t|]; [|reflexivity].
  cbn [option_map seed_tensor data]. rewrite map2_length; now rewrite length_seq.
Qed.

(** X19.  The batch gradient against the per-sample gradients.  For a batch of
    [n] transitions, every partial derivative of the loss of lines 262-268 is
    [2/n] times the sum, over the transitions, of the residual of
    [compute_delta] times the same partial derivative of that residual: the
    tensor [p.grad] left by [qf1_loss.backward()] is twice the mean of the
    per-sample gradients weighted by their residuals.  The target actor answers
    row by row. *)
Theorem batch_gradient_is_weighted_mean obs_shape act_shape target_actor gamma0
  (params : state_dict Q) (b : Batch) n k1 k2 name k :
  shapes params = QNetwork_shapes obs_shape act_shape ->
  length (data (param params "fc1.bias")) = 256%nat ->
  length (data (param params "fc2.bias")) = 256%nat ->
  length (data (param params "fc3.bias")) = 1%nat ->
  (k1 + k2 = numel obs_shape + numel act_shape)%nat ->
  shape (observations b) = [n; k1] -> well_formed (observations b) ->
  shape (actions b) = [n; k2] -> well_formed (actions b) ->
  shape (next_observations b) = [n; k1] -> well_formed (next_observations b) ->
  shape (rewards b) = [n; 1%nat] -> well_formed (rewards b) ->
  shape (dones b) = [n; 1%nat] -> well_formed (dones b) ->
  shape (target_actor (next_observations b)) = [n; k2] ->
  well_formed (target_actor (next_observations b)) ->
  (forall i, (i < n)%nat ->
     target_actor (mkTensor [1%nat; k1] (nth i (chunks k1 n (data (next_observations b))) []))
     = mkTensor [1%nat; k2]
         (nth i (chunks k2 n (data (target_actor (next_observations b)))) [])) ->
  partial (fun p => qf1_loss target_actor gamma0 p b) params name k
  == 2 / inject_Z (Z.of_nat n)
     * sum_all (map (fun s => let '(o, a, r, no, d) := s in
                      compute_delta target_actor gamma0 params o a r no d
                      * partial (fun p => compute_delta target_actor gamma0 p o a r no d)
                          params name k)
                  (samples b)).
Proof.
  intros Hs Hb1 Hb2 Hb3 Hk HO HOw HA HAw HN HNw HR HRw HD HDw HT HTw Hrow.
  unfold partial.
  rewrite (qf1_loss_tangent obs_shape act_shape target_actor gamma0 (seed params name k)
             b n k1 k2); try assumption.
  - apply Qmult_comp; [reflexivity|].
    assert (E : forall l : list (tensor Q * tensor Q * tensor Q * tensor Q * tensor Q),
              sum_all (map (fun s => let '(o, a, r, no, d) := s in
                              primal (compute_delta target_actor gamma0 (seed params name k)
                                        o a r no d)
                              * tangent (compute_delta target_actor gamma0 (seed params name k)
                                           o a r no d)) l)
              == sum_all (map (fun s => let '(o, a, r, no, d) := s in
                                 compute_delta target_actor gamma0 params o a r no d
                                 * tangent (compute_delta target_actor gamma0
                                              (seed params name k) o a r no d)) l)).
    { unfold sum_all. induction l as [|[[[[o a] r] no] d] l IH]; [reflexivity|].
      cbn [map fold_right]. rnorm. rewrite IH.
      now rewrite primal_compute_delta, primal_params_seed. }
    apply E.
  - now rewrite shapes_seed.
  - now rewrite length_param_seed.
  - now rewrite length_param_seed.
  - now rewrite length_param_seed.
Qed.

(** ** The residual of one transition and its gradient *)

(** The critic's value of one observation row [x] and one action row [a]. *)
Definition Q_value {S} `{Scalar S} (params : state_dict S) (x a : tensor Q) : S :=
  hd (sconst 0) (data (QNetwork_forward params (lift x) (lift a))).

Lemma Q_value_row {S} `{Scalar S} obs_shape act_shape (params : state_dict S)
  (x a : tensor Q) k1 k2 :
  shapes params = QNetwork_shapes obs_shape act_shape ->
  length (data (param params "fc1.bias")) = 256%nat ->
  length (data (param params "fc2.bias")) = 256%nat ->
  length (data (param params "fc3.bias")) = 1%nat ->
  (k1 + k2 = numel obs_shape + numel act_shape)%nat ->
  shape x = [1%nat; k1] -> length (data x) = k1 ->
  shape a = [1%nat; k2] -> length (data a) = k2 ->
  data (QNetwork_forward params (lift x) (lift a)) = [Q_value params x a].
Proof.
  intros Hs Hb1 Hb2 Hb3 Hk Hx Hxl Ha Hal. unfold Q_value.
  rewrite (QNetwork_forward_values obs_shape act_shape params _ _ 1 k1 1 k2);
    try assumption; unfold lift, tmap; cbn [shape data];
    rewrite ?length_map, ?Nat.mul_1_l; try assumption.
  rewrite !chunks_one by (now rewrite length_map). reflexivity.
Qed.

(** Lines 203-216 on one transition whose widths fit the critic: the reward
    plus the discounted value of the critic at the target actor's action,
    minus the value of the critic, all with the parameters [params]. *)
Lemma compute_delta_single {S} `{Scalar S} obs_shape act_shape target_actor gamma0
  (params : state_dict S) (o a r no d : tensor Q) k1 k2 rv dv :
  shapes params = QNetwork_shapes obs_shape act_shape ->
  length (data (param params "fc1.bias")) = 256%nat ->
  length (data (param params "fc2.bias")) = 256%nat ->
  length (data (param params "fc3.bias")) = 1%nat ->
  (k1 + k2 = numel obs_shape + numel act_shape)%nat ->
  shape o = [k1] -> length (data o) = k1 ->
  shape a = [k2] -> length (data a) = k2 ->
  shape no = [k1] -> length (data no) = k1 ->
  shape (target_actor (unsqueeze0 no)) = [1%nat; k2] ->
  length (data (target_actor (unsqueeze0 no))) = k2 ->
  data r = [rv] -> data d = [dv] ->
  compute_delta target_actor gamma0 params o a r no d
  = sadd (ssub (sadd (sconst rv)
                  (smul (smul (ssub (sconst 1) (sconst dv)) (sconst gamma0))
                     (Q_value params (unsqueeze0 no) (target_actor (unsqueeze0 no)))))
            (Q_value params (unsqueeze0 o) (unsqueeze0 a)))
      (sconst 0).
Proof.
  intros Hs Hb1 Hb2 Hb3 Hk Ho Hol Ha Hal Hn Hnl Ht Htl Hr Hd.
  unfold compute_delta. cbv zeta. unfold flatten. cbn [data].
  rewrite (Q_value_row obs_shape act_shape params (unsqueeze0 no)
             (target_actor (unsqueeze0 no)) k1 k2)
    by (try assumption; cbn [unsqueeze0 shape data]; congruence).
  rewrite (Q_value_row obs_shape act_shape params (unsqueeze0 o) (unsqueeze0 a) k1 k2)
    by (try assumption; cbn [unsqueeze0 shape data]; congruence).
  unfold lift, tmap. cbn [unsqueeze0 data shape]. rewrite Hr, Hd. reflexivity.
Qed.

Lemma rows_length {A} (t : tensor A) n k :
  shape t = [n; k] -> well_formed t -> length (data t) = (n * k)%nat.
Proof. intros Ht Hw. unfold well_formed in Hw. rewrite Hw, Ht. cbn [numel fold_right]. lia. Qed.

Lemma column_length {A} (t : tensor A) n :
  shape t = [n; 1%nat] -> well_formed t -> length (data t) = n.
Proof. intros Ht Hw. rewrite (rows_length t n 1 Ht Hw). lia. Qed.

(** The derivative of the residual of one transition along entry [k] of the
    parameter [name]. *)
Lemma compute_delta_partial obs_shape act_shape target_actor gamma0
  (params : state_dict Q) (o a r no d : tensor Q) k1 k2 rv dv name k :
  shapes params = QNetwork_shapes obs_shape act_shape ->
  length (data (param params "fc1.bias")) = 256%nat ->
  length (data (param params "fc2.bias")) = 256%nat ->
  length (data (param params "fc3.bias")) = 1%nat ->
  (k1 + k2 = numel obs_shape + numel act_shape)%nat ->
  shape o = [k1] -> length (data o) = k1 ->
  shape a = [k2] -> length (data a) = k2 ->
  shape no = [k1] -> length (data no) = k1 ->
  shape (target_actor (unsqueeze0 no)) = [1%nat; k2] ->
  length (data (target_actor (unsqueeze0 no))) = k2 ->
  data r = [rv] -> data d = [dv] ->
  partial (fun q => compute_delta target_actor gamma0 q o a r no d) params name k
  == (1 - dv) * gamma0
     * partial (fun q => Q_value q (unsqueeze0 no) (target_actor (unsqueeze0 no))) params name k
     - partial (fun q => Q_value q (unsqueeze0 o) (unsqueeze0 a)) params name k.
Proof.
  intros Hs Hb1 Hb2 Hb3 Hk Ho Hol Ha Hal Hn Hnl Ht Htl Hr Hd. unfold partial.
  rewrite (compute_delta_single obs_shape act_shape target_actor gamma0 (seed params name k)
             o a r no d k1 k2 rv dv);
    rewrite ?shapes_seed, ?length_param_seed; try assumption.
  cbn [sadd ssub smul sconst Scalar_dual dual_add dual_sub dual_mul tangent primal].
  rewrite !rmul_0_l. rnorm. rnorm. ring.
Qed.

Lemma compute_delta_value obs_shape act_shape target_actor gamma0
  (params : state_dict Q) (o a r no d : tensor Q) k1 k2 rv dv :
  shapes params = QNetwork_shapes obs_shape act_shape ->
  length (data (param params "fc1.bias")) = 256%nat ->
  length (data (param params "fc2.bias")) = 256%nat ->
  length (data (param params "fc3.bias")) = 1%nat ->
  (k1 + k2 = numel obs_shape + numel act_shape)%nat ->
  shape o = [k1] -> length (data o) = k1 ->
  shape a = [k2] -> length (data a) = k2 ->
  shape no = [k1] -> length (data no) = k1 ->
  shape (target_actor (unsqueeze0 no)) = [1%nat; k2] ->
  length (data (target_actor (unsqueeze0 no))) = k2 ->
  data r = [rv] -> data d = [dv] ->
  compute_delta target_actor gamma0 params o a r no d
  == rv + (1 - dv) * gamma0
          * Q_value params (unsqueeze0 no) (target_actor (unsqueeze0 no))
     - Q_value params (unsqueeze0 o) (unsqueeze0 a).
Proof.
  intros Hs Hb1 Hb2 Hb3 Hk Ho Hol Ha Hal Hn Hnl Ht Htl Hr Hd.
  rewrite (compute_delta_single obs_shape act_shape target_actor gamma0 params
             o a r no d k1 k2 rv dv) by assumption.
  cbn [sadd ssub smul sconst Scalar_Q]. rnorm. rnorm. ring.
Qed.

(** C1 (amended).  For a batch of [n] transitions whose widths fit the critic,
    the engine returns, under the name of every critic parameter, the stack of
    one gradient per transition.  The differentiated residual of transition
    [i] is [r_i + (1 - done_i) * gamma * Q(s'_i, pi'(s'_i)) - Q(s_i, a_i)] with
    both values computed by the critic run with the differentiated parameters,
    and every entry of its gradient is
    [(1 - done_i) * gamma * dQ(s'_i, pi'(s'_i)) - dQ(s_i, a_i)]: the gradient
    flows through the bootstrap term, only the target actor's action
    [pi'(s'_i)] is a constant, and no target critic occurs. *)
Theorem per_sample_gradient_engine obs_shape act_shape target_actor gamma0
  (params : state_dict Q) (b : Batch) n k1 k2 :
  shapes params = QNetwork_shapes obs_shape act_shape ->
  length (data (param params "fc1.bias")) = 256%nat ->
  length (data (param params "fc2.bias")) = 256%nat ->
  length (data (param params "fc3.bias")) = 1%nat ->
  (k1 + k2 = numel obs_shape + numel act_shape)%nat ->
  shape (observations b) = [n; k1] -> well_formed (observations b) ->
  shape (actions b) = [n; k2] -> well_formed (actions b) ->
  shape (next_observations b) = [n; k1] -> well_formed (next_observations b) ->
  shape (rewards b) = [n; 1%nat] -> well_formed (rewards b) ->
  shape (dones b) = [n; 1%nat] -> well_formed (dones b) ->
  (forall i, (i < n)%nat ->
     let s' := mkTensor [1%nat; k1] (nth i (chunks k1 n (data (next_observations b))) []) in
     shape (target_actor s') = [1%nat; k2] /\ well_formed (target_actor s')) ->
  samples b = map (transition b n k1 k2) (seq 0 n) /\
  forall name p, lookup name params = Some p ->
    lookup name (compute_sample_nabla_delta target_actor gamma0 params b)
    = Some (stack0 (shape p)
              (map (sample_gradient target_actor gamma0 params name p) (samples b))) /\
    forall i, (i < n)%nat ->
      let '(o, a, r, no, d) := transition b n k1 k2 i in
      let r_i := nth i (data (rewards b)) 0 in
      let done_i := nth i (data (dones b)) 0 in
      compute_delta target_actor gamma0 params o a r no d
      == r_i + (1 - done_i) * gamma0
               * Q_value params (unsqueeze0 no) (target_actor (unsqueeze0 no))
         - Q_value params (unsqueeze0 o) (unsqueeze0 a) /\
      forall k, (k < length (data p))%nat ->
        nth k (data (sample_gradient target_actor gamma0 params name p (o, a, r, no, d))) 0
        == (1 - done_i) * gamma0
           * partial (fun q => Q_value q (unsqueeze0 no) (target_actor (unsqueeze0 no)))
               params name k
           - partial (fun q => Q_value q (unsqueeze0 o) (unsqueeze0 a)) params name k.
Proof.
  intros Hs Hb1 Hb2 Hb3 Hk HO HOw HA HAw HN HNw HR HRw HD HDw Hta.
  split; [now apply samples_transitions|].
  intros name p Hl. split; [now apply lookup_engine|].
  intros i Hi. unfold transition. cbv zeta.
  pose proof (nth_chunks_length k1 n _ i (rows_length _ _ _ HO HOw) Hi) as LO.
  pose proof (nth_chunks_length k2 n _ i (rows_length _ _ _ HA HAw) Hi) as LA.
  pose proof (nth_chunks_length k1 n _ i (rows_length _ _ _ HN HNw) Hi) as LN.
  pose proof (nth_chunks_1 0 n (data (rewards b)) i (column_length _ _ HR HRw) Hi) as ER.
  pose proof (nth_chunks_1 0 n (data (dones b)) i (column_length _ _ HD HDw) Hi) as ED.
  destruct (Hta i Hi) as [Ht Htw]. cbv zeta in Ht, Htw.
  assert (Htl : length (data (target_actor
                  (mkTensor [1%nat; k1]
                     (nth i (chunks k1 n (data (next_observations b))) [])))) = k2).
  { unfold well_formed in Htw. rewrite Htw, Ht. cbn. lia. }
  rewrite ER, ED. split.
  - apply (compute_delta_value obs_shape act_shape target_actor gamma0 params _ _ _ _ _ k1 k2
             (nth i (data (rewards b)) 0) (nth i (data (dones b)) 0));
      try assumption; reflexivity.
  - intros k Hk'. unfold sample_gradient. cbn [data].
    rewrite nth_map_seq by exact Hk'.
    apply (compute_delta_partial obs_shape act_shape target_actor gamma0 params _ _ _ _ _ k1 k2
             (nth i (data (rewards b)) 0) (nth i (data (dones b)) 0));
      try assumption; reflexivity.
Qed.

(** X4.  At a terminal transition ([done = 1]) whose widths fit the critic,
    the residual of [compute_delta] is the reward minus the critic's value and
    its gradient is minus the gradient of that value: the bootstrap term
    vanishes with its gradient, whatever the next observation and the target
    actor's action are. *)
Theorem terminal_residual obs_shape act_shape target_actor gamma0 (params : state_dict Q)
  (o a r no d : tensor Q) k1 k2 rv :
  shapes params = QNetwork_shapes obs_shape act_shape ->
  length (data (param params "fc1.bias")) = 256%nat ->
  length (data (param params "fc2.bias")) = 256%nat ->
  length (data (param params "fc3.bias")) = 1%nat ->
  (k1 + k2 = numel obs_shape + numel act_shape)%nat ->
  shape o = [k1] -> well_formed o ->
  shape a = [k2] -> well_formed a ->
  shape no = [k1] -> well_formed no ->
  shape (target_actor (unsqueeze0 no)) = [1%nat; k2] ->
  well_formed (target_actor (unsqueeze0 no)) ->
  data r = [rv] -> data d = [1] ->
  compute_delta target_actor gamma0 params o a r no d
  == rv - Q_value params (unsqueeze0 o) (unsqueeze0 a) /\
  forall name k,
    partial (fun q => compute_delta target_actor gamma0 q o a r no d) params name k
    == - partial (fun q => Q_value q (unsqueeze0 o) (unsqueeze0 a)) params name k.
Proof.
  intros Hs Hb1 Hb2 Hb3 Hk Ho How Ha Haw Hn Hnw Ht Htw Hr Hd.
  assert (Hol : length (data o) = k1)
    by (unfold well_formed in How; rewrite How, Ho; cbn; lia).
  assert (Hal : length (data a) = k2)
    by (unfold well_formed in Haw; rewrite Haw, Ha; cbn; lia).
  assert (Hnl : length (data no) = k1)
    by (unfold well_formed in Hnw; rewrite Hnw, Hn; cbn; lia).
  assert (Htl : length (data (target_actor (unsqueeze0 no))) = k2)
    by (unfold well_formed in Htw; rewrite Htw, Ht; cbn; lia).
  split.
  - rewrite (compute_delta_value obs_shape act_shape target_actor gamma0 params
               o a r no d k1 k2 rv 1) by assumption.
    ring.
  - intros name k.
    rewrite (compute_delta_partial obs_shape act_shape target_actor gamma0 params
               o a r no d k1 k2 rv 1 name k) by assumption.
    ring.
Qed.

(** * The training loop *)

Section Orchestrator.

(** The collaborators of the loop: the environment, the replay buffer, the
    random draws of each step, [tanh], the backward pass of the actor loss and
    the three optimizers. *)
Variable args : Args.
Variables Env RB : Type.
Variable env_step : Env -> tensor Q -> Env * StepResult.
Variable sample_action : nat -> tensor Q.
Variable normal : nat -> tensor Q -> tensor Q.
Variable rb_add : RB -> RbEntry -> RB.
Variable rb_sample : RB -> nat -> nat -> Batch.
Variable tanh : Q -> Q.
Variables action_scale action_bias action_low action_high : tensor Q.
Variable actor_backward : state_dict Q -> state_dict Q -> Batch -> list (option (tensor Q)).
Variables q_optimizer actor_optimizer M_optimizer : Optimizer.

(** The variables of the script that the loop reads and writes.
    [critic_updates] counts the calls of [q_optimizer.step()]. *)
Record TrainState : Type := mkTrainState {
  actor : state_dict Q;
  qf1 : state_dict Q;
  qf1_target : state_dict Q;
  target_actor : state_dict Q;
  m_qf1 : state_dict Q;
  q_state : opt_state q_optimizer;
  actor_state : opt_state actor_optimizer;
  M_state : opt_state M_optimizer;
  rb : RB;
  obs : tensor Q;
  env : Env;
  m_nabla_delta_ : option (tensor Q);
  critic_updates : nat
}.

(** Lines 166-183 and 226: the networks at startup.  The targets are loaded
    from the live networks and [m_qf1] is a critic filled with zeros. *)
Definition startup (actor0 qf1_0 m0 : state_dict Q)
  (q0 : opt_state q_optimizer) (a0 : opt_state actor_optimizer) (M0 : opt_state M_optimizer)
  (rb0 : RB) (obs0 : tensor Q) (env0 : Env) : TrainState :=
  mkTrainState actor0 qf1_0 qf1_0 actor0
    (map (fun nt => (fst nt, tmap (fun _ => 0) (snd nt))) m0)
    q0 a0 M0 rb0 obs0 env0 None 0.

(** Lines 232-235: the actor's action with exploration noise, clipped. *)
Definition policy_action (global_step : nat) (st : TrainState) : option (tensor Q) :=
  do a <- Actor_forward tanh action_scale action_bias (actor st) (obs st);
  do a <- iadd a (normal global_step (tscale (exploration_noise args) action_scale));
  clip a action_low action_high.

(** Lines 229-235 *)
Definition select_action (global_step : nat) (st : TrainState) : option (tensor Q) :=
  if (Z.of_nat global_step <? learning_starts args)%Z then
    Some (sample_action global_step)
  else policy_action global_step st.

(** Lines 229-256: one step of the environment, stored in the replay buffer. *)
Definition interact (global_step : nat) (st : TrainState) : option TrainState :=
  do a <- select_action global_step st;
  let r := snd (env_step (env st) a) in
  do real <- real_next_obs r;
  let entry := mkRbEntry (obs st) real a (step_rewards r) (step_dones r) (infos r) in
  Some (mkTrainState (actor st) (qf1 st) (qf1_target st) (target_actor st) (m_qf1 st)
          (q_state st) (actor_state st) (M_state st)
          (rb_add (rb st) entry) (next_obs r) (fst (env_step (env st) a))
          (m_nabla_delta_ st) (critic_updates st)).

(** Lines 336-346: the delayed update of the actor and of the target networks. *)
Definition policy_update (data : Batch) (st : TrainState) : option TrainState :=
  let a := opt_step actor_optimizer (actor_state st) (parameters (actor st))
             (actor_backward (actor st) (qf1 st) data) in
  let actor' := with_parameters (actor st) (snd a) in
  do ta <- soft_update_loop (tau args) (parameters actor') (parameters (target_actor st));
  do tq <- soft_update_loop (tau args) (parameters (qf1 st)) (parameters (qf1_target st));
  Some (mkTrainState actor' (qf1 st)
          (with_parameters (qf1_target st) tq) (with_parameters (target_actor st) ta)
          (m_qf1 st) (q_state st) (fst a) (M_state st) (rb st) (obs st) (env st)
          (m_nabla_delta_ st) (critic_updates st)).

(** Lines 261-334: one update of the critic. *)
Definition critic_update (global_step : nat) (st : TrainState)
  : option (Batch * TrainState) :=
  let data := rb_sample (rb st) global_step (batch_size args) in
  let target := Actor_forward tanh action_scale action_bias (target_actor st) in
  let p_grad :=
    parameters (grad (fun p => qf1_loss (frozen target) (gamma args) p data) (qf1 st)) in
  let gs := compute_sample_nabla_delta (frozen target) (gamma args) (qf1 st) data in
  do r <- ran_additions M_optimizer (batch_size args) (m_qf1 st) (qf1 st) (M_state st)
            p_grad gs (m_nabla_delta_ st);
  let q := opt_step q_optimizer (q_state st) (parameters (qf1 st)) (ran_p_grad r) in
  Some (data,
        mkTrainState (actor st) (with_parameters (qf1 st) (snd q))
          (qf1_target st) (target_actor st) (ran_m_qf1 r)
          (fst q) (actor_state st) (ran_M_state r) (rb st) (obs st) (env st)
          (ran_stale r) (S (critic_updates st))).

(** Lines 260-346 *)
Definition learn (global_step : nat) (st : TrainState) : option TrainState :=
  do ds <- critic_update global_step st;
  if (policy_frequency args =? 0)%Z then None
  else if (Z.of_nat global_step mod policy_frequency args =? 0)%Z
       then policy_update (fst ds) (snd ds)
       else Some (snd ds).

(** The body of the loop of line 227. *)
Definition iteration (global_step : nat) (st : TrainState) : option TrainState :=
  do st <- interact global_step st;
  if (learning_starts args <? Z.of_nat global_step)%Z then learn global_step st
  else Some st.

(** [for global_step in range(n)] *)
Fixpoint run (n : nat) (st : TrainState) : option TrainState :=
  match n with
  | O => Some st
  | S k => do st' <- run k st; iteration k st'
  end.

(** ** Warm-up *)

Lemma interact_frame global_step st st' :
  interact global_step st = Some st' ->
  actor st' = actor st /\ qf1 st' = qf1 st /\ m_qf1 st' = m_qf1 st /\
  qf1_target st' = qf1_target st /\ target_actor st' = target_actor st /\
  critic_updates st' = critic_updates st /\
  exists e, rb st' = rb_add (rb st) e /\ rb_obs e = obs st.
Proof.
  unfold interact. intros H. unbind H. unbind H. injection H as <-. cbn.
  repeat split. eexists. split; reflexivity.
Qed.

(** Up to and including [global_step = learning_starts] the guard of line 260
    is false and the step is the environment step alone. *)
Lemma warmup_iteration global_step st :
  (Z.of_nat global_step <= learning_starts args)%Z ->
  iteration global_step st = interact global_step st.
Proof.
  intros H. unfold iteration. destruct (interact global_step st); cbn [bind]; [|reflexivity].
  destruct (Z.ltb_spec (learning_starts args) (Z.of_nat global_step)); [lia | reflexivity].
Qed.

(** Past [learning_starts] every step runs the critic update once. *)
Lemma learning_iteration global_step st st' :
  (learning_starts args < Z.of_nat global_step)%Z ->
  iteration global_step st = Some st' ->
  critic_updates st' = S (critic_updates st).
Proof.
  intros Hgs H. unfold iteration in H. unbind H.
  destruct (Z.ltb_spec (learning_starts args) (Z.of_nat global_step)); [|lia].
  destruct (interact_frame _ _ _ E) as (_ & _ & _ & _ & _ & Hc & _).
  unfold learn in H. unbind H. destruct v0 as [d st1]. cbn [fst snd] in H.
  assert (H1 : critic_updates st1 = S (critic_updates st)).
  { unfold critic_update in E0. unbind E0. injection E0 as _ <-. cbn. now rewrite Hc. }
  destruct (policy_frequency args =? 0)%Z; [discriminate|].
  destruct (_ =? 0)%Z.
  - unfold policy_update in H. unbind H. unbind H. injection H as <-. exact H1.
  - injection H as <-. exact H1.
Qed.

(** C6.  After [n <= learning_starts] steps, that is while every step run so
    far has [global_step < learning_starts], the parameters of the actor, of the
    critic and of the momentum are those of startup, and every step has added
    one entry to the replay buffer. *)
Theorem warmup_freezes_parameters : forall n st0 st,
  (Z.of_nat n <= learning_starts args)%Z ->
  run n st0 = Some st ->
  actor st = actor st0 /\ qf1 st = qf1 st0 /\ m_qf1 st = m_qf1 st0 /\
  critic_updates st = critic_updates st0 /\
  exists es, length es = n /\ rb st = fold_left rb_add es (rb st0).
Proof.
  induction n as [|n IH]; intros st0 st Hn H.
  - injection H as <-. repeat split. exists []. split; reflexivity.
  - cbn [run] in H. unbind H. rename v into st1.
    destruct (IH st0 st1) as (Ha & Hq & Hm & Hc & es & Hes & Hrb); [lia | exact E |].
    rewrite warmup_iteration in H by lia.
    destruct (interact_frame _ _ _ H) as (Ha' & Hq' & Hm' & _ & _ & Hc' & e & He & _).
    repeat split; try congruence.
    exists (es ++ [e]). split.
    + rewrite length_app. simpl. lia.
    + rewrite fold_left_app. simpl. congruence.
Qed.

(** ** The shapes of the momentum *)

(** One critic update keeps the critic's shapes and leaves the momentum with
    the shapes of the critic. *)
Lemma critic_update_shapes global_step st d st' :
  shapes (m_qf1 st) = shapes (qf1 st) ->
  critic_update global_step st = Some (d, st') ->
  shapes (qf1 st') = shapes (qf1 st) /\ shapes (m_qf1 st') = shapes (qf1 st').
Proof.
  intros Hinv H. unfold critic_update in H. unbind H. rename v into r.
  injection H as _ <-. cbn [qf1 m_qf1].
  pose proof (shapes_length _ _ Hinv) as Hlen.
  destruct (ran_additions_inv _ _ _ _ _ _ _ _ _ Hlen E)
    as (ms & Rs & Hema & _ & _ & Hm & _ & Hnames & _).
  assert (Hq : shapes (with_parameters (qf1 st)
                         (snd (opt_step q_optimizer (q_state st) (parameters (qf1 st))
                                 (ran_p_grad r))))
               = shapes (qf1 st)).
  { rewrite with_parameters_shapes by (rewrite opt_step_length; apply parameters_length).
    rewrite opt_step_shapes. symmetry. apply shapes_combine. }
  split; [exact Hq|]. rewrite Hq, <- Hinv.
  rewrite (shapes_combine (ran_m_qf1 r)), (shapes_combine (m_qf1 st)), Hnames, Hm.
  rewrite opt_step_shapes. f_equal.
  eapply ema_loop_shapes; [|exact Hema].
  rewrite grad_shapes. now apply shapes_parameters.
Qed.

Lemma iteration_shapes global_step st st' :
  shapes (m_qf1 st) = shapes (qf1 st) ->
  iteration global_step st = Some st' ->
  shapes (qf1 st') = shapes (qf1 st) /\ shapes (m_qf1 st') = shapes (qf1 st').
Proof.
  intros Hinv H. unfold iteration in H. unbind H. rename v into st1.
  destruct (interact_frame _ _ _ E) as (_ & Hq & Hm & _).
  rewrite <- Hq, <- Hm in Hinv. rewrite <- Hq.
  destruct (_ <? _)%Z; [|injection H as <-; auto].
  unfold learn in H. unbind H. destruct v as [d st2]. cbn [fst snd] in H.
  destruct (critic_update_shapes _ _ _ _ Hinv E0) as [H1 H2].
  destruct (policy_frequency args =? 0)%Z; [discriminate|].
  destruct (_ =? 0)%Z.
  - unfold policy_update in H. unbind H. unbind H. injection H as <-. cbn [qf1 m_qf1]. auto.
  - injection H as <-. auto.
Qed.

Lemma run_shapes : forall n st0 st,
  shapes (m_qf1 st0) = shapes (qf1 st0) ->
  run n st0 = Some st ->
  shapes (qf1 st) = shapes (qf1 st0) /\ shapes (m_qf1 st) = shapes (qf1 st).
Proof.
  induction n as [|n IH]; intros st0 st Hinv H.
  - injection H as <-. auto.
  - cbn [run] in H. unbind H.
    destruct (IH _ _ Hinv E) as [H1 H2].
    destruct (iteration_shapes _ _ _ H2 H) as [H3 H4].
    split; congruence.
Qed.

(** C8.  From startup on, after any number of steps of the loop, every
    momentum tensor has the name and the shape of the critic's parameter at its
    position, and the critic has the shapes [QNetwork] gave it. *)
Theorem momentum_shapes_invariant :
  forall obs_shape act_shape (qf1_values m_values : string -> list Q)
         actor0 q0 a0 M0 rb0 obs0 env0 n st,
    run n (startup actor0 (QNetwork_init qf1_values obs_shape act_shape)
             (QNetwork_init m_values obs_shape act_shape) q0 a0 M0 rb0 obs0 env0)
      = Some st ->
    shapes (m_qf1 st) = shapes (qf1 st) /\
    shapes (qf1 st) = QNetwork_shapes obs_shape act_shape.
Proof.
  intros obs_shape act_shape qv mv actor0 q0 a0 M0 rb0 obs0 env0 n st H.
  assert (Hq : forall v, shapes (QNetwork_init v obs_shape act_shape)
                         = QNetwork_shapes obs_shape act_shape).
  { intros v. unfold shapes, QNetwork_init. rewrite map_map. cbn [fst snd shape].
    rewrite <- (map_id (QNetwork_shapes _ _)) at 2. apply map_ext. now intros []. }
  apply run_shapes in H.
  - destruct H as [H1 H2]. split; [exact H2|]. rewrite H1. cbn [startup qf1]. apply Hq.
  - cbn [startup qf1 m_qf1]. rewrite Hq. unfold shapes. rewrite map_map. cbn [fst snd tmap shape].
    apply Hq.
Qed.

(** ** A critic update is defined *)

(** On a non-empty batch of [batch_size] transitions, with the critic of
    [QNetwork]'s shapes and the momentum of the critic's shapes, the critic
    update of lines 261-334 raises nothing. *)
Lemma critic_update_defined obs_shape act_shape global_step st :
  batch_size args <> 0%nat ->
  batch_of (batch_size args) (rb_sample (rb st) global_step (batch_size args)) ->
  shapes (qf1 st) = QNetwork_shapes obs_shape act_shape ->
  shapes (m_qf1 st) = shapes (qf1 st) ->
  exists st', critic_update global_step st
              = Some (rb_sample (rb st) global_step (batch_size args), st').
Proof.
  intros Hn Hb Hq Hm. unfold critic_update.
  destruct (ran_additions_defined M_optimizer obs_shape act_shape (batch_size args)
              (m_qf1 st) (qf1 st) (M_state st)
              (parameters (grad (fun p => qf1_loss
                                   (frozen (Actor_forward tanh action_scale action_bias
                                              (target_actor st)))
                                   (gamma args) p
                                   (rb_sample (rb st) global_step (batch_size args)))
                             (qf1 st)))
              (compute_sample_nabla_delta
                 (frozen (Actor_forward tanh action_scale action_bias (target_actor st)))
                 (gamma args) (qf1 st) (rb_sample (rb st) global_step (batch_size args)))
              (m_nabla_delta_ st) Hn Hq Hm) as (r & Hr).
  - apply grad_shapes.
  - intros ms Hms. eapply engine_gradients_for; eassumption.
  - rewrite Hr. cbn [bind]. eauto.
Qed.

(** Past [learning_starts], under the same conditions and when the targets
    have the shapes of the live networks, nothing after the environment step
    raises, and the step runs the critic update exactly once. *)
Lemma learning_step_defined obs_shape act_shape global_step st :
  (learning_starts args < Z.of_nat global_step)%Z ->
  policy_frequency args <> 0%Z ->
  batch_size args <> 0%nat ->
  batch_of (batch_size args) (rb_sample (rb st) global_step (batch_size args)) ->
  shapes (qf1 st) = QNetwork_shapes obs_shape act_shape ->
  shapes (m_qf1 st) = shapes (qf1 st) ->
  map shape (parameters (qf1_target st)) = map shape (parameters (qf1 st)) ->
  map shape (parameters (target_actor st)) = map shape (parameters (actor st)) ->
  exists st', learn global_step st = Some st' /\
              critic_updates st' = S (critic_updates st).
Proof.
  intros Hgs Hpf Hn Hb Hq Hm Htq Hta. unfold learn.
  destruct (critic_update_defined obs_shape act_shape global_step st Hn Hb Hq Hm) as (st1 & H1).
  rewrite H1. cbn [bind fst snd].
  assert (Hc : critic_updates st1 = S (critic_updates st) /\
               actor st1 = actor st /\ target_actor st1 = target_actor st /\
               qf1_target st1 = qf1_target st /\ shapes (qf1 st1) = shapes (qf1 st)).
  { destruct (critic_update_shapes _ _ _ _ Hm H1) as [Hs _].
    unfold critic_update in H1. unbind H1. injection H1 as <-. cbn. repeat split.
    cbn in Hs. exact Hs. }
  destruct Hc as (Hc & Ha1 & Hta1 & Htq1 & Hq1).
  destruct (policy_frequency args =? 0)%Z eqn:E; [apply Z.eqb_eq in E; contradiction|].
  destruct (Z.of_nat global_step mod policy_frequency args =? 0)%Z; [|eauto].
  unfold policy_update.
  assert (Hsoft : forall tau ps ts, map shape ts = map shape ps ->
                    exists r, soft_update_loop tau ps ts = Some r).
  { intros tau0 ps. induction ps as [|p ps IH]; intros [|t ts] H; try discriminate.
    - exists []. reflexivity.
    - injection H as H1' H2'. destruct (IH ts H2') as (r & Hr).
      cbn [soft_update_loop]. unfold soft_update, tadd, broadcast2. cbn [tscale shape].
      rewrite H1', broadcast_shapes_refl. cbn [bind]. unfold copy_. cbn [shape].
      rewrite H1', broadcast_shapes_refl. cbn [bind]. rewrite shape_eqb_refl.
      cbn [bind]. rewrite Hr. cbn [bind]. eauto. }
  match goal with
  | |- context [soft_update_loop ?t ?ps ?ts] =>
      destruct (Hsoft t ps ts) as (ta' & ->)
  end.
  { rewrite parameters_with_parameters
      by (rewrite opt_step_length; apply parameters_length).
    rewrite opt_step_shapes. congruence. }
  cbn [bind].
  match goal with
  | |- context [soft_update_loop ?t ?ps ?ts] =>
      destruct (Hsoft t ps ts) as (tq' & ->)
  end.
  { rewrite Htq1, Htq. symmetry. now apply shapes_parameters. }
  cbn [bind]. eexists. split; [reflexivity|]. exact Hc.
Qed.

(** ** What a learning step touches *)

Lemma critic_update_frame global_step st d st' :
  critic_update global_step st = Some (d, st') ->
  actor st' = actor st /\ target_actor st' = target_actor st /\
  qf1_target st' = qf1_target st /\ rb st' = rb st /\ obs st' = obs st /\
  critic_updates st' = S (critic_updates st).
Proof.
  unfold critic_update. intros H. unbind H. injection H as _ <-. cbn. repeat split.
Qed.

Lemma policy_update_frame d st st' :
  policy_update d st = Some st' ->
  qf1 st' = qf1 st /\ m_qf1 st' = m_qf1 st /\ rb st' = rb st /\ obs st' = obs st /\
  critic_updates st' = critic_updates st.
Proof.
  unfold policy_update. intros H. unbind H. unbind H. injection H as <-. cbn. repeat split.
Qed.

Lemma learn_frame global_step st st' :
  learn global_step st = Some st' ->
  rb st' = rb st /\ obs st' = obs st /\ critic_updates st' = S (critic_updates st).
Proof.
  unfold learn. intros H. unbind H. destruct v as [d st1]. cbn [fst snd] in H.
  destruct (critic_update_frame _ _ _ _ E) as (_ & _ & _ & Hr & Ho & Hc).
  destruct (policy_frequency args =? 0)%Z; [discriminate|].
  destruct (Z.of_nat global_step mod policy_frequency args =? 0)%Z.
  - destruct (policy_update_frame _ _ _ H) as (_ & _ & Hr' & Ho' & Hc').
    repeat split; congruence.
  - injection H as <-. auto.
Qed.

(** X13.  The delayed update.  A step that is in warm-up, or whose number is
    not a multiple of [policy_frequency], leaves the actor and both target
    networks as they were. *)
Theorem targets_move_only_on_policy_steps global_step st st' :
  (Z.of_nat global_step <= learning_starts args
   \/ Z.of_nat global_step mod policy_frequency args <> 0)%Z ->
  iteration global_step st = Some st' ->
  actor st' = actor st /\ target_actor st' = target_actor st /\
  qf1_target st' = qf1_target st.
Proof.
  intros Hgs H. unfold iteration in H. unbind H. rename v into st0.
  destruct (interact_frame _ _ _ E) as (Ha & _ & _ & Hq & Ht & _).
  destruct (Z.ltb_spec (learning_starts args) (Z.of_nat global_step)) as [Hl|Hl].
  - destruct Hgs as [Hgs|Hgs]; [lia|].
    unfold learn in H. unbind H. destruct v as [d st1]. cbn [fst snd] in H.
    destruct (critic_update_frame _ _ _ _ E0) as (Ha1 & Ht1 & Hq1 & _).
    destruct (policy_frequency args =? 0)%Z; [discriminate|].
    destruct (Z.eqb_spec (Z.of_nat global_step mod policy_frequency args) 0) as [Hz|Hz];
      [contradiction|].
    injection H as <-. repeat split; congruence.
  - injection H as <-. auto.
Qed.

(** X12.  The number of critic updates.  After [n] steps the critic's optimizer
    has stepped once for every step number above [learning_starts]. *)
Theorem critic_updates_count : forall n st0 st,
  run n st0 = Some st ->
  critic_updates st
  = (critic_updates st0
     + Z.to_nat (Z.min (Z.of_nat n) (Z.of_nat n - 1 - learning_starts args)))%nat.
Proof.
  induction n as [|n IH]; intros st0 st H.
  - injection H as <-. cbn. lia.
  - cbn [run] in H. unbind H. rename v into st1. specialize (IH _ _ E).
    destruct (Z.ltb_spec (learning_starts args) (Z.of_nat n)) as [Hl|Hl].
    + rewrite (learning_iteration _ _ _ Hl H), IH. lia.
    + rewrite warmup_iteration in H by exact Hl.
      destruct (interact_frame _ _ _ H) as (_ & _ & _ & _ & _ & Hc & _).
      rewrite Hc, IH. lia.
Qed.

Lemma iteration_stores global_step st st' :
  iteration global_step st = Some st' ->
  exists e, rb st' = rb_add (rb st) e /\ rb_obs e = obs st.
Proof.
  intros H. unfold iteration in H. unbind H. rename v into st1.
  destruct (interact_frame _ _ _ E) as (_ & _ & _ & _ & _ & _ & e & He & Ho).
  exists e. destruct (_ <? _)%Z.
  - destruct (learn_frame _ _ _ H) as (Hr & _). split; congruence.
  - injection H as <-. auto.
Qed.

(** X9.  The replay buffer.  Every step of the loop, in warm-up or not, adds
    exactly one entry, and nothing else touches the buffer. *)
Theorem one_entry_per_step : forall n st0 st,
  run n st0 = Some st ->
  exists es, length es = n /\ rb st = fold_left rb_add es (rb st0) /\
             (forall e, hd_error es = Some e -> rb_obs e = obs st0).
Proof.
  induction n as [|n IH]; intros st0 st H.
  - injection H as <-. exists []. repeat split. discriminate.
  - cbn [run] in H. unbind H. rename v into st1.
    destruct (IH _ _ E) as (es & Hes & Hrb & Hhd).
    destruct (iteration_stores _ _ _ H) as (e & He & Ho).
    exists (es ++ [e]). split; [|split].
    + rewrite length_app. simpl. lia.
    + rewrite fold_left_app. simpl. congruence.
    + destruct es as [|e0 es'].
      * simpl. intros e' [= <-]. destruct n; [|discriminate]. injection E as <-. exact Ho.
      * simpl. intros e' [= <-]. apply Hhd. reflexivity.
Qed.

(** ** The loop raises no shape error *)

Lemma soft_update_loop_shapes tau0 : forall ps ts r,
  soft_update_loop tau0 ps ts = Some r -> map shape r = map shape ts.
Proof.
  induction ps as [|p ps IH]; intros [|t ts] r H; cbn [soft_update_loop] in H;
    try (injection H as <-; reflexivity).
  unbind H. unbind H. injection H as <-. cbn [map]. f_equal.
  - unfold soft_update in E. unbind E. unfold copy_ in E. unbind E.
    destruct (shape_eqb _ _); [|discriminate]. injection E as <-. reflexivity.
  - eapply IH; eassumption.
Qed.

(** The critic has [QNetwork]'s shapes, the momentum the critic's, and each
    target network the shapes of its live network. *)
Definition shapes_agree (obs_shape act_shape : list nat) (st : TrainState) : Prop :=
  shapes (qf1 st) = QNetwork_shapes obs_shape act_shape /\
  shapes (m_qf1 st) = shapes (qf1 st) /\
  map shape (parameters (qf1_target st)) = map shape (parameters (qf1 st)) /\
  map shape (parameters (target_actor st)) = map shape (parameters (actor st)).

Lemma map_shape_length {S} (l l' : list (tensor S)) :
  map shape l = map shape l' -> length l = length l'.
Proof. intros H. apply (f_equal (@length _)) in H. now rewrite !length_map in H. Qed.

Lemma learn_shapes_agree obs_shape act_shape global_step st st' :
  shapes_agree obs_shape act_shape st ->
  learn global_step st = Some st' ->
  shapes_agree obs_shape act_shape st'.
Proof.
  intros (Hq & Hm & Htq & Hta) H. unfold learn in H. unbind H. destruct v as [d st1].
  cbn [fst snd] in H.
  destruct (critic_update_shapes _ _ _ _ Hm E) as [Hq1 Hm1].
  destruct (critic_update_frame _ _ _ _ E) as (Ha1 & Hta1 & Htq1 & _).
  assert (I1 : shapes_agree obs_shape act_shape st1).
  { unfold shapes_agree. rewrite Htq1, Hta1, Ha1, Htq. repeat split; try congruence.
    symmetry. now apply shapes_parameters. }
  destruct (policy_frequency args =? 0)%Z; [discriminate|].
  destruct (Z.of_nat global_step mod policy_frequency args =? 0)%Z;
    [|injection H as <-; exact I1].
  destruct I1 as (Iq & Im & Itq & Ita).
  unfold policy_update in H. unbind H. rename v into ta. unbind H. rename v into tq.
  injection H as <-. unfold shapes_agree. cbn [qf1 m_qf1 qf1_target target_actor actor].
  pose proof (soft_update_loop_shapes _ _ _ _ E0) as Sa.
  pose proof (soft_update_loop_shapes _ _ _ _ E1) as Sq.
  repeat split; try assumption.
  - rewrite parameters_with_parameters
      by (rewrite <- (parameters_length (qf1_target st1)); now apply map_shape_length).
    congruence.
  - rewrite !parameters_with_parameters.
    + rewrite opt_step_shapes. congruence.
    + rewrite opt_step_length. apply parameters_length.
    + rewrite <- (parameters_length (target_actor st1)). now apply map_shape_length.
Qed.

Lemma iteration_defined obs_shape act_shape global_step st :
  policy_frequency args <> 0%Z ->
  batch_size args <> 0%nat ->
  (forall b g, batch_of (batch_size args) (rb_sample b g (batch_size args))) ->
  (exists st1, interact global_step st = Some st1) ->
  shapes_agree obs_shape act_shape st ->
  exists st', iteration global_step st = Some st' /\ shapes_agree obs_shape act_shape st'.
Proof.
  intros Hpf Hn Hb (st1 & H1) I. unfold iteration. rewrite H1. cbn [bind].
  destruct (interact_frame _ _ _ H1) as (Ha & Hq & Hm & Htq & Hta & _).
  assert (I1 : shapes_agree obs_shape act_shape st1).
  { destruct I as (Iq & Im & Itq & Ita). unfold shapes_agree. repeat split; congruence. }
  destruct (Z.ltb_spec (learning_starts args) (Z.of_nat global_step)) as [Hl|Hl];
    [|eauto].
  destruct I1 as (Iq & Im & Itq & Ita).
  destruct (learning_step_defined obs_shape act_shape global_step st1 Hl Hpf Hn (Hb _ _)
              Iq Im Itq Ita) as (st' & Hs & _).
  exists st'. split; [exact Hs|].
  eapply learn_shapes_agree; [|exact Hs]. repeat split; assumption.
Qed.

Lemma run_defined obs_shape act_shape st0 :
  policy_frequency args <> 0%Z ->
  batch_size args <> 0%nat ->
  (forall b g, batch_of (batch_size args) (rb_sample b g (batch_size args))) ->
  (forall g st, exists st1, interact g st = Some st1) ->
  shapes_agree obs_shape act_shape st0 ->
  forall n, exists st, run n st0 = Some st /\ shapes_agree obs_shape act_shape st.
Proof.
  intros Hpf Hn Hb Hi I0. induction n as [|n (st & Hr & I)].
  - eexists. split; [reflexivity | exact I0].
  - destruct (iteration_defined obs_shape act_shape n st Hpf Hn Hb (Hi n st) I)
      as (st' & Hs & I').
    exists st'. split; [|exact I']. cbn [run]. rewrite Hr. exact Hs.
Qed.

Lemma startup_shapes_agree obs_shape act_shape (qf1_values m_values : string -> list Q)
  actor0 q0 a0 M0 rb0 obs0 env0 :
  shapes_agree obs_shape act_shape
    (startup actor0 (QNetwork_init qf1_values obs_shape act_shape)
       (QNetwork_init m_values obs_shape act_shape) q0 a0 M0 rb0 obs0 env0).
Proof.
  unfold shapes_agree.
  repeat split; cbn [startup qf1 m_qf1 qf1_target target_actor actor]; reflexivity.
Qed.

(** ** The binding of [actor_loss] *)

(** Lines 260, 336-337 and 348-350 as far as the name [actor_loss] goes: the
    delayed update of a step binds it, and the metrics of every hundredth
    learning step read it.  [bound] tells whether an earlier step has bound
    it; the result is [None] where the script raises ([ZeroDivisionError] at
    line 336, [NameError] at line 350). *)
Definition metrics_step (global_step : nat) (bound : bool) : option bool :=
  if (learning_starts args <? Z.of_nat global_step)%Z then
    if (policy_frequency args =? 0)%Z then None
    else
      let bound := bound || (Z.of_nat global_step mod policy_frequency args =? 0)%Z in
      if (Z.of_nat global_step mod 100 =? 0)%Z then
        if bound then Some bound else None
      else Some bound
  else Some bound.

(** The binding after [for global_step in range(n)], the name being unbound
    at the start. *)
Fixpoint metrics_run (n : nat) : option bool :=
  match n with
  | O => Some false
  | S k => do b <- metrics_run k; metrics_step k b
  end.

(** X16.  Metrics after a delayed update.  When [policy_frequency] divides
    100, as the default 2 does, every step that emits metrics has run the
    delayed update itself, so [actor_loss] is bound whenever it is read. *)
Theorem metrics_read_bound_actor_loss :
  policy_frequency args <> 0%Z -> (policy_frequency args | 100)%Z ->
  forall n, exists b, metrics_run n = Some b.
Proof.
  intros Hpf [c Hc] n. induction n as [|n (b & Hb)]; [eexists; reflexivity|].
  cbn [metrics_run]. rewrite Hb. cbn [bind]. unfold metrics_step.
  destruct (_ <? _)%Z; [|eauto].
  destruct (Z.eqb_spec (policy_frequency args) 0); [contradiction|].
  destruct (Z.eqb_spec (Z.of_nat n mod 100) 0) as [H100|H100]; [|eauto].
  assert (Hm : (Z.of_nat n mod policy_frequency args = 0)%Z).
  { apply Z.mod_divide; [assumption|].
    apply Z.mod_divide in H100; [|discriminate]. destruct H100 as [q Hq].
    exists (q * c)%Z. rewrite Hq, Hc. ring. }
  rewrite Hm. cbn. rewrite orb_true_r. eauto.
Qed.

(** X17.  Metrics before any delayed update.  When no multiple of
    [policy_frequency] lies between [learning_starts] and the first multiple
    [g] of 100 after it, step [g] reads [actor_loss] before any step has bound
    it: the loop raises [NameError] there. *)
Theorem metrics_read_unbound_actor_loss :
  let g := (100 * (learning_starts args / 100 + 1))%Z in
  (0 <= learning_starts args)%Z ->
  policy_frequency args <> 0%Z ->
  (forall k, (learning_starts args < k <= g)%Z -> (k mod policy_frequency args <> 0)%Z) ->
  (forall n, (Z.of_nat n <= g)%Z -> metrics_run n = Some false) /\
  metrics_run (S (Z.to_nat g)) = None.
Proof.
  intros g Hls Hpf Hno.
  assert (Hg : (learning_starts args < g /\ g mod 100 = 0 /\ 0 <= g)%Z).
  { pose proof (Z.div_mod (learning_starts args) 100 ltac:(discriminate)) as Hd.
    pose proof (Z.mod_pos_bound (learning_starts args) 100 eq_refl) as Hb.
    subst g. split; [lia|]. split; [|lia].
    rewrite Z.mul_comm. apply Z.mod_mul. discriminate. }
  assert (Hpre : forall n, (Z.of_nat n <= g)%Z -> metrics_run n = Some false).
  { induction n as [|n IH]; intros Hn; [reflexivity|].
    cbn [metrics_run]. rewrite IH by lia. cbn [bind]. unfold metrics_step.
    destruct (Z.ltb_spec (learning_starts args) (Z.of_nat n)) as [Hl|Hl]; [|reflexivity].
    destruct (Z.eqb_spec (policy_frequency args) 0); [contradiction|].
    destruct (Z.eqb_spec (Z.of_nat n mod policy_frequency args) 0) as [Hm|Hm].
    { exfalso. apply (Hno (Z.of_nat n)); [lia | exact Hm]. }
    cbn [orb].
    destruct (Z.eqb_spec (Z.of_nat n mod 100) 0) as [H100|H100]; [|reflexivity].
    exfalso.
    pose proof (Z.div_mod (learning_starts args) 100 ltac:(discriminate)) as Hd.
    pose proof (Z.mod_pos_bound (learning_starts args) 100 eq_refl) as Hb.
    pose proof (Z.div_mod (Z.of_nat n) 100 ltac:(discriminate)) as Hd'.
    subst g. lia. }
  split; [exact Hpre|].
  cbn [metrics_run]. rewrite Hpre by lia. cbn [bind]. unfold metrics_step.
  rewrite Z2Nat.id by lia.
  destruct (Z.ltb_spec (learning_starts args) g) as [Hl|Hl]; [|lia].
  destruct (Z.eqb_spec (policy_frequency args) 0); [contradiction|].
  destruct (Z.eqb_spec (g mod policy_frequency args) 0) as [Hm|Hm].
  { exfalso. apply (Hno g); [lia | exact Hm]. }
  cbn [orb]. destruct Hg as (_ & -> & _). reflexivity.
Qed.

(** With bounds, scale and bias of a single entry, noise of the shape of its
    deviation and an environment whose infos hold the terminal observation of
    every finished episode, the environment step never raises. *)
Lemma interact_defined :
  shape action_scale = [1%nat] -> shape action_bias = [1%nat] ->
  shape action_low = [1%nat] -> shape action_high = [1%nat] ->
  (forall g std, shape (normal g std) = shape std) ->
  (forall e a, exists o, real_next_obs (snd (env_step e a)) = Some o) ->
  forall g st, exists st1, interact g st = Some st1.
Proof.
  intros Hsc Hbi Hlo Hhi Hno Henv g st. unfold interact.
  assert (Ha : exists a, select_action g st = Some a).
  { unfold select_action. destruct (_ <? _)%Z; [eauto|]. unfold policy_action, Actor_forward.
    match goal with |- context [tmul ?x action_scale] =>
      destruct (broadcast2_one_defined rmul x action_scale Hsc) as (y & Hy & Sy) end.
    unfold tmul. rewrite Hy. cbn [bind].
    destruct (broadcast2_one_defined radd y action_bias Hbi) as (z & Hz & Sz).
    unfold tadd at 1. rewrite Hz. cbn [bind].
    assert (Sz' : shape z <> [] /\ match shape z with [] => [1%nat] | _ => shape z end = shape z).
    { rewrite Sz. destruct (shape y); split; try discriminate; reflexivity. }
    destruct Sz' as [Sz1 Sz2].
    unfold iadd.
    destruct (broadcast2_one_defined radd z
                (normal g (tscale (exploration_noise args) action_scale))) as (w & Hw & Sw).
    { rewrite Hno. exact Hsc. }
    unfold tadd. rewrite Hw. rewrite Sw, Sz2, shape_eqb_refl. cbn [bind].
    unfold clip.
    destruct (broadcast2_one_defined Qmax w action_low Hlo) as (u & Hu & _).
    rewrite Hu. cbn [bind].
    destruct (broadcast2_one_defined Qmin u action_high Hhi) as (v & Hv & _).
    rewrite Hv. eauto. }
  destruct Ha as (a & ->). cbn [bind].
  destruct (Henv (env st) a) as (o & ->). cbn [bind]. eauto.
Qed.

End Orchestrator.

Arguments actor {Env RB q_optimizer actor_optimizer M_optimizer} _.
Arguments qf1 {Env RB q_optimizer actor_optimizer M_optimizer} _.
Arguments qf1_target {Env RB q_optimizer actor_optimizer M_optimizer} _.
Arguments target_actor {Env RB q_optimizer actor_optimizer M_optimizer} _.
Arguments m_qf1 {Env RB q_optimizer actor_optimizer M_optimizer} _.
Arguments rb {Env RB q_optimizer actor_optimizer M_optimizer} _.
Arguments critic_updates {Env RB q_optimizer actor_optimizer M_optimizer} _.

(** ** The first learning step *)

Definition with_learning_starts (a : Args) (ls : Z) : Args :=
  mkArgs (gamma a) (tau a) (batch_size a) (exploration_noise a) ls
    (policy_frequency a) (learning_rate a) (total_timesteps a).

(** C5.  At [global_step = learning_starts] the action already comes from the
    actor (the guard [global_step < learning_starts] of line 229 is false), but
    the guard [global_step > learning_starts] of line 260 is false as well: the
    step is the environment step alone and no critic update runs. *)
Theorem no_update_at_learning_starts :
  forall (args : Args) (Env RB : Type) env_step sample_action normal rb_add rb_sample tanh
         action_scale action_bias action_low action_high actor_backward
         (q_optimizer actor_optimizer M_optimizer : Optimizer) (global_step : nat)
         (st : TrainState Env RB q_optimizer actor_optimizer M_optimizer),
    let args' := with_learning_starts args (Z.of_nat global_step) in
    select_action args' Env RB sample_action normal tanh action_scale action_bias
      action_low action_high q_optimizer actor_optimizer M_optimizer global_step st
    = policy_action args' Env RB normal tanh action_scale action_bias
        action_low action_high q_optimizer actor_optimizer M_optimizer global_step st
    /\
    iteration args' Env RB env_step sample_action normal rb_add rb_sample tanh
      action_scale action_bias action_low action_high actor_backward
      q_optimizer actor_optimizer M_optimizer global_step st
    = interact args' Env RB env_step sample_action normal rb_add tanh
        action_scale action_bias action_low action_high
        q_optimizer actor_optimizer M_optimizer global_step st.
Proof.
  intros. split.
  - unfold select_action. subst args'. cbn [with_learning_starts learning_starts].
    now rewrite Z.ltb_irrefl.
  - apply warmup_iteration. subst args'. cbn. lia.
Qed.

(** ** An example run *)

(** The default arguments of the script. *)
Definition default_args : Args :=
  mkArgs 0.99 0.005 256 0.1 25000 2 (3 # 10000) 1000000.

(** An environment with one observation and one action dimension that always
    answers with observation 0 and reward 0 and never ends an episode. *)
Definition example_env_step (e : unit) (a : tensor Q) : unit * StepResult :=
  (tt, mkStepResult (mkTensor [1%nat; 1%nat] [0]) (mkTensor [1%nat] [0]) [false] [None]).

(** The entries of the all-zero critic. *)
Definition zero_values (name : string) : list Q := data (param example_zero name).

(** Steps of the loop in that environment, with a replay buffer kept as the
    list of its entries, [RMSprop] for the three optimizers, a critic started
    at zero and an actor without parameters. *)
Definition example_run (n : nat)
  : option (TrainState unit (list RbEntry) (RMSprop 0.0003) (RMSprop 0.0003) (RMSprop 0.00015)) :=
  run default_args unit (list RbEntry) example_env_step
    (fun _ => mkTensor [1%nat; 1%nat] [0]) (fun _ std => std)
    (fun rb e => rb ++ [e]) (fun _ _ _ => example_transitions) (fun x => x)
    (mkTensor [1%nat] [1]) (mkTensor [1%nat] [0]) (mkTensor [1%nat] [-1]) (mkTensor [1%nat] [1])
    (fun _ _ _ => []) (RMSprop 0.0003) (RMSprop 0.0003) (RMSprop 0.00015) n
    (startup unit (list RbEntry) (RMSprop 0.0003) (RMSprop 0.0003) (RMSprop 0.00015)
       [] (QNetwork_init zero_values [1%nat] [1%nat])
       (QNetwork_init zero_values [1%nat] [1%nat]) [] [] [] []
       (mkTensor [1%nat; 1%nat] [0]) tt).

Lemma example_run_defined : exists st, example_run 2 = Some st.
Proof.
  destruct (example_run 2) as [st|] eqn:E.
  - exists st. reflexivity.
  - exfalso.
    assert (H : match example_run 2 with Some _ => true | None => false end = true)
      by (vm_compute; reflexivity).
    rewrite E in H. discriminate.
Defined.

Lemma warmup_freezes_parameters_witness :
  (Z.of_nat 2 <= learning_starts default_args)%Z /\
  exists st, example_run 2 = Some st /\
             qf1 st = QNetwork_init zero_values [1%nat] [1%nat] /\
             length (rb st) = 2%nat.
Proof.
  assert (Hle : (Z.of_nat 2 <= learning_starts default_args)%Z) by discriminate.
  split; [exact Hle|].
  destruct example_run_defined as [st E]. exists st. split; [exact E|].
  unfold example_run in E.
  destruct (warmup_freezes_parameters _ _ _ _ _ _ _ _ _ _ _ _ _ _ _ _ _ _ _ _ Hle E)
    as (_ & Hq & _ & _ & es & Hes & Hrb).
  split; [exact Hq|].
  rewrite Hrb. cbn [startup rb]. clear -Hes.
  assert (Hf : forall (l acc : list RbEntry),
             length (fold_left (fun rb e => rb ++ [e]) l acc)
             = (length acc + length l)%nat).
  { induction l as [|x l IH]; intros acc; simpl; [lia|]. rewrite IH, length_app. simpl. lia. }
  rewrite Hf, Hes. reflexivity.
Defined.

(** * Examples for the further properties *)

Lemma clip_within_bounds_witness :
  exists r, clip (mkTensor [1%nat; 1%nat] [3]) (mkTensor [1%nat] [-1]) (mkTensor [1%nat] [1])
            = Some r /\
            shape r = [1%nat; 1%nat] /\
            forall i, (i < 1)%nat ->
              nth i (data r) 0 <= nth i [1] 0 /\
              (nth i [-1] 0 <= nth i [1] 0 -> nth i [-1] 0 <= nth i (data r) 0) /\
              (nth i [-1] 0 <= nth i [3] 0 -> nth i [3] 0 <= nth i [1] 0 ->
               nth i (data r) 0 == nth i [3] 0).
Proof.
  apply (clip_within_bounds (mkTensor [1%nat; 1%nat] [3]) (mkTensor [1%nat] [-1])
           (mkTensor [1%nat] [1]) 1); reflexivity.
Defined.

Lemma l1_params_zero_iff_witness :
  0 <= 3 # 2 /\
  (3 # 2 == 0 <-> entries_zero (parameters [("w"%string, mkTensor [2%nat] [1; -2])])).
Proof.
  apply (l1_params_zero_iff [("w"%string, mkTensor [2%nat] [1; -2])] (3 # 2)).
  vm_compute. reflexivity.
Defined.

Lemma real_next_obs_running_witness :
  real_next_obs (snd (example_env_step tt (mkTensor [1%nat; 1%nat] [0])))
  = Some (mkTensor [1%nat; 1%nat] [0]).
Proof.
  apply (real_next_obs_running (snd (example_env_step tt (mkTensor [1%nat; 1%nat] [0])))).
  - reflexivity.
  - discriminate.
  - repeat constructor.
Defined.

Lemma real_next_obs_done_witness :
  real_next_obs (mkStepResult (mkTensor [1%nat; 1%nat] [0]) (mkTensor [1%nat] [1]) [true]
                   [Some (mkTensor [1%nat] [5])])
  = Some (unsqueeze0 (mkTensor [1%nat] [5])) /\
  real_next_obs (mkStepResult (mkTensor [1%nat; 1%nat] [0]) (mkTensor [1%nat] [1]) [true]
                   [None]) = None.
Proof.
  apply (real_next_obs_done 1 [0] (mkTensor [1%nat] [5]) (mkTensor [1%nat] [1])).
  reflexivity.
Defined.

Lemma example_transitions_batch : batch_of 1 example_transitions.
Proof. exists [1%nat], [1%nat], [1%nat], [1%nat], [1%nat]. repeat split. Qed.

(** A stand-in for [tanh] with rational values: the clamp to [-1, 1]. *)
Definition example_tanh (z : Q) : Q := Qmax (-1) (Qmin 1 z).

(** The all-zero actor for one observation and one action dimension. *)
Definition example_actor : state_dict Q :=
  map (fun ns => (fst ns, zeros (snd ns))) (Actor_shapes [1%nat] [1%nat]).

(** ** The loop with learning steps *)

(** The default arguments with a batch of one transition and no warm-up. *)
Definition example_args : Args := mkArgs 0.99 0.005 1 0.1 0 2 (3 # 10000) 1000000.

(** The example environment of the warm-up run, driven with arguments [a]. *)
Definition example_loop (a : Args) (n : nat)
  : option (TrainState unit (list RbEntry) (RMSprop 0.0003) (RMSprop 0.0003) (RMSprop 0.00015)) :=
  run a unit (list RbEntry) example_env_step
    (fun _ => mkTensor [1%nat; 1%nat] [0]) (fun _ std => std)
    (fun rb e => rb ++ [e]) (fun _ _ _ => example_transitions) (fun x => x)
    (mkTensor [1%nat] [1]) (mkTensor [1%nat] [0]) (mkTensor [1%nat] [-1]) (mkTensor [1%nat] [1])
    (fun _ _ _ => []) (RMSprop 0.0003) (RMSprop 0.0003) (RMSprop 0.00015) n
    (startup unit (list RbEntry) (RMSprop 0.0003) (RMSprop 0.0003) (RMSprop 0.00015)
       [] (QNetwork_init zero_values [1%nat] [1%nat])
       (QNetwork_init zero_values [1%nat] [1%nat]) [] [] [] []
       (mkTensor [1%nat; 1%nat] [0]) tt).

Lemma example_loop_unfold (a : Args) n :
  example_loop a n
  = run a unit (list RbEntry) example_env_step
      (fun _ => mkTensor [1%nat; 1%nat] [0]) (fun _ std => std)
      (fun rb e => rb ++ [e]) (fun _ _ _ => example_transitions) (fun x => x)
      (mkTensor [1%nat] [1]) (mkTensor [1%nat] [0]) (mkTensor [1%nat] [-1])
      (mkTensor [1%nat] [1])
      (fun _ _ _ => []) (RMSprop 0.0003) (RMSprop 0.0003) (RMSprop 0.00015) n
      (startup unit (list RbEntry) (RMSprop 0.0003) (RMSprop 0.0003) (RMSprop 0.00015)
         [] (QNetwork_init zero_values [1%nat] [1%nat])
         (QNetwork_init zero_values [1%nat] [1%nat]) [] [] [] []
         (mkTensor [1%nat; 1%nat] [0]) tt).
Proof. reflexivity. Qed.

Lemma example_loop_step (a : Args) n :
  example_loop a (S n)
  = do st <- example_loop a n;
    iteration a unit (list RbEntry) example_env_step
      (fun _ => mkTensor [1%nat; 1%nat] [0]) (fun _ std => std)
      (fun rb e => rb ++ [e]) (fun _ _ _ => example_transitions) (fun x => x)
      (mkTensor [1%nat] [1]) (mkTensor [1%nat] [0]) (mkTensor [1%nat] [-1])
      (mkTensor [1%nat] [1])
      (fun _ _ _ => []) (RMSprop 0.0003) (RMSprop 0.0003) (RMSprop 0.00015) n st.
Proof. reflexivity. Qed.

Lemma example_interact_defined (a : Args) g st :
  exists st1,
    interact a unit (list RbEntry) example_env_step
      (fun _ => mkTensor [1%nat; 1%nat] [0]) (fun _ std => std)
      (fun rb e => rb ++ [e]) (fun x => x)
      (mkTensor [1%nat] [1]) (mkTensor [1%nat] [0]) (mkTensor [1%nat] [-1])
      (mkTensor [1%nat] [1]) (RMSprop 0.0003) (RMSprop 0.0003) (RMSprop 0.00015) g st
    = Some st1.
Proof.
  apply interact_defined; try reflexivity.
  intros e x. eexists. reflexivity.
Qed.

Lemma example_loop_defined (a : Args) n :
  policy_frequency a <> 0%Z -> batch_size a = 1%nat ->
  exists st, example_loop a n = Some st.
Proof.
  intros Hpf Hb. rewrite example_loop_unfold.
  edestruct run_defined with (obs_shape := [1%nat]) (act_shape := [1%nat])
    as (st & Hr & _); [exact Hpf | | | | | exists st; exact Hr].
  - rewrite Hb. discriminate.
  - intros b g. rewrite Hb. exact example_transitions_batch.
  - intros g st. apply example_interact_defined.
  - apply startup_shapes_agree.
Qed.

Lemma targets_move_only_on_policy_steps_witness :
  exists st st',
    example_loop example_args 1 = Some st /\ example_loop example_args 2 = Some st' /\
    actor st' = actor st /\ target_actor st' = target_actor st /\
    qf1_target st' = qf1_target st.
Proof.
  destruct (example_loop_defined example_args 2) as [st' E2];
    [discriminate | reflexivity |].
  pose proof E2 as E. rewrite example_loop_step in E.
  apply bind_some in E. destruct E as (st & E1 & E).
  exists st, st'. split; [exact E1|]. split; [exact E2|].
  eapply targets_move_only_on_policy_steps; [|exact E].
  right. discriminate.
Defined.

Lemma critic_updates_count_witness :
  exists st, example_loop example_args 3 = Some st /\ critic_updates st = 2%nat.
Proof.
  destruct (example_loop_defined example_args 3) as [st E];
    [discriminate | reflexivity |].
  exists st. split; [exact E|].
  rewrite example_loop_unfold in E.
  rewrite (critic_updates_count _ _ _ _ _ _ _ _ _ _ _ _ _ _ _ _ _ _ _ _ E).
  reflexivity.
Defined.

Lemma one_entry_per_step_witness :
  exists st es, example_loop example_args 3 = Some st /\
                length es = 3%nat /\
                rb st = fold_left (fun rb e => rb ++ [e]) es [] /\
                (forall e, hd_error es = Some e -> rb_obs e = mkTensor [1%nat; 1%nat] [0]).
Proof.
  destruct (example_loop_defined example_args 3) as [st E];
    [discriminate | reflexivity |].
  pose proof E as E'. rewrite example_loop_unfold in E'.
  destruct (one_entry_per_step _ _ _ _ _ _ _ _ _ _ _ _ _ _ _ _ _ _ _ _ E')
    as (es & Hlen & Hrb & Hhd).
  exists st, es. split; [exact E|]. split; [exact Hlen|]. split; [exact Hrb|exact Hhd].
Defined.

Lemma metrics_read_bound_actor_loss_witness :
  exists b, metrics_run default_args 201 = Some b.
Proof.
  apply (metrics_read_bound_actor_loss default_args).
  - discriminate.
  - exists 50%Z. reflexivity.
Defined.

(** The default arguments with [--policy-frequency 1000]. *)
Definition example_args_rare_updates : Args :=
  mkArgs 0.99 0.005 256 0.1 25000 1000 (3 # 10000) 1000000.

Lemma metrics_read_unbound_actor_loss_witness :
  (forall n, (Z.of_nat n <= 25100)%Z -> metrics_run example_args_rare_updates n = Some false) /\
  metrics_run example_args_rare_updates (S (Z.to_nat 25100)) = None.
Proof.
  apply (metrics_read_unbound_actor_loss example_args_rare_updates).
  - discriminate.
  - discriminate.
  - cbn [learning_starts policy_frequency example_args_rare_updates].
    intros k Hk Hm.
    change (100 * (25000 / 100 + 1))%Z with 25100%Z in Hk.
    pose proof (Z.div_mod k 1000 ltac:(discriminate)) as Hd.
    rewrite Hm in Hd. lia.
Defined.


(** A target actor that answers the action 0 for every row, and a batch of
    two transitions, the second of them terminal. *)
Definition example_rowwise_actor (x : tensor Q) : tensor Q :=
  mkTensor [hd 0%nat (shape x); 1%nat] (repeat 0 (hd 0%nat (shape x))).

Definition example_batch : Batch :=
  mkBatch (mkTensor [2%nat; 1%nat] [1; 2]) (mkTensor [2%nat; 1%nat] [0; 1])
    (mkTensor [2%nat; 1%nat] [2; 3]) (mkTensor [2%nat; 1%nat] [0; 1])
    (mkTensor [2%nat; 1%nat] [1; 0]).

Lemma batch_gradient_is_weighted_mean_witness :
  partial (fun p => qf1_loss example_rowwise_actor 0.99 p example_batch)
    example_zero "fc3.bias" 0
  == 2 / inject_Z (Z.of_nat 2)
     * sum_all (map (fun s => let '(o, a, r, no, d) := s in
                      compute_delta example_rowwise_actor 0.99 example_zero o a r no d
                      * partial (fun p => compute_delta example_rowwise_actor 0.99 p o a r no d)
                          example_zero "fc3.bias" 0)
                  (samples example_batch)).
Proof.
  apply (batch_gradient_is_weighted_mean [1%nat] [1%nat] example_rowwise_actor 0.99
           example_zero example_batch 2 1 1 "fc3.bias" 0);
    try (vm_compute; reflexivity).
  intros [|[|i]] Hi; [reflexivity | reflexivity | lia].
Defined.

Lemma per_sample_gradient_engine_witness :
  samples example_batch = map (transition example_batch 2 1 1) (seq 0 2) /\
  forall name p, lookup name example_zero = Some p ->
    lookup name (compute_sample_nabla_delta example_rowwise_actor 0.99 example_zero example_batch)
    = Some (stack0 (shape p)
              (map (sample_gradient example_rowwise_actor 0.99 example_zero name p)
                 (samples example_batch))) /\
    forall i, (i < 2)%nat ->
      let '(o, a, r, no, d) := transition example_batch 2 1 1 i in
      let r_i := nth i (data (rewards example_batch)) 0 in
      let done_i := nth i (data (dones example_batch)) 0 in
      compute_delta example_rowwise_actor 0.99 example_zero o a r no d
      == r_i + (1 - done_i) * 0.99
               * Q_value example_zero (unsqueeze0 no) (example_rowwise_actor (unsqueeze0 no))
         - Q_value example_zero (unsqueeze0 o) (unsqueeze0 a) /\
      forall k, (k < length (data p))%nat ->
        nth k (data (sample_gradient example_rowwise_actor 0.99 example_zero name p
                       (o, a, r, no, d))) 0
        == (1 - done_i) * 0.99
           * partial (fun q => Q_value q (unsqueeze0 no) (example_rowwise_actor (unsqueeze0 no)))
               example_zero name k
           - partial (fun q => Q_value q (unsqueeze0 o) (unsqueeze0 a)) example_zero name k.
Proof.
  apply (per_sample_gradient_engine [1%nat] [1%nat] example_rowwise_actor 0.99
           example_zero example_batch 2 1 1);
    try (vm_compute; reflexivity).
  intros [|[|i]] Hi; [split; reflexivity | split; reflexivity | lia].
Defined.

Lemma terminal_residual_witness :
  compute_delta example_target_actor 0.99 example_zero (mkTensor [1%nat] [0])
    (mkTensor [1%nat] [0]) (mkTensor [1%nat] [5]) (mkTensor [1%nat] [0]) (mkTensor [1%nat] [1])
  == 5 - Q_value example_zero (unsqueeze0 (mkTensor [1%nat] [0]))
           (unsqueeze0 (mkTensor [1%nat] [0])) /\
  forall name k,
    partial (fun q => compute_delta example_target_actor 0.99 q (mkTensor [1%nat] [0])
                        (mkTensor [1%nat] [0]) (mkTensor [1%nat] [5]) (mkTensor [1%nat] [0])
                        (mkTensor [1%nat] [1])) example_zero name k
    == - partial (fun q => Q_value q (unsqueeze0 (mkTensor [1%nat] [0]))
                             (unsqueeze0 (mkTensor [1%nat] [0]))) example_zero name k.
Proof.
  apply (terminal_residual [1%nat] [1%nat] example_target_actor 0.99 example_zero
           (mkTensor [1%nat] [0]) (mkTensor [1%nat] [0]) (mkTensor [1%nat] [5])
           (mkTensor [1%nat] [0]) (mkTensor [1%nat] [1]) 1 1 5);
    vm_compute; reflexivity.
Defined.

Lemma full_well_formed {A} s (v : A) : well_formed (full s v).
Proof. unfold well_formed, full. cbn [data shape]. apply repeat_length. Qed.

Lemma example_G_full_paired :
  Forall (fun p => exists g, lookup (fst p) example_G_full = Some g /\
                             shape g = 1%nat :: shape (snd p) /\ well_formed g)
    example_zero.
Proof.
  unfold example_zero, example_shapes, QNetwork_shapes, Linear_shapes.
  cbn [map app fst snd].
  repeat (constructor;
          [eexists (full _ 3); split; [reflexivity | split; [reflexivity | apply full_well_formed]]|]).
  constructor.
Qed.

Lemma zero_momentum_zero_gradient_witness :
  exists stale',
    reshape_gradients 1 example_G_full None example_zero example_zero
    = Some (map (fun p => zeros (shape (snd p))) example_zero, stale').
Proof.
  apply (zero_momentum_zero_gradient [1%nat] [1%nat] 1 example_G_full None
           example_zero example_zero).
  - discriminate.
  - reflexivity.
  - reflexivity.
  - exact example_G_full_paired.
  - repeat (constructor; [reflexivity|]). constructor.
Defined.

(** ** A run with learning updates *)

(** The backward pass of the actor loss on the zero critic: zero gradients of
    the actor's shapes. *)
Definition example_actor_backward (actor qf1 : state_dict Q) (data : Batch)
  : list (option (tensor Q)) :=
  map (fun p => Some (zeros (shape p))) (parameters actor).

(** The example environment driven by the zero actor and the zero critic, with
    noise draws equal to 0, a replay buffer that hands out the transition the
    environment produces, no warm-up and batches of one transition. *)
Definition example_learning_loop (n : nat)
  : option (TrainState unit (list RbEntry) (RMSprop 0.0003) (RMSprop 0.0003) (RMSprop 0.00015)) :=
  run example_args unit (list RbEntry) example_env_step
    (fun _ => mkTensor [1%nat; 1%nat] [0]) (fun _ std => tmap (fun _ => 0) std)
    (fun rb e => rb ++ [e]) (fun _ _ _ => example_transitions) example_tanh
    (mkTensor [1%nat] [1]) (mkTensor [1%nat] [0]) (mkTensor [1%nat] [-1]) (mkTensor [1%nat] [1])
    example_actor_backward (RMSprop 0.0003) (RMSprop 0.0003) (RMSprop 0.00015) n
    (startup unit (list RbEntry) (RMSprop 0.0003) (RMSprop 0.0003) (RMSprop 0.00015)
       example_actor (QNetwork_init zero_values [1%nat] [1%nat])
       (QNetwork_init zero_values [1%nat] [1%nat]) [] [] [] []
       (mkTensor [1%nat; 1%nat] [0]) tt).

Lemma example_learning_loop_step n :
  example_learning_loop (S n)
  = do st <- example_learning_loop n;
    iteration example_args unit (list RbEntry) example_env_step
      (fun _ => mkTensor [1%nat; 1%nat] [0]) (fun _ std => tmap (fun _ => 0) std)
      (fun rb e => rb ++ [e]) (fun _ _ _ => example_transitions) example_tanh
      (mkTensor [1%nat] [1]) (mkTensor [1%nat] [0]) (mkTensor [1%nat] [-1])
      (mkTensor [1%nat] [1])
      example_actor_backward (RMSprop 0.0003) (RMSprop 0.0003) (RMSprop 0.00015) n st.
Proof. reflexivity. Qed.

Lemma example_learning_loop_unfold n :
  example_learning_loop n
  = run example_args unit (list RbEntry) example_env_step
      (fun _ => mkTensor [1%nat; 1%nat] [0]) (fun _ std => tmap (fun _ => 0) std)
      (fun rb e => rb ++ [e]) (fun _ _ _ => example_transitions) example_tanh
      (mkTensor [1%nat] [1]) (mkTensor [1%nat] [0]) (mkTensor [1%nat] [-1])
      (mkTensor [1%nat] [1])
      example_actor_backward (RMSprop 0.0003) (RMSprop 0.0003) (RMSprop 0.00015) n
      (startup unit (list RbEntry) (RMSprop 0.0003) (RMSprop 0.0003) (RMSprop 0.00015)
         example_actor (QNetwork_init zero_values [1%nat] [1%nat])
         (QNetwork_init zero_values [1%nat] [1%nat]) [] [] [] []
         (mkTensor [1%nat; 1%nat] [0]) tt).
Proof. reflexivity. Qed.

Lemma example_learning_loop_defined n : exists st, example_learning_loop n = Some st.
Proof.
  rewrite example_learning_loop_unfold.
  edestruct run_defined with (obs_shape := [1%nat]) (act_shape := [1%nat])
    as (st & Hr & _); [| | | | | exists st; exact Hr].
  - discriminate.
  - discriminate.
  - intros b g. exact example_transitions_batch.
  - apply interact_defined; try reflexivity.
    intros e x. eexists. reflexivity.
  - apply startup_shapes_agree.
Qed.

Lemma momentum_shapes_invariant_witness :
  exists st, example_learning_loop 3 = Some st /\
             critic_updates st = 2%nat /\
             shapes (m_qf1 st) = shapes (qf1 st) /\
             shapes (qf1 st) = QNetwork_shapes [1%nat] [1%nat].
Proof.
  destruct (example_learning_loop_defined 3) as [st E]. exists st. split; [exact E|].
  split.
  - pose proof E as E3. rewrite example_learning_loop_step in E3.
    apply bind_some in E3. destruct E3 as (st2 & E2 & I2).
    rewrite example_learning_loop_step in E2.
    apply bind_some in E2. destruct E2 as (st1 & E1 & I1).
    rewrite example_learning_loop_step in E1.
    apply bind_some in E1. destruct E1 as (st0 & E0 & I0).
    injection E0 as <-.
    apply learning_iteration in I2; [|reflexivity].
    apply learning_iteration in I1; [|reflexivity].
    rewrite warmup_iteration in I0 by discriminate.
    apply interact_frame in I0. destruct I0 as (_ & _ & _ & _ & _ & I0 & _).
    rewrite I2, I1, I0. reflexivity.
  - rewrite example_learning_loop_unfold in E.
    eapply momentum_shapes_invariant. exact E.
Defined.
